(** * pysteps.nowcasts.linda: a shallow embedding of the LINDA core

    The module [pysteps/nowcasts/linda.py] is embedded function by
    function.  Python exceptions are an error monad, NumPy arrays are
    row-major lists with their shape, and binary64 arithmetic is an
    interface [FloatOps] with two instances: the kernel's primitive
    binary64 floats (executable) and an idealisation [xreal] that keeps
    the IEEE special values (infinities, NaN) but computes exactly on
    the finite ones, over which the analytic properties are proved. *)

From Stdlib Require Import Reals Lra Lia ZArith List Bool String.
From Stdlib Require Import Floats.
From stdpp Require Import gmap strings.
Import ListNotations.

(** ** Python outcomes *)

Inductive exn : Type :=
| NameError (name : string)
| UnboundLocalError (name : string)
| TypeError
| IndexError
| ValueError
| OverflowError.

Inductive result (A : Type) : Type :=
| Ok (a : A)
| Raise (e : exn).
Arguments Ok {A} a.
Arguments Raise {A} e.

Global Instance result_ret : MRet result := fun A a => Ok a.
Global Instance result_bind : MBind result :=
  fun A B f m => match m with Ok a => f a | Raise e => Raise e end.

(** ** Binary64 arithmetic as an interface

    Only what [_masked_convolution] uses: the constants [0.0], [1.0]
    and [np.nan], the three arithmetic operations and [np.isfinite].
    The single law is the IEEE fact that [1.0 * nan] is not finite. *)

Class FloatOps (F : Type) : Type := {
  fzero : F;
  fone : F;
  fnan : F;
  fadd : F -> F -> F;
  fmul : F -> F -> F;
  fdiv : F -> F -> F;
  fisfinite : F -> bool;
  fisfinite_one_nan : fisfinite (fmul fone fnan) = false
}.

(** The kernel's binary64 floats. *)
Global Program Instance prim_float_ops : FloatOps PrimFloat.float := {|
  fzero := 0%float;
  fone := 1%float;
  fnan := PrimFloat.nan;
  fadd := PrimFloat.add;
  fmul := PrimFloat.mul;
  fdiv := PrimFloat.div;
  fisfinite := PrimFloat.is_finite
|}.
Next Obligation. reflexivity. Qed.

(** ** Two-dimensional NumPy arrays: shape and row-major data *)

Record array2 (A : Type) : Type := Array2 {
  nrows : nat;
  ncols : nat;
  data : list A
}.
Arguments Array2 {A} nrows ncols data.
Arguments nrows {A} a.
Arguments ncols {A} a.
Arguments data {A} a.

Definition wf {A} (a : array2 A) : Prop :=
  length (data a) = nrows a * ncols a.

Definition same_shape {A B} (a : array2 A) (b : array2 B) : bool :=
  (nrows a =? nrows b) && (ncols a =? ncols b).

(** NumPy's broadcasting of two axes: their lengths are equal, or one
    of them is 1 and gives way to the other. *)
Definition broadcast_axis (n m : nat) : option nat :=
  if n =? m then Some n
  else if n =? 1 then Some m
  else if m =? 1 then Some n
  else None.

(** The data of [a] broadcast to the shape [(r, c)]: an axis of length
    1 is repeated along the axis it gives way to. *)
Definition np_broadcast_to {A} (a : array2 A) (r c : nat) : list A :=
  let rows :=
    if ncols a =? c then data a
    else concat (map (fun x => repeat x c) (data a)) in
  if nrows a =? r then rows else concat (repeat rows r).

(** An element-wise operation on two arrays: the operands are broadcast
    to their common shape; shapes that do not broadcast are a
    ValueError. *)
Definition np_map2 {A B C} (f : A -> B -> C) (a : array2 A) (b : array2 B)
  : result (array2 C) :=
  match broadcast_axis (nrows a) (nrows b), broadcast_axis (ncols a) (ncols b) with
  | Some r, Some c =>
      Ok (Array2 r c (zip_with f (np_broadcast_to a r c) (np_broadcast_to b r c)))
  | _, _ => Raise ValueError
  end.

(** [a[mask]] on 1-D data: the entries under a [True], in order. *)
Fixpoint gather {A} (m : list bool) (l : list A) : list A :=
  match m, l with
  | b :: m', x :: l' => if b then x :: gather m' l' else gather m' l'
  | _, _ => []
  end.

(** [a[mask] = v] on 1-D data: the entries under a [True] are replaced
    by the values of [v], in order. *)
Fixpoint scatter {A} (m : list bool) (l v : list A) : list A :=
  match m, l with
  | b :: m', x :: l' =>
      if b then
        match v with
        | y :: v' => y :: scatter m' l' v'
        | [] => x :: scatter m' l' []
        end
      else x :: scatter m' l' v
  | _, _ => l
  end.

Definition count_true (m : list bool) : nat := length (gather m m).

(** [a[mask]]: NumPy raises IndexError when the mask has another shape. *)
Definition getitem_mask {A} (a : array2 A) (m : array2 bool) : result (list A) :=
  if same_shape a m then Ok (gather (data m) (data a)) else Raise IndexError.

(** [a[mask] = v] for a 1-D [v]: one value per [True], or one value
    broadcast to all of them; anything else is a ValueError. *)
Definition setitem_mask {A} (a : array2 A) (m : array2 bool) (v : list A)
  : result (array2 A) :=
  if same_shape a m then
    if length v =? count_true (data m) then
      Ok (Array2 (nrows a) (ncols a) (scatter (data m) (data a) v))
    else
      match v with
      | [x] => Ok (Array2 (nrows a) (ncols a)
                     (zip_with (fun (b : bool) y => if b then x else y) (data m) (data a)))
      | _ => Raise ValueError
      end
  else Raise IndexError.

(** [a[mask] = x] for a scalar [x]. *)
Definition setitem_mask_scalar {A} (a : array2 A) (m : array2 bool) (x : A)
  : result (array2 A) :=
  if same_shape a m then
    Ok (Array2 (nrows a) (ncols a)
          (zip_with (fun (b : bool) y => if b then x else y) (data m) (data a)))
  else Raise IndexError.

(** [~mask] *)
Definition np_invert (m : array2 bool) : array2 bool :=
  Array2 (nrows m) (ncols m) (map negb (data m)).

Section MaskedConvolution.
Context {F : Type} `{FloatOps F}.

Definition get (a : array2 F) (i j : nat) : F :=
  nth (i * ncols a + j) (data a) fnan.

Definition np_isfinite (a : array2 F) : array2 bool :=
  Array2 (nrows a) (ncols a) (map fisfinite (data a)).

(** [a.copy()]: a new array with the same contents. *)
Definition np_copy (a : array2 F) : array2 F :=
  Array2 (nrows a) (ncols a) (data a).

(** [np.ones(shape)] *)
Definition np_ones (r c : nat) : array2 F :=
  Array2 r c (repeat fone (r * c)).

(** [a * x] for a scalar [x] *)
Definition np_mul_scalar (a : array2 F) (x : F) : array2 F :=
  Array2 (nrows a) (ncols a) (map (fun y => fmul y x) (data a)).

(** [mask.astype(float)] *)
Definition astype_float (m : array2 bool) : array2 F :=
  Array2 (nrows m) (ncols m) (map (fun b : bool => if b then fone else fzero) (data m)).

(** [u / v] on 1-D data of equal length (length-one operands broadcast). *)
Definition np_div1 (u v : list F) : result (list F) :=
  if length u =? length v then Ok (zip_with fdiv u v)
  else
    match u, v with
    | [x], _ => Ok (map (fun y => fdiv x y) v)
    | _, [y] => Ok (map (fun x => fdiv x y) u)
    | _, _ => Raise ValueError
    end.

Definition fsum (l : list F) : F := fold_left fadd l fzero.

(** *** [scipy.signal.convolve(in1, in2, mode="same")]

    scipy is not part of the module; this is the linear convolution
    its documentation describes, by the direct method: the input is
    padded with zeros, and the output is the part of the full
    convolution centred on [in1], of the shape of [in1]:
    [out[i,j] = full[i + (kr-1)//2, j + (kc-1)//2]].  The direct
    method correlates the padded input with the reversed kernel, so the
    terms of an entry are added from the last kernel entry to the
    first.  The padding step fails on a kernel with an axis of length
    zero, and the call raises ValueError. *)

Definition padded (a : array2 F) (i j : Z) : F :=
  if ((0 <=? i) && (i <? Z.of_nat (nrows a)) &&
      (0 <=? j) && (j <? Z.of_nat (ncols a)))%Z
  then nth (Z.to_nat i * ncols a + Z.to_nat j) (data a) fzero
  else fzero.

Definition conv_at (in1 in2 : array2 F) (i j : nat) : F :=
  let cr := ((Z.of_nat (nrows in2) - 1) / 2)%Z in
  let cc := ((Z.of_nat (ncols in2) - 1) / 2)%Z in
  fsum (map (fun pq : nat * nat =>
               let (p, q) := pq in
               fmul (padded in1 (Z.of_nat i + cr - Z.of_nat p)
                                (Z.of_nat j + cc - Z.of_nat q))
                    (padded in2 (Z.of_nat p) (Z.of_nat q)))
            (rev (list_prod (seq 0 (nrows in2)) (seq 0 (ncols in2))))).

(** The values of the same-size convolution. *)
Definition convolve_same (in1 in2 : array2 F) : array2 F :=
  Array2 (nrows in1) (ncols in1)
    (map (fun k => conv_at in1 in2 (k / ncols in1) (k mod ncols in1))
         (seq 0 (nrows in1 * ncols in1))).

Definition convolve (in1 in2 : array2 F) : result (array2 F) :=
  if (nrows in2 =? 0) || (ncols in2 =? 0)
  then Raise ValueError
  else Ok (convolve_same in1 in2).

(** *** [_masked_convolution] (linda.py, lines 269-279) *)

Definition _masked_convolution (field kernel : array2 F) : result (array2 F) :=
  let mask := np_isfinite field in
  let field := np_copy field in
  field ← setitem_mask_scalar field (np_invert mask) fzero;
  let field_c := np_mul_scalar (np_ones (nrows field) (ncols field)) fnan in
  c ← convolve field kernel;
  v ← getitem_mask c mask;
  field_c ← setitem_mask field_c mask v;
  u ← getitem_mask field_c mask;
  c ← convolve (astype_float mask) kernel;
  v ← getitem_mask c mask;
  q ← np_div1 u v;
  field_c ← setitem_mask field_c mask q;
  mret field_c.

(** The two arrays the function convolves, as the specification names
    them: the field with its non-finite entries set to zero, and the
    0/1 finiteness mask. *)
Definition zero_fill (field : array2 F) : array2 F :=
  Array2 (nrows field) (ncols field)
    (map (fun x => if fisfinite x then x else fzero) (data field)).

Definition finite_mask (field : array2 F) : array2 F :=
  Array2 (nrows field) (ncols field)
    (map (fun x => if fisfinite x then fone else fzero) (data field)).

Definition all_finite (field : array2 F) : Prop :=
  Forall (fun x => fisfinite x = true) (data field).

End MaskedConvolution.

(** ** [_masked_convolution] with its arrays in a store

    NumPy arrays are mutable objects that the caller and the callee
    share.  Here the 2-D arrays live in a store, names are bound to
    locations, every NumPy call that builds an array allocates a new
    location, and the two item assignments of the function write to the
    location their target is bound to.  One-dimensional temporaries
    ([a[mask]]) are never bound to a name and are kept as values. *)

Module Store.
Section WithFloat.
Context {F : Type} `{FloatOps F}.

Inductive cell : Type :=
| CFloat (a : array2 F)
| CBool (m : array2 bool).

Definition loc := nat.
Definition heapM (A : Type) : Type := gmap loc cell -> result (A * gmap loc cell).

Definition ret {A} (a : A) : heapM A := fun h => Ok (a, h).
Definition bind {A B} (m : heapM A) (f : A -> heapM B) : heapM B :=
  fun h => match m h with
           | Ok (a, h') => f a h'
           | Raise e => Raise e
           end.
Definition lift {A} (r : result A) : heapM A :=
  fun h => match r with Ok a => Ok (a, h) | Raise e => Raise e end.

Definition alloc (c : cell) : heapM loc :=
  fun h => let l := fresh (dom h) in Ok (l, <[l := c]> h).

Definition read_float (l : loc) : heapM (array2 F) :=
  fun h => match h !! l with
           | Some (CFloat a) => Ok (a, h)
           | _ => Raise TypeError
           end.

Definition read_bool (l : loc) : heapM (array2 bool) :=
  fun h => match h !! l with
           | Some (CBool m) => Ok (m, h)
           | _ => Raise TypeError
           end.

Definition write (l : loc) (c : cell) : heapM unit :=
  fun h => Ok (tt, <[l := c]> h).

Global Instance heapM_ret : MRet heapM := @ret.
Global Instance heapM_bind : MBind heapM := fun A B f m => bind m f.

(** [convolve(a, k, mode="same")[mask]]: the convolution is a new array,
    its masked selection a 1-D value. *)
Definition convolve_getitem (la lk lmask : loc) : heapM (list F) :=
  a ← read_float la;
  k ← read_float lk;
  c ← lift (convolve a k);
  lc ← alloc (CFloat c);
  c ← read_float lc;
  m ← read_bool lmask;
  lift (getitem_mask c m).

(** [target[mask] = v] writes into the array [target] is bound to. *)
Definition setitem (ltarget lmask : loc) (v : list F) : heapM unit :=
  t ← read_float ltarget;
  m ← read_bool lmask;
  t' ← lift (setitem_mask t m v);
  write ltarget (CFloat t').

Definition _masked_convolution (field kernel : loc) : heapM loc :=
  (* mask = np.isfinite(field) *)
  a ← read_float field;
  mask ← alloc (CBool (np_isfinite a));
  (* field = field.copy() *)
  a ← read_float field;
  field ← alloc (CFloat (np_copy a));
  (* field[~mask] = 0.0 *)
  m ← read_bool mask;
  inv ← alloc (CBool (np_invert m));
  a ← read_float field;
  m' ← read_bool inv;
  a' ← lift (setitem_mask_scalar a m' fzero);
  _ ← write field (CFloat a');
  (* field_c = np.ones(field.shape) * np.nan *)
  a ← read_float field;
  ones ← alloc (CFloat (np_ones (nrows a) (ncols a)));
  o ← read_float ones;
  field_c ← alloc (CFloat (np_mul_scalar o fnan));
  (* field_c[mask] = convolve(field, kernel, mode="same")[mask] *)
  v ← convolve_getitem field kernel mask;
  _ ← setitem field_c mask v;
  (* field_c[mask] /= convolve(mask.astype(float), kernel, mode="same")[mask] *)
  c ← read_float field_c;
  m ← read_bool mask;
  u ← lift (getitem_mask c m);
  maskf ← alloc (CFloat (astype_float m));
  v ← convolve_getitem maskf kernel mask;
  q ← lift (np_div1 u v);
  _ ← setitem field_c mask q;
  (* return field_c *)
  mret field_c.

End WithFloat.
End Store.

(** ** Idealised binary64: exact reals with the IEEE special values

    A finite value is a real number and the arithmetic on finite values
    is exact (no rounding, no overflow); infinities and NaN arise and
    propagate as IEEE 754 and NumPy prescribe, so that division by zero
    and [arctan(inf)] behave as in the program.  Zero has no sign: a
    zero divisor counts as [+0.0]. *)

Inductive xreal : Type :=
| Fin (r : R)
| PInf
| NInf
| NaN.

Definition Rltb (a b : R) : bool := if Rlt_dec a b then true else false.
Definition Reqb (a b : R) : bool := if Req_dec_T a b then true else false.

(** The infinity with the sign of [r]; NaN when [r] is zero. *)
Definition inf_of_sign (r : R) : xreal :=
  if Rltb 0 r then PInf else if Rltb r 0 then NInf else NaN.

Definition xneg (x : xreal) : xreal :=
  match x with
  | Fin r => Fin (- r)
  | PInf => NInf
  | NInf => PInf
  | NaN => NaN
  end.

Definition xabs (x : xreal) : xreal :=
  match x with
  | Fin r => Fin (Rabs r)
  | PInf | NInf => PInf
  | NaN => NaN
  end.

Definition xadd (x y : xreal) : xreal :=
  match x, y with
  | NaN, _ | _, NaN => NaN
  | Fin a, Fin b => Fin (a + b)
  | PInf, NInf | NInf, PInf => NaN
  | PInf, _ | _, PInf => PInf
  | NInf, _ | _, NInf => NInf
  end.

Definition xsub (x y : xreal) : xreal := xadd x (xneg y).

Definition xmul (x y : xreal) : xreal :=
  match x, y with
  | NaN, _ | _, NaN => NaN
  | Fin a, Fin b => Fin (a * b)
  | Fin a, PInf | PInf, Fin a => inf_of_sign a
  | Fin a, NInf | NInf, Fin a => inf_of_sign (- a)
  | PInf, PInf | NInf, NInf => PInf
  | PInf, NInf | NInf, PInf => NInf
  end.

Definition xdiv (x y : xreal) : xreal :=
  match x, y with
  | NaN, _ | _, NaN => NaN
  | Fin a, Fin b => if Reqb b 0 then inf_of_sign a else Fin (a / b)
  | Fin _, (PInf | NInf) => Fin 0
  | PInf, Fin b => if Rltb b 0 then NInf else PInf
  | NInf, Fin b => if Rltb b 0 then PInf else NInf
  | (PInf | NInf), (PInf | NInf) => NaN
  end.

Definition xexp (x : xreal) : xreal :=
  match x with
  | Fin r => Fin (exp r)
  | PInf => PInf
  | NInf => Fin 0
  | NaN => NaN
  end.

Definition xcos (x : xreal) : xreal :=
  match x with Fin r => Fin (cos r) | _ => NaN end.

Definition xsin (x : xreal) : xreal :=
  match x with Fin r => Fin (sin r) | _ => NaN end.

Definition xarctan (x : xreal) : xreal :=
  match x with
  | Fin r => Fin (atan r)
  | PInf => Fin (PI / 2)
  | NInf => Fin (- (PI / 2))
  | NaN => NaN
  end.

Definition xsqrt (x : xreal) : xreal :=
  match x with
  | Fin r => if Rltb r 0 then NaN else Fin (R_sqrt.sqrt r)
  | PInf => PInf
  | NInf | NaN => NaN
  end.

(** [np.arctan2(y, x)] *)
Definition xarctan2 (y x : xreal) : xreal :=
  match y, x with
  | NaN, _ | _, NaN => NaN
  | Fin b, Fin a =>
      if Rltb 0 a then Fin (atan (b / a))
      else if Rltb a 0 then
        (if Rltb b 0 then Fin (atan (b / a) - PI) else Fin (atan (b / a) + PI))
      else if Rltb 0 b then Fin (PI / 2)
      else if Rltb b 0 then Fin (- (PI / 2))
      else Fin 0
  | Fin b, PInf => Fin 0
  | Fin b, NInf => if Rltb b 0 then Fin (- PI) else Fin PI
  | PInf, Fin _ => Fin (PI / 2)
  | NInf, Fin _ => Fin (- (PI / 2))
  | PInf, PInf => Fin (PI / 4)
  | NInf, PInf => Fin (- (PI / 4))
  | PInf, NInf => Fin (3 * PI / 4)
  | NInf, NInf => Fin (- (3 * PI / 4))
  end.

Definition is_integer (r : R) : bool := Reqb (IZR (Int_part r)) r.

(** [a ** b] for finite [a] and finite non-zero [b] *)
Definition Rpow_real (a b : R) : xreal :=
  if Rltb 0 a then Fin (Rpower a b)
  else if Reqb a 0 then (if Rltb 0 b then Fin 0 else PInf)
  else if is_integer b then
    Fin ((if Z.odd (Int_part b) then -1 else 1) * Rpower (- a) b)
  else NaN.

(** [x ** y] ([np.power], the C library's [pow]) *)
Definition xpow (x y : xreal) : xreal :=
  match x, y with
  | _, Fin b =>
      if Reqb b 0 then Fin 1
      else match x with
           | Fin a => Rpow_real a b
           | PInf => if Rltb 0 b then PInf else Fin 0
           | NInf =>
               if Rltb 0 b
               then (if is_integer b && Z.odd (Int_part b) then NInf else PInf)
               else Fin 0
           | NaN => NaN
           end
  | Fin a, PInf =>
      if Reqb (Rabs a) 1 then Fin 1
      else if Rltb (Rabs a) 1 then Fin 0 else PInf
  | Fin a, NInf =>
      if Reqb (Rabs a) 1 then Fin 1
      else if Rltb (Rabs a) 1 then PInf else Fin 0
  | (PInf | NInf), PInf => PInf
  | (PInf | NInf), NInf => Fin 0
  | NaN, (PInf | NInf) => NaN
  | Fin a, NaN => if Reqb a 1 then Fin 1 else NaN
  | _, NaN => NaN
  end.

Definition xisfinite (x : xreal) : bool :=
  match x with Fin _ => true | _ => false end.

Definition xisnan (x : xreal) : bool :=
  match x with NaN => true | _ => false end.

(** [x > y] *)
Definition xgtb (x y : xreal) : bool :=
  match x, y with
  | NaN, _ | _, NaN => false
  | Fin a, Fin b => Rltb b a
  | PInf, (Fin _ | NInf) => true
  | Fin _, NInf => true
  | _, _ => false
  end.

Declare Scope xreal_scope.
Delimit Scope xreal_scope with xr.
Bind Scope xreal_scope with xreal.
Infix "+" := xadd : xreal_scope.
Infix "-" := xsub : xreal_scope.
Infix "*" := xmul : xreal_scope.
Infix "/" := xdiv : xreal_scope.
Infix "**" := xpow (at level 30, right associativity) : xreal_scope.
Notation "- x" := (xneg x) : xreal_scope.

Global Program Instance xreal_ops : FloatOps xreal := {|
  fzero := Fin 0;
  fone := Fin 1;
  fnan := NaN;
  fadd := xadd;
  fmul := xmul;
  fdiv := xdiv;
  fisfinite := xisfinite
|}.
Next Obligation. reflexivity. Qed.

(** Python's [int(x)] on a float: truncation towards zero; NaN and the
    infinities cannot be converted. *)
Definition truncate (r : R) : Z :=
  if Rltb r 0 then (- Int_part (- r))%Z else Int_part r.

Definition py_int (x : xreal) : result Z :=
  match x with
  | Fin r => Ok (truncate r)
  | PInf | NInf => Raise OverflowError
  | NaN => Raise ValueError
  end.

(** [np.arange(a, b)] on integers *)
Definition arange (a b : Z) : list Z :=
  map (fun i => (a + Z.of_nat i)%Z) (seq 0 (Z.to_nat (b - a))).

(** [np.meshgrid(x, y)]: both of shape [(len(y), len(x))] *)
Definition meshgrid {A} (x y : list A) : array2 A * array2 A :=
  (Array2 (length y) (length x) (concat (map (fun _ => x) y)),
   Array2 (length y) (length x) (concat (map (fun yi => repeat yi (length x)) y))).

(** What a parameter vector can be at run time: a NumPy scalar, or a
    sequence (tuple or 1-D array) of floats. *)
Inductive pyparams : Type :=
| PyScalar (x : xreal)
| PySeq (l : list xreal).

(** ** Geometry: [_compute_ellipse_bbox] (linda.py, lines 199-214) *)

Definition _compute_ellipse_bbox (phi sigma1 sigma2 cutoff : xreal)
  : xreal * xreal * xreal * xreal :=
  let r1 := (cutoff * sigma1)%xr in
  let r2 := (cutoff * sigma2)%xr in
  let phi_r := (phi / Fin 180 * Fin PI)%xr in
  let '(w, h) :=
    if xgtb (xabs (phi_r - Fin PI / Fin 2)) (Fin (1 / 1000000)) &&
       xgtb (xabs (phi_r - Fin 3 * Fin PI / Fin 2)) (Fin (1 / 1000000))
    then
      let alpha := xarctan (- r2 * xsin phi_r / (r1 * xcos phi_r))%xr in
      let w := (r1 * xcos alpha * xcos phi_r - r2 * xsin alpha * xsin phi_r)%xr in
      let alpha := xarctan (r2 * xcos phi_r / (r1 * xsin phi_r))%xr in
      let h := (r1 * xcos alpha * xsin phi_r + r2 * xsin alpha * xcos phi_r)%xr in
      (w, h)
    else ((sigma2 * cutoff)%xr, (sigma1 * cutoff)%xr)
  in
  (xneg (xabs h), xneg (xabs w), xabs h, xabs w).

(** ** Kernel builders (linda.py, lines 143-195) *)

(** The four lines both builders repeat for each axis:
    [x = np.arange(int(lo), int(hi) + 1).astype(float)], and when its
    length is even, [x = np.arange(int(lo) - 1, int(hi) + 1).astype(float)]. *)
Definition odd_axis (lo hi : xreal) : result (list xreal) :=
  a ← py_int lo;
  b ← py_int hi;
  let x := arange a (b + 1) in
  if Nat.even (length x)
  then a' ← py_int lo; b' ← py_int hi;
       mret (map (fun z => Fin (IZR z)) (arange (a' - 1) (b' + 1)))
  else mret (map (fun z => Fin (IZR z)) x).

Definition normalise (result : list xreal) : list xreal :=
  map (fun v => (v / fsum result)%xr) result.

Definition _compute_kernel_anisotropic (params : pyparams) (cutoff : xreal)
  : result (array2 xreal) :=
  match params with
  | PyScalar _ => Raise IndexError
  | PySeq l =>
      match firstn 3 l with
      | [phi; sigma1; sigma2] =>
          let sigma1 := xabs sigma1 in
          let sigma2 := xabs sigma2 in
          let phi_r := (phi / Fin 180 * Fin PI)%xr in
          let '(bb_y1, bb_x1, bb_y2, bb_x2) :=
            _compute_ellipse_bbox phi sigma1 sigma2 cutoff in
          x ← odd_axis bb_x1 bb_x2;
          y ← odd_axis bb_y1 bb_y2;
          let '(X, Y) := meshgrid x y in
          let XY0 := zip_with (fun u v => (xcos phi_r * u + xsin phi_r * v)%xr)
                       (data X) (data Y) in
          let XY1 := zip_with (fun u v => (- xsin phi_r * u + xcos phi_r * v)%xr)
                       (data X) (data Y) in
          let x2 := map (fun u => (u * u)%xr) XY0 in
          let y2 := map (fun v => (v * v)%xr) XY1 in
          match nth_error l 3 with
          | None => Raise IndexError
          | Some p3 =>
              let result :=
                zip_with (fun u v => xexp (- ((u / sigma1 + v / sigma2) ** p3))%xr)
                  x2 y2 in
              mret (Array2 (nrows X) (ncols X) (normalise result))
          end
      | _ => Raise ValueError
      end
  end.

Definition _compute_kernel_isotropic (params : pyparams) (cutoff : xreal)
  : result (array2 xreal) :=
  match params with
  | PyScalar _ => Raise IndexError
  | PySeq [] => Raise IndexError
  | PySeq (sigma :: _) =>
      let '(bb_y1, bb_x1, bb_y2, bb_x2) :=
        ((- sigma * cutoff)%xr, (- sigma * cutoff)%xr,
         (sigma * cutoff)%xr, (sigma * cutoff)%xr) in
      x ← odd_axis bb_x1 bb_x2;
      y ← odd_axis bb_y1 bb_y2;
      let '(X, Y) := meshgrid (map (fun u => (u / sigma)%xr) x)
                              (map (fun v => (v / sigma)%xr) y) in
      let r2 := zip_with (fun u v => (u * u + v * v)%xr) (data X) (data Y) in
      let result := map (fun r => xexp (Fin (- (1 / 2)) * r)%xr) r2 in
      mret (Array2 (nrows X) (ncols X) (normalise result))
  end.

(** ** Window weights: [_compute_window_weights] (linda.py, lines 217-246)

    [coords] is the [(num_features, 2)] array of feature coordinates,
    a row per feature; [window_radii] the 1-D array of their radii;
    the result is the [(num_features, grid_height, grid_width)] array,
    a 2-D array per feature. *)

Definition grid_points (n : nat) : list xreal :=
  map (fun k => ((Fin (INR k) + Fin (1 / 2)) / Fin (INR n))%xr) (seq 0 n).

(** [w[i, :]] of the loop body, for the feature at [c] with radii [r1], [r2] *)
Definition window_weight (grid_x grid_y : array2 xreal) (c : xreal * xreal)
  (r1 r2 : xreal) : array2 xreal :=
  Array2 (nrows grid_x) (ncols grid_x)
    (zip_with (fun gy gx =>
                 let dy := (fst c - gy)%xr in
                 let dx := (snd c - gx)%xr in
                 xexp (- dy * dy / (Fin 2 * r1 ** Fin 2)
                       - dx * dx / (Fin 2 * r2 ** Fin 2))%xr)
       (data grid_y) (data grid_x)).

Fixpoint window_weight_loop (grid_x grid_y : array2 xreal)
  (window_radii_1 window_radii_2 : list xreal) (i : nat)
  (coords : list (xreal * xreal)) : result (list (array2 xreal)) :=
  match coords with
  | [] => mret []
  | c :: rest =>
      match nth_error window_radii_1 i, nth_error window_radii_2 i with
      | Some r1, Some r2 =>
          w ← window_weight_loop grid_x grid_y window_radii_1 window_radii_2 (S i) rest;
          mret (window_weight grid_x grid_y c r1 r2 :: w)
      | _, _ => Raise IndexError
      end
  end.

Definition _compute_window_weights (coords : list (xreal * xreal))
  (grid_height grid_width : nat) (window_radii : list xreal)
  : result (list (array2 xreal)) :=
  let coords := map (fun c => ((fst c / Fin (INR grid_height))%xr,
                               (snd c / Fin (INR grid_width))%xr)) coords in
  let num_features := length coords in
  let window_radii_1 := map (fun r => (r / Fin (INR grid_height))%xr) window_radii in
  let window_radii_2 := map (fun r => (r / Fin (INR grid_width))%xr) window_radii in
  let grid_x := grid_points grid_width in
  let grid_y := grid_points grid_height in
  let '(grid_x, grid_y) := meshgrid grid_x grid_y in
  if 1 <? length coords then
    window_weight_loop grid_x grid_y window_radii_1 window_radii_2 0 coords
  else
    match num_features with
    | O => Raise IndexError
    | S _ => mret [np_ones grid_height grid_width]
    end.

(** ** [_get_anisotropic_kernel_params] (linda.py, lines 250-255) *)

Definition _get_anisotropic_kernel_params (p : list xreal) : result pyparams :=
  match p with
  | p0 :: p1 :: p2 :: p3 :: _ =>
      let theta := xarctan2 p1 p0 in
      let sigma1 := xsqrt (p0 * p0 + p1 * p1)%xr in
      let sigma2 := (sigma1 * p2)%xr in
      mret (PySeq [theta; sigma1; sigma2; p3])
  | _ => Raise IndexError
  end.

(** ** The fitters (linda.py, lines 283-373)

    The numerical optimisers of [scipy.optimize] are not part of the
    module.  Each is a parameter here: a function from the objective
    and the bounds, constraints and starting point the module passes,
    to the [x] of the result it returns. *)

(** [np.nansum]: NaN counts as zero. *)
Definition np_nansum (l : list xreal) : xreal :=
  fsum (map (fun v => if xisnan v then Fin 0 else v) l).

Definition np_scale (p : xreal) (a : array2 xreal) : array2 xreal :=
  Array2 (nrows a) (ncols a) (map (fun v => (p * v)%xr) (data a)).

Inductive kernel_type : Type := anisotropic | isotropic.
Inductive method : Type := lbfgsb | trf | other_method.

(** What [objf] of the kernel fitter returns: the residual vector for
    the least-squares solver, a scalar otherwise. *)
Inductive objective_value : Type :=
| Residuals (v : list xreal)
| Scalar (v : xreal).

Section Fitters.

(** [minimize_scalar(objf, method="bounded", bounds=(lo, hi)).x] *)
Variable minimize_scalar_bounded :
  (xreal -> result objective_value) -> xreal * xreal -> result xreal.

(** [minimize(objf, x0, method="trust-constr", bounds=bounds,
    constraints=[LinearConstraint(A, lb, ub, keep_feasible=True)]).x] *)
Variable minimize_trust_constr :
  (list xreal -> result objective_value) -> list xreal ->
  list (xreal * xreal) ->
  list (list xreal) * list xreal * list xreal * bool ->
  result (list xreal).

(** [minimize(objf, x0, bounds=bounds, method="L-BFGS-B").x] *)
Variable minimize_lbfgsb :
  (list xreal -> result objective_value) -> list xreal ->
  list (xreal * xreal) -> result (list xreal).

(** [least_squares(objf, x0, bounds=(lower, upper), method="trf",
    ftol=1e-6, xtol=1e-6, gtol=1e-6).x] *)
Variable least_squares_trf :
  (list xreal -> result objective_value) -> list xreal ->
  list xreal * list xreal -> result (list xreal).

(** [np.nansum(weights * (field_dst - field_ar) ** 2.0)] *)
Definition weighted_sse (weights field_dst field_ar : array2 xreal)
  : result objective_value :=
  d ← np_map2 xsub field_dst field_ar;
  let sq := Array2 (nrows d) (ncols d) (map (fun v => (v ** Fin 2)%xr) (data d)) in
  e ← np_map2 xmul weights sq;
  mret (Scalar (np_nansum (data e))).

Definition _optimize_ar1_params (field_src : list (array2 xreal))
  (field_dst weights : array2 xreal) : result xreal :=
  let objf (p : xreal) : result objective_value :=
    match nth_error field_src 0 with
    | None => Raise IndexError
    | Some src0 => weighted_sse weights field_dst (np_scale p src0)
    end in
  let bounds := (Fin (- (98 / 100)), Fin (98 / 100)) in
  minimize_scalar_bounded objf bounds.

Definition _optimize_ar2_params (field_src : list (array2 xreal))
  (field_dst weights : array2 xreal) : result (list xreal) :=
  let objf (p : list xreal) : result objective_value :=
    match p, nth_error field_src 1, nth_error field_src 0 with
    | p0 :: p1 :: _, Some src1, Some src0 =>
        field_ar ← np_map2 xadd (np_scale p0 src1) (np_scale p1 src0);
        weighted_sse weights field_dst field_ar
    | _, _, _ => Raise IndexError
    end in
  let bounds := [(Fin (- (198 / 100)), Fin (198 / 100));
                 (Fin (- (98 / 100)), Fin (98 / 100))] in
  let constraints :=
    ([[Fin 1; Fin 1]; [Fin (-1); Fin 1]],
     [NInf; NInf],
     [Fin (98 / 100); Fin (98 / 100)],
     true) in
  minimize_trust_constr objf [Fin (8 / 10); Fin 0] bounds constraints.

(** [a[mask]] for the fields of the kernel fitter *)
Definition select (mask : array2 bool) (a : array2 xreal) : result (list xreal) :=
  getitem_mask a mask.

Definition _optimize_convol_params (field_src field_dst weights : array2 xreal)
  (mask : array2 bool) (kernel_type : kernel_type) (cutoff : xreal)
  (method : method) : result (array2 xreal) :=
  (* mask = np.logical_and(mask, weights > 1e-3) *)
  mask ← np_map2 (fun (b : bool) w => b && xgtb w (Fin (1 / 1000))) mask weights;
  let kernel_of (p : pyparams) : result (array2 xreal) :=
    match kernel_type, p with
    | anisotropic, PySeq l =>
        q ← _get_anisotropic_kernel_params l;
        _compute_kernel_anisotropic q cutoff
    | anisotropic, PyScalar _ => Raise IndexError
    | isotropic, PyScalar s => _compute_kernel_isotropic (PySeq [s]) cutoff
    | isotropic, PySeq l => Raise ValueError
    end in
  let objf (p : pyparams) : result objective_value :=
    kernel ← kernel_of p;
    field_src_c_ ← _masked_convolution field_src kernel;
    w ← select mask weights;
    d ← select mask field_dst;
    c ← select mask field_src_c_;
    match kernel_type, method with
    | anisotropic, trf =>
        mret (Residuals (zip_with (fun wi r => (xsqrt wi * r)%xr) w
                           (zip_with xsub d c)))
    | _, _ =>
        mret (Scalar (fsum (zip_with (fun wi r => (wi * r ** Fin 2)%xr) w
                              (zip_with xsub d c))))
    end in
  p_opt ←
    match kernel_type with
    | anisotropic =>
        x ← match method with
            | lbfgsb =>
                minimize_lbfgsb (fun p => objf (PySeq p))
                  [Fin 1; Fin 1; Fin 1; Fin 1]
                  [(Fin (-10), Fin 10); (Fin (-10), Fin 10);
                   (Fin (1 / 4), Fin 4); (Fin (1 / 10), Fin 5)]
            | trf =>
                least_squares_trf (fun p => objf (PySeq p))
                  [Fin 1; Fin 1; Fin 1; Fin 1]
                  ([Fin (-10); Fin (-10); Fin (1 / 4); Fin (1 / 10)],
                   [Fin 10; Fin 10; Fin 4; Fin 5])
            | other_method => Raise (UnboundLocalError "p_opt")
            end;
        _get_anisotropic_kernel_params x
    | isotropic =>
        x ← minimize_scalar_bounded (fun p => objf (PyScalar p))
              (Fin (1 / 100), Fin 10);
        mret (PyScalar x)
    end;
  (* return _compute_kernel_anisotropic(p_opt, **kernel_params) *)
  _compute_kernel_anisotropic p_opt cutoff.

End Fitters.

(** ** The entry point [forecast] (linda.py, lines 49-139)

    The body reads three names, [num_features], [feature_coords] and
    [window_radii], that are neither parameters nor assigned in the
    function: Python looks them up in the module's global namespace
    when the line runs.  The namespace is a parameter here. *)

Inductive pyval : Type :=
| PyNone
| PyInt (n : Z)
| PyCoords (l : list (xreal * xreal))
| PyRadii (l : list xreal)
| PyArray (shape : list nat) (values : list xreal).

Definition load_global (globals : gmap string pyval) (name : string) : result pyval :=
  match globals !! name with
  | Some v => Ok v
  | None => Raise (NameError name)
  end.

(** The names the module [linda] binds at import time are its imports
    and its functions; none of them is one of the three. *)
Definition linda_globals : gmap string pyval := ∅.

(** [np.sum(window_weights * localized_nowcasts, axis=0)]: the value is
    discarded, only a shape mismatch can be observed. *)
Definition blend_shapes_ok (num_windows num_features : nat) : bool :=
  (num_windows =? num_features) || (num_windows =? 1) || (num_features =? 1).

Fixpoint forecast_loop (num_timesteps : nat) (num_windows num_features : nat)
  : result unit :=
  match num_timesteps with
  | O => mret tt
  | S t =>
      if blend_shapes_ok num_windows num_features
      then forecast_loop t num_windows num_features
      else Raise ValueError
  end.

Definition forecast (globals : gmap string pyval)
  (precip_fields_shape : list nat) (num_timesteps : nat)
  (ari_order : nat) (add_perturbations : bool) (num_ens_members : nat)
  (kernel_type : kernel_type) (interp_window_radius : nat) (num_workers : nat)
  : result pyval :=
  (* localized_nowcasts = np.empty((num_features, shape[1], shape[2])) *)
  nf ← load_global globals "num_features";
  m ← (match nth_error precip_fields_shape 1 with
       | Some m => Ok m | None => Raise IndexError end);
  n ← (match nth_error precip_fields_shape 2 with
       | Some n => Ok n | None => Raise IndexError end);
  num_features ← (match nf with
                  | PyInt z => if (z <? 0)%Z then Raise ValueError else Ok (Z.to_nat z)
                  | _ => Raise TypeError
                  end);
  (* window_weights = _compute_window_weights(feature_coords, m, n, window_radii) *)
  fc ← load_global globals "feature_coords";
  m' ← (match nth_error precip_fields_shape 1 with
        | Some m => Ok m | None => Raise IndexError end);
  n' ← (match nth_error precip_fields_shape 2 with
        | Some n => Ok n | None => Raise IndexError end);
  wr ← load_global globals "window_radii";
  window_weights ←
    (match fc, wr with
     | PyCoords c, PyRadii r => _compute_window_weights c m' n' r
     | _, _ => Raise TypeError
     end);
  (* for t in range(num_timesteps): np.sum(..., axis=0) *)
  _ ← forecast_loop num_timesteps (length window_weights) num_features;
  (* the function ends without a return statement *)
  mret PyNone.

(** ** [_iterate_ar_model] (linda.py, lines 259-265)

    [input_fields] holds one field per row, the most recent last; the
    trailing axes of a field are flattened into the columns. *)

Section IterateArModel.
Context {F : Type} `{FloatOps F}.

(** [input_field_new]: the Python float it is bound to at first, or
    the array the first [+=] rebinds it to. *)
Inductive accumulator : Type :=
| AccFloat (x : F)
| AccArray (l : list F).

(** [input_fields[-(i + 1), :]] *)
Definition row_from_end (input_fields : array2 F) (i : nat) : result (list F) :=
  if i + 1 <=? nrows input_fields
  then Ok (firstn (ncols input_fields)
             (skipn ((nrows input_fields - (i + 1)) * ncols input_fields)
                (data input_fields)))
  else Raise IndexError.

(** The loop [for i in range(len(psi))], from index [i] on. *)
Fixpoint iterate_ar_loop (input_fields : array2 F) (psi : list F) (i : nat)
  (input_field_new : accumulator) : result accumulator :=
  match psi with
  | [] => mret input_field_new
  | psi_i :: rest =>
      row ← row_from_end input_fields i;
      let term := map (fun v => fmul psi_i v) row in
      iterate_ar_loop input_fields rest (S i)
        match input_field_new with
        | AccFloat x => AccArray (map (fun v => fadd x v) term)
        | AccArray l => AccArray (zip_with fadd l term)
        end
  end.

Definition _iterate_ar_model (input_fields : array2 F) (psi : list F)
  : result (array2 F) :=
  input_field_new ← iterate_ar_loop input_fields psi 0 (AccFloat fzero);
  match input_field_new with
  | AccFloat _ => Raise TypeError
  | AccArray l =>
      mret (Array2 (nrows input_fields - 1 + 1) (ncols input_fields)
              (skipn (ncols input_fields) (data input_fields) ++ l))
  end.

End IterateArModel.

(** The refined mask and the closure [objf] of
    [_optimize_convol_params] (linda.py, lines 330-346), under names of
    their own. *)
Definition convol_mask (mask : array2 bool) (weights : array2 xreal)
  : result (array2 bool) :=
  np_map2 (fun (b : bool) w => b && xgtb w (Fin (1 / 1000))) mask weights.

Definition convol_objf (field_src field_dst weights : array2 xreal)
  (mask : array2 bool) (kernel_type : kernel_type) (cutoff : xreal)
  (method : method) (p : pyparams) : result objective_value :=
  kernel ← match kernel_type, p with
           | anisotropic, PySeq l =>
               q ← _get_anisotropic_kernel_params l;
               _compute_kernel_anisotropic q cutoff
           | anisotropic, PyScalar _ => Raise IndexError
           | isotropic, PyScalar s => _compute_kernel_isotropic (PySeq [s]) cutoff
           | isotropic, PySeq l => Raise ValueError
           end;
  field_src_c_ ← _masked_convolution field_src kernel;
  w ← select mask weights;
  d ← select mask field_dst;
  c ← select mask field_src_c_;
  match kernel_type, method with
  | anisotropic, trf =>
      mret (Residuals (zip_with (fun wi r => (xsqrt wi * r)%xr) w
                         (zip_with xsub d c)))
  | _, _ =>
      mret (Scalar (fsum (zip_with (fun wi r => (wi * r ** Fin 2)%xr) w
                            (zip_with xsub d c))))
  end.

(** * Properties *)

Section ListLemmas.
Context {A : Type}.

Lemma gather_length_le (m : list bool) (l : list A) :
  length (gather m l) <= length l.
Proof.
  revert l; induction m as [|b m IH]; intros [|x l]; simpl; try lia.
  specialize (IH l). destruct b; simpl; lia.
Qed.

Lemma gather_length (m : list bool) (l : list A) :
  length m = length l -> length (gather m l) = count_true m.
Proof.
  unfold count_true. revert l; induction m as [|b m IH]; intros [|x l]; simpl; try lia.
  intros Hl. destruct b; simpl; rewrite (IH l) by lia; reflexivity.
Qed.

Lemma scatter_length (m : list bool) (l v : list A) :
  length (scatter m l v) = length l.
Proof.
  revert l v; induction m as [|b m IH]; intros [|x l] v; simpl; try reflexivity.
  destruct b; [destruct v|]; simpl; rewrite IH; reflexivity.
Qed.

(** Scattering the gathered entries of [w] into [l]: [w] under a
    [True], [l] elsewhere. *)
Lemma scatter_gather (m : list bool) (l w : list A) :
  length m = length l -> length m = length w ->
  scatter m l (gather m w) = zip_with (fun (p : bool * A) x => if fst p then snd p else x) (zip m w) l.
Proof.
  revert l w; induction m as [|b m IH]; intros [|x l] [|y w]; simpl; try lia; auto.
  intros Hl Hw. destruct b; simpl; rewrite IH by lia; reflexivity.
Qed.

Lemma gather_scatter_gather (m : list bool) (l w : list A) :
  length m = length l -> length m = length w ->
  gather m (scatter m l (gather m w)) = gather m w.
Proof.
  revert l w; induction m as [|b m IH]; intros [|x l] [|y w]; simpl; try lia; auto.
  intros Hl Hw. destruct b; simpl; rewrite IH by lia; reflexivity.
Qed.

Lemma gather_zip_with (f : A -> A -> A) (m : list bool) (u v : list A) :
  zip_with f (gather m u) (gather m v) = gather m (zip_with f u v).
Proof.
  revert u v; induction m as [|b m IH]; intros [|x u] [|y v]; simpl; auto.
  - destruct b; simpl; [|destruct (gather m u)]; reflexivity.
  - destruct b; simpl; rewrite IH; reflexivity.
Qed.

Lemma nth_select (m : list bool) (l w : list A) (k : nat) (d : A) :
  length m = length l -> length m = length w -> k < length l ->
  nth k (zip_with (fun (p : bool * A) x => if fst p then snd p else x) (zip m w) l) d
  = if nth k m false then nth k w d else nth k l d.
Proof.
  revert l w k; induction m as [|b m IH]; intros [|x l] [|y w] k; simpl; try lia.
  intros Hl Hw Hk. destruct k as [|k]; simpl; [reflexivity|].
  apply IH; lia.
Qed.

Lemma nth_map_seq (f : nat -> A) (N k : nat) (d : A) :
  k < N -> nth k (map f (seq 0 N)) d = f k.
Proof.
  intros Hk. rewrite (nth_indep _ d (f 0)) by (rewrite length_map, length_seq; exact Hk).
  rewrite map_nth, seq_nth by exact Hk. reflexivity.
Qed.

End ListLemmas.

Lemma np_map2_same_shape {A B C} (f : A -> B -> C) (a : array2 A) (b : array2 B) :
  nrows a = nrows b -> ncols a = ncols b ->
  np_map2 f a b = Ok (Array2 (nrows a) (ncols a) (zip_with f (data a) (data b))).
Proof.
  intros Hr Hc. unfold np_map2, broadcast_axis, np_broadcast_to.
  rewrite <- Hr, <- Hc, !Nat.eqb_refl. reflexivity.
Qed.

(** A row against a column: each is repeated along the axis of the
    other. *)
Example np_map2_broadcast :
  np_map2 Nat.add (Array2 1 2 [1; 2]) (Array2 2 1 [10; 20])
  = Ok (Array2 2 2 [11; 12; 21; 22]).
Proof. reflexivity. Qed.

Example np_map2_mismatch :
  np_map2 Nat.add (Array2 1 2 [1; 2]) (Array2 1 3 [10; 20; 30]) = Raise ValueError.
Proof. reflexivity. Qed.

Section MaskedConvolutionProps.
Context {F : Type} `{FloatOps F}.

Lemma same_shape_refl {A B} (a : array2 A) (b : array2 B) :
  nrows a = nrows b -> ncols a = ncols b -> same_shape a b = true.
Proof.
  intros Hr Hc. unfold same_shape. rewrite Hr, Hc, !Nat.eqb_refl. reflexivity.
Qed.

Lemma zero_fill_data (d : list F) :
  zip_with (fun (b : bool) y => if b then fzero else y) (map negb (map fisfinite d)) d
  = map (fun x => if fisfinite x then x else fzero) d.
Proof.
  induction d as [|x d IH]; simpl; [reflexivity|].
  rewrite IH. destruct (fisfinite x); reflexivity.
Qed.

Lemma convolve_length (in1 in2 : array2 F) :
  length (data (convolve_same in1 in2)) = nrows in1 * ncols in1.
Proof. simpl. rewrite length_map, length_seq. reflexivity. Qed.

Lemma convolve_wf (in1 in2 : array2 F) : wf (convolve_same in1 in2).
Proof. unfold wf. rewrite convolve_length. reflexivity. Qed.

Lemma position_in_range (m n i j : nat) : i < m -> j < n -> i * n + j < m * n.
Proof. intros Hi Hj. nia. Qed.

Lemma get_convolve (in1 in2 : array2 F) (i j : nat) :
  i < nrows in1 -> j < ncols in1 ->
  get (convolve_same in1 in2) i j = conv_at in1 in2 i j.
Proof.
  intros Hi Hj. unfold get. simpl.
  pose proof (position_in_range _ _ _ _ Hi Hj) as Hk.
  rewrite nth_map_seq by exact Hk.
  rewrite Nat.div_add_l, Nat.div_small, Nat.add_0_r by lia.
  rewrite Nat.add_comm, Nat.Div0.mod_add, Nat.mod_small by lia.
  reflexivity.
Qed.

(** The value [_masked_convolution] returns, in closed form: under the
    mask the quotient of the two convolutions, elsewhere the fill value
    [1.0 * nan]. *)
Definition masked_quotient (field kernel : array2 F) : array2 F :=
  Array2 (nrows field) (ncols field)
    (zip_with (fun (p : bool * F) x => if fst p then snd p else x)
       (zip (map fisfinite (data field))
            (zip_with fdiv (data (convolve_same (zero_fill field) kernel))
                           (data (convolve_same (finite_mask field) kernel))))
       (repeat (fmul fone fnan) (nrows field * ncols field))).

Lemma getitem_mask_ok {A} (a : array2 A) (m : array2 bool) :
  nrows a = nrows m -> ncols a = ncols m ->
  getitem_mask a m = Ok (gather (data m) (data a)).
Proof. intros Hr Hc. unfold getitem_mask. rewrite same_shape_refl; auto. Qed.

Lemma setitem_mask_ok {A} (a : array2 A) (m : array2 bool) (v : list A) :
  nrows a = nrows m -> ncols a = ncols m -> length v = count_true (data m) ->
  setitem_mask a m v = Ok (Array2 (nrows a) (ncols a) (scatter (data m) (data a) v)).
Proof.
  intros Hr Hc Hv. unfold setitem_mask.
  rewrite same_shape_refl, Hv, Nat.eqb_refl; auto.
Qed.

Lemma np_div1_ok (u v : list F) :
  length u = length v -> np_div1 u v = Ok (zip_with fdiv u v).
Proof. intros Hl. unfold np_div1. rewrite Hl, Nat.eqb_refl. reflexivity. Qed.

Lemma astype_float_isfinite (field : array2 F) :
  astype_float (np_isfinite field) = finite_mask field.
Proof.
  unfold astype_float, np_isfinite, finite_mask. cbn [nrows ncols data].
  rewrite map_map. reflexivity.
Qed.

Lemma select_select {A} (m : list bool) (l w q : list A) :
  length m = length w ->
  zip_with (fun (p : bool * A) x => if fst p then snd p else x) (zip m q)
    (zip_with (fun (p : bool * A) x => if fst p then snd p else x) (zip m w) l)
  = zip_with (fun (p : bool * A) x => if fst p then snd p else x) (zip m q) l.
Proof.
  revert l w q; induction m as [|b m IH]; intros [|x l] [|y w] [|z q]; simpl;
    auto; try lia.
  intros Hw. destruct b; simpl; f_equal; apply (IH l w q); lia.
Qed.

(** The two item assignments together, on the data. *)
Lemma masked_data_closed_form (m : list bool) (l c1 c2 : list F) :
  length m = length l -> length m = length c1 -> length m = length c2 ->
  scatter m (scatter m l (gather m c1))
    (zip_with fdiv (gather m (scatter m l (gather m c1))) (gather m c2))
  = zip_with (fun (p : bool * F) x => if fst p then snd p else x)
      (zip m (zip_with fdiv c1 c2)) l.
Proof.
  intros Hl H1 H2.
  rewrite gather_scatter_gather, gather_zip_with by lia.
  rewrite !scatter_gather
    by (rewrite ?scatter_length, ?length_zip_with; lia).
  apply select_select. lia.
Qed.

Lemma convolve_ok (in1 in2 : array2 F) :
  0 < nrows in2 -> 0 < ncols in2 -> convolve in1 in2 = Ok (convolve_same in1 in2).
Proof.
  intros Hr Hc. unfold convolve.
  replace (nrows in2 =? 0) with false by (symmetry; apply Nat.eqb_neq; lia).
  replace (ncols in2 =? 0) with false by (symmetry; apply Nat.eqb_neq; lia).
  reflexivity.
Qed.

Lemma convolve_empty_kernel (in1 in2 : array2 F) :
  nrows in2 = 0 \/ ncols in2 = 0 -> convolve in1 in2 = Raise ValueError.
Proof.
  intros [H0 | H0]; unfold convolve; rewrite H0; cbn [Nat.eqb orb];
    [reflexivity | rewrite orb_true_r; reflexivity].
Qed.

Lemma masked_convolution_closed_form (field kernel : array2 F) :
  wf field -> 0 < nrows kernel -> 0 < ncols kernel ->
  _masked_convolution field kernel = Ok (masked_quotient field kernel).
Proof.
  intros Hwf Hkr Hkc. unfold wf in Hwf.
  unfold _masked_convolution, setitem_mask_scalar.
  rewrite same_shape_refl by reflexivity.
  rewrite !convolve_ok by assumption.
  cbn [mbind result_bind np_copy np_invert np_isfinite nrows ncols data].
  rewrite zero_fill_data. fold (zero_fill field). fold (np_isfinite field).
  set (mask := np_isfinite field).
  set (N := nrows field * ncols field).
  assert (Hm : length (data mask) = N)
    by (unfold mask; cbn [np_isfinite data]; rewrite length_map; exact Hwf).
  pose proof (convolve_length (zero_fill field) kernel) as Hc1.
  pose proof (convolve_length (finite_mask field) kernel) as Hc2.
  cbn [zero_fill finite_mask nrows ncols] in Hc1, Hc2. fold N in Hc1, Hc2.
  replace (astype_float mask) with (finite_mask field)
    by (symmetry; apply astype_float_isfinite).
  rewrite convolve_ok by assumption. cbn [mbind result_bind].
  rewrite (getitem_mask_ok (convolve_same (zero_fill field) kernel) mask) by reflexivity.
  cbn [mbind result_bind].
  rewrite setitem_mask_ok by (try reflexivity; rewrite gather_length; lia).
  cbn [mbind result_bind].
  rewrite getitem_mask_ok by reflexivity. cbn [mbind result_bind nrows ncols data].
  rewrite getitem_mask_ok by reflexivity. cbn [mbind result_bind nrows ncols data].
  cbn [np_mul_scalar np_ones nrows ncols data zero_fill]. fold N.
  rewrite map_repeat.
  rewrite gather_scatter_gather by (rewrite ?repeat_length; lia).
  rewrite np_div1_ok by (rewrite !gather_length; lia).
  cbn [mbind result_bind].
  rewrite gather_zip_with.
  rewrite setitem_mask_ok
    by (try reflexivity; cbn [data]; rewrite gather_length;
        rewrite ?length_zip_with; lia).
  cbn [mbind result_bind mret result_ret nrows ncols data].
  rewrite !scatter_gather
    by (rewrite ?scatter_length, ?length_zip_with, ?repeat_length; lia).
  rewrite select_select by lia.
  reflexivity.
Qed.

Lemma nth_zip_with_div (u v : list F) (k : nat) :
  k < length u -> k < length v ->
  nth k (zip_with fdiv u v) fnan = fdiv (nth k u fnan) (nth k v fnan).
Proof.
  revert v k; induction u as [|x u IH]; intros [|y v] [|k]; simpl; try lia; auto.
  intros Hu Hv. apply IH; lia.
Qed.

Lemma nth_map_isfinite (d : list F) (k : nat) :
  k < length d -> nth k (map fisfinite d) false = fisfinite (nth k d fnan).
Proof.
  intros Hk. rewrite (nth_indep _ false (fisfinite fnan)) by (rewrite length_map; exact Hk).
  apply map_nth.
Qed.

Lemma get_masked_quotient (field kernel : array2 F) (i j : nat) :
  wf field -> i < nrows field -> j < ncols field ->
  get (masked_quotient field kernel) i j
  = if fisfinite (get field i j)
    then fdiv (get (convolve_same (zero_fill field) kernel) i j)
              (get (convolve_same (finite_mask field) kernel) i j)
    else fmul fone fnan.
Proof.
  intros Hwf Hi Hj. unfold wf in Hwf.
  pose proof (position_in_range _ _ _ _ Hi Hj) as Hk.
  pose proof (convolve_length (zero_fill field) kernel) as Hc1.
  pose proof (convolve_length (finite_mask field) kernel) as Hc2.
  cbn [zero_fill finite_mask nrows ncols] in Hc1, Hc2.
  unfold get, masked_quotient. cbn [nrows ncols data zero_fill finite_mask convolve_same].
  rewrite nth_select
    by (rewrite ?length_zip_with, ?length_map, ?repeat_length, ?length_seq; lia).
  rewrite nth_map_isfinite by lia.
  rewrite nth_zip_with_div by (rewrite ?length_map, ?length_seq; lia).
  rewrite nth_repeat_lt by lia. reflexivity.
Qed.

(** On a field without missing values, zeroing changes nothing and
    the finiteness mask is all ones. *)
Lemma zero_fill_all_finite (field : array2 F) :
  all_finite field -> zero_fill field = np_copy field.
Proof.
  unfold all_finite, zero_fill, np_copy. intros Hf. f_equal.
  induction Hf as [|x d Hx Hd IH]; simpl; [reflexivity|].
  rewrite Hx, IH. reflexivity.
Qed.

Lemma finite_mask_all_finite (field : array2 F) :
  wf field -> all_finite field ->
  finite_mask field = np_ones (nrows field) (ncols field).
Proof.
  unfold wf, all_finite, finite_mask, np_ones. intros Hwf Hf. f_equal.
  rewrite <- Hwf. clear Hwf.
  induction Hf as [|x d Hx Hd IH]; simpl; [reflexivity|].
  rewrite Hx, IH. reflexivity.
Qed.

Lemma convolve_np_copy (field kernel : array2 F) :
  convolve_same (np_copy field) kernel = convolve_same field kernel.
Proof. reflexivity. Qed.

(** On a kernel without rows or without columns the first
    convolution raises, and so does [_masked_convolution]. *)
Lemma masked_convolution_empty_kernel (field kernel : array2 F) :
  nrows kernel = 0 \/ ncols kernel = 0 ->
  _masked_convolution field kernel = Raise ValueError.
Proof.
  intros Hk. unfold _masked_convolution, setitem_mask_scalar.
  rewrite same_shape_refl by reflexivity.
  cbn [mbind result_bind]. rewrite !convolve_empty_kernel by exact Hk.
  reflexivity.
Qed.

(** C3.  For every well-shaped 2-D field and every kernel that has at
    least one row and one column, [_masked_convolution] returns a field
    of the same shape; a position that holds a non-finite value in the
    input holds a non-finite value in the output, and at a position
    that holds a finite value the output is the convolution of the
    zero-filled field divided by the convolution of the 0/1 finiteness
    mask. *)
Theorem masked_convolution_spec (field kernel : array2 F) :
  wf field -> 0 < nrows kernel -> 0 < ncols kernel ->
  exists out,
    _masked_convolution field kernel = Ok out /\
    nrows out = nrows field /\ ncols out = ncols field /\ wf out /\
    forall i j, i < nrows field -> j < ncols field ->
      (fisfinite (get field i j) = false -> fisfinite (get out i j) = false) /\
      (fisfinite (get field i j) = true ->
       get out i j = fdiv (get (convolve_same (zero_fill field) kernel) i j)
                          (get (convolve_same (finite_mask field) kernel) i j)).
Proof.
  intros Hwf Hkr Hkc. exists (masked_quotient field kernel).
  split; [apply masked_convolution_closed_form; assumption|].
  split; [reflexivity|]. split; [reflexivity|]. split.
  - unfold wf, masked_quotient. cbn [nrows ncols data].
    pose proof (convolve_length (zero_fill field) kernel) as Hc1.
    pose proof (convolve_length (finite_mask field) kernel) as Hc2.
    cbn [zero_fill finite_mask nrows ncols] in Hc1, Hc2. unfold wf in Hwf.
    rewrite length_zip_with, length_zip, length_map, length_zip_with, repeat_length.
    lia.
  - intros i j Hi Hj. rewrite get_masked_quotient by assumption.
    split; intros Hfin; rewrite Hfin; [apply fisfinite_one_nan | reflexivity].
Qed.

(** C4, as the code has it.  On a well-shaped field without missing
    values and with a kernel that has at least one row and one column,
    [_masked_convolution] returns at every position the plain
    zero-padded same-size convolution of the field divided by the same
    convolution of the all-ones field, that is by the mass of the
    kernel that falls inside the grid. *)
Theorem masked_convolution_no_missing (field kernel : array2 F) :
  wf field -> all_finite field -> 0 < nrows kernel -> 0 < ncols kernel ->
  exists out,
    _masked_convolution field kernel = Ok out /\
    forall i j, i < nrows field -> j < ncols field ->
      get out i j = fdiv (get (convolve_same field kernel) i j)
                         (get (convolve_same (np_ones (nrows field) (ncols field)) kernel) i j).
Proof.
  intros Hwf Hfin Hkr Hkc. exists (masked_quotient field kernel).
  split; [apply masked_convolution_closed_form; assumption|].
  intros i j Hi Hj. rewrite get_masked_quotient by assumption.
  rewrite zero_fill_all_finite, finite_mask_all_finite, convolve_np_copy by assumption.
  assert (Hx : fisfinite (get field i j) = true).
  { unfold get. unfold all_finite in Hfin. rewrite Forall_forall in Hfin.
    apply Hfin. apply list_elem_of_In, nth_In. unfold wf in Hwf. rewrite Hwf.
    apply position_in_range; assumption. }
  rewrite Hx. reflexivity.
Qed.

End MaskedConvolutionProps.

(** ** The same on binary64 data *)

(** A field with a gap, a field of ones, and a normalised kernel. *)
Definition gappy : array2 float :=
  Array2 2 2 [2; PrimFloat.nan; 2; 2]%float.
Definition ones3 : array2 float :=
  Array2 3 3 [1; 1; 1; 1; 1; 1; 1; 1; 1]%float.
Definition cross3 : array2 float :=
  Array2 3 3 [0; 0.125; 0; 0.125; 0.5; 0.125; 0; 0.125; 0]%float.

(** The gap stays a gap, and its neighbours are averaged without it. *)
Example masked_convolution_gappy :
  _masked_convolution gappy cross3
  = Ok (Array2 2 2 [2; PrimFloat.nan; 2; 2]%float).
Proof. vm_compute. reflexivity. Qed.

(** Without renormalisation the corner would lose the mass of the
    kernel that falls outside the grid. *)
Example convolve_ones3 :
  convolve_same ones3 cross3
  = Array2 3 3 [0.75; 0.875; 0.75; 0.875; 1; 0.875; 0.75; 0.875; 0.75]%float.
Proof. vm_compute. reflexivity. Qed.

Example masked_convolution_ones3 :
  _masked_convolution ones3 cross3 = Ok ones3.
Proof. vm_compute. reflexivity. Qed.

Lemma masked_convolution_spec_witness :
  wf gappy /\ 0 < nrows cross3 /\ 0 < ncols cross3 /\
  exists out,
    _masked_convolution gappy cross3 = Ok out /\
    nrows out = nrows gappy /\ ncols out = ncols gappy /\ wf out /\
    forall i j, i < nrows gappy -> j < ncols gappy ->
      (fisfinite (get gappy i j) = false -> fisfinite (get out i j) = false) /\
      (fisfinite (get gappy i j) = true ->
       get out i j = fdiv (get (convolve_same (zero_fill gappy) cross3) i j)
                          (get (convolve_same (finite_mask gappy) cross3) i j)).
Proof.
  split; [reflexivity|]. split; [cbn; lia|]. split; [cbn; lia|].
  apply (masked_convolution_spec gappy cross3); [reflexivity | cbn; lia | cbn; lia].
Defined.

Lemma ones3_all_finite : all_finite ones3.
Proof. unfold all_finite, ones3. cbn [data]. repeat constructor. Qed.

Lemma masked_convolution_no_missing_witness :
  wf ones3 /\ all_finite ones3 /\ 0 < nrows cross3 /\ 0 < ncols cross3 /\
  exists out,
    _masked_convolution ones3 cross3 = Ok out /\
    forall i j, i < nrows ones3 -> j < ncols ones3 ->
      get out i j = fdiv (get (convolve_same ones3 cross3) i j)
                         (get (convolve_same (np_ones (nrows ones3) (ncols ones3)) cross3) i j).
Proof.
  split; [reflexivity|]. split; [exact ones3_all_finite|].
  split; [cbn; lia|]. split; [cbn; lia|].
  apply (masked_convolution_no_missing ones3 cross3);
    [reflexivity | exact ones3_all_finite | cbn; lia | cbn; lia].
Defined.

(** C4 as stated fails: on the all-ones 3x3 field the masked
    convolution returns 1 in the corner where the plain zero-padded
    convolution gives 0.75. *)
Lemma masked_convolution_not_plain :
  wf ones3 /\ all_finite ones3 /\
  exists out,
    _masked_convolution ones3 cross3 = Ok out /\
    get out 0 0 = 1%float /\
    get (convolve_same ones3 cross3) 0 0 = 0.75%float /\
    get out 0 0 <> get (convolve_same ones3 cross3) 0 0.
Proof.
  split; [reflexivity|]. split; [exact ones3_all_finite|].
  exists ones3. split; [vm_compute; reflexivity|].
  split; [reflexivity|]. split; [vm_compute; reflexivity|].
  intros Heq. apply (f_equal (PrimFloat.eqb 1)) in Heq.
  vm_compute in Heq. discriminate Heq.
Qed.

(** ** The store model: what [_masked_convolution] touches *)

Section StoreProps.
Context {F : Type} `{FloatOps F}.

Local Abbreviation heap := (gmap Store.loc (Store.cell (F:=F))).
Local Abbreviation heapM := (Store.heapM (F:=F)).

(** [wp m h Q]: from the store [h], [m] returns normally with a value
    and a store that satisfy [Q]. *)
Definition wp {A} (m : heapM A) (h : heap)
  (Q : A -> heap -> Prop) : Prop :=
  exists a h', m h = Ok (a, h') /\ Q a h'.

Lemma wp_bind {A B} (m : heapM A) (f : A -> heapM B) h Q :
  wp m h (fun a h' => wp (f a) h' Q) -> wp (m ≫= f) h Q.
Proof.
  intros (a & h' & Hm & b & h'' & Hf & HQ). exists b, h''. split; [|exact HQ].
  unfold mbind, Store.heapM_bind, Store.bind. rewrite Hm. exact Hf.
Qed.

Lemma wp_ret {A} (a : A) h (Q : A -> heap -> Prop) :
  Q a h -> wp (mret a) h Q.
Proof. intros HQ. exists a, h. split; [reflexivity | exact HQ]. Qed.

Lemma wp_lift {A} (r : result A) (a : A) h Q :
  r = Ok a -> Q a h -> wp (Store.lift r) h Q.
Proof. intros -> HQ. exists a, h. split; [reflexivity | exact HQ]. Qed.

Lemma wp_alloc (c : Store.cell) h Q :
  (forall l, h !! l = None -> Q l (<[l := c]> h)) -> wp (Store.alloc c) h Q.
Proof.
  intros HQ. exists (fresh (dom h)), (<[fresh (dom h) := c]> h).
  split; [reflexivity|]. apply HQ. apply not_elem_of_dom, is_fresh.
Qed.

Lemma wp_read_float l (a : array2 F) h Q :
  h !! l = Some (Store.CFloat a) -> Q a h -> wp (Store.read_float l) h Q.
Proof.
  intros Hl HQ. exists a, h. split; [|exact HQ].
  unfold Store.read_float. rewrite Hl. reflexivity.
Qed.

Lemma wp_read_bool l (m : array2 bool) h (Q : array2 bool -> heap -> Prop) :
  h !! l = Some (Store.CBool m) -> Q m h -> wp (Store.read_bool l) h Q.
Proof.
  intros Hl HQ. exists m, h. split; [|exact HQ].
  unfold Store.read_bool. rewrite Hl. reflexivity.
Qed.

Lemma wp_write l (c : Store.cell) h Q :
  Q tt (<[l := c]> h) -> wp (Store.write l c) h Q.
Proof. intros HQ. exists tt, (<[l := c]> h). split; [reflexivity | exact HQ]. Qed.

Lemma lookup_insert_other (h : heap) l l' c c' :
  h !! l = None -> h !! l' = Some c' -> <[l := c]> h !! l' = Some c'.
Proof.
  intros Hl Hl'. rewrite lookup_insert_ne; [exact Hl'|].
  intros ->. rewrite Hl in Hl'. discriminate.
Qed.

Lemma fresh_ne (h : heap) l x c :
  h !! l = None -> h !! x = Some c -> l <> x /\ x <> l.
Proof. intros Hl Hx. split; intros ->; rewrite Hl in Hx; discriminate. Qed.

Ltac heap_lookup :=
  repeat first
    [ apply lookup_insert_eq
    | rewrite lookup_insert_ne by assumption
    | match goal with |- ?h0 !! _ = _ => is_var h0; unfold h0 end ];
  try eassumption;
  try (eapply lookup_weaken; [eassumption | eassumption]).

Lemma wp_convolve_getitem la lk lmask (a k : array2 F) (m : array2 bool) h Q :
  h !! la = Some (Store.CFloat a) -> h !! lk = Some (Store.CFloat k) ->
  h !! lmask = Some (Store.CBool m) ->
  nrows a = nrows m -> ncols a = ncols m ->
  0 < nrows k -> 0 < ncols k ->
  (forall lc, h !! lc = None ->
     Q (gather (data m) (data (convolve_same a k))) (<[lc := Store.CFloat (convolve_same a k)]> h)) ->
  wp (Store.convolve_getitem la lk lmask) h Q.
Proof.
  intros Ha Hk Hm Hr Hc Hkr Hkc HQ. unfold Store.convolve_getitem.
  apply wp_bind, (wp_read_float _ a); [exact Ha|].
  apply wp_bind, (wp_read_float _ k); [exact Hk|].
  eapply wp_bind, wp_lift; [apply convolve_ok; assumption|].
  apply wp_bind, wp_alloc. intros lc Hlc.
  apply wp_bind, (wp_read_float _ (convolve_same a k)); [apply lookup_insert_eq|].
  apply wp_bind, (wp_read_bool _ m); [eapply lookup_insert_other; eassumption|].
  eapply wp_lift; [apply getitem_mask_ok; assumption|].
  apply HQ, Hlc.
Qed.

Lemma wp_setitem lt lm (t : array2 F) (m : array2 bool) (v : list F) h Q :
  h !! lt = Some (Store.CFloat t) -> h !! lm = Some (Store.CBool m) ->
  nrows t = nrows m -> ncols t = ncols m -> length v = count_true (data m) ->
  Q tt (<[lt := Store.CFloat (Array2 (nrows t) (ncols t) (scatter (data m) (data t) v))]> h) ->
  wp (Store.setitem lt lm v) h Q.
Proof.
  intros Ht Hm Hr Hc Hv HQ. unfold Store.setitem.
  apply wp_bind, (wp_read_float _ t); [exact Ht|].
  apply wp_bind, (wp_read_bool _ m); [exact Hm|].
  eapply wp_bind, wp_lift; [apply setitem_mask_ok; assumption|].
  apply wp_write, HQ.
Qed.

(** C10.  [_masked_convolution] leaves its arguments alone: run from any
    store in which [field] is bound to a well-shaped array and [kernel]
    to an array with at least one row and one column, it returns
    normally, the arrays of [field] and [kernel] (and every other array
    of the caller) are the same afterwards, and the result is bound to
    a location that did not exist before the call and holds the value
    of the pure function. *)
Theorem masked_convolution_frame (h : heap) (lf lk : Store.loc)
  (field kernel : array2 F) :
  h !! lf = Some (Store.CFloat field) ->
  h !! lk = Some (Store.CFloat kernel) ->
  wf field -> 0 < nrows kernel -> 0 < ncols kernel ->
  exists lout h' out,
    Store._masked_convolution lf lk h = Ok (lout, h') /\
    h' !! lf = Some (Store.CFloat field) /\
    h' !! lk = Some (Store.CFloat kernel) /\
    (forall l c, h !! l = Some c -> h' !! l = Some c) /\
    h !! lout = None /\
    h' !! lout = Some (Store.CFloat out) /\
    _masked_convolution field kernel = Ok out.
Proof.
  intros Hf Hk Hwf Hkr Hkc.
  cut (wp (Store._masked_convolution lf lk) h
         (fun lout h' =>
            (forall l c, h !! l = Some c -> h' !! l = Some c) /\
            h !! lout = None /\
            h' !! lout = Some (Store.CFloat (masked_quotient field kernel)))).
  { intros (lout & h' & Hrun & Hframe & Hfresh & Hout).
    exists lout, h', (masked_quotient field kernel).
    repeat split; auto using masked_convolution_closed_form. }
  unfold wf in Hwf.
  set (mask := np_isfinite field).
  pose proof (convolve_length (zero_fill field) kernel) as Hc1.
  pose proof (convolve_length (finite_mask field) kernel) as Hc2.
  cbn [zero_fill finite_mask nrows ncols] in Hc1, Hc2.
  assert (Hm : length (data mask) = nrows field * ncols field)
    by (unfold mask; cbn [np_isfinite data]; rewrite length_map; exact Hwf).
  (* the values the run computes, and what is known of their sizes *)
  set (c1 := convolve_same (zero_fill field) kernel) in *.
  set (c2 := convolve_same (finite_mask field) kernel) in *.
  set (nans := np_mul_scalar (np_ones (nrows field) (ncols field)) fnan).
  assert (Hn : length (data nans) = nrows field * ncols field).
  { unfold nans. cbn [np_mul_scalar np_ones data]. rewrite length_map, repeat_length. reflexivity. }
  set (fc1 := Array2 (nrows nans) (ncols nans)
                (scatter (data mask) (data nans) (gather (data mask) (data c1)))).
  assert (Hg1 : length (gather (data mask) (data c1)) = count_true (data mask))
    by (apply gather_length; lia).
  assert (Hgf : length (gather (data mask) (data fc1)) = count_true (data mask))
    by (apply gather_length; unfold fc1; cbn [data]; rewrite scatter_length; lia).
  assert (Hg2 : length (gather (data mask) (data c2)) = count_true (data mask))
    by (apply gather_length; lia).
  assert (Hdiv : np_div1 (gather (data mask) (data fc1)) (gather (data mask) (data c2))
                 = Ok (zip_with fdiv (gather (data mask) (data fc1))
                         (gather (data mask) (data c2))))
    by (apply np_div1_ok; rewrite Hgf, Hg2; reflexivity).
  assert (Hq : length (zip_with fdiv (gather (data mask) (data fc1))
                         (gather (data mask) (data c2))) = count_true (data mask))
    by (rewrite length_zip_with, Hgf, Hg2; apply Nat.min_id).
  assert (Hfinal : Array2 (nrows fc1) (ncols fc1)
                     (scatter (data mask) (data fc1)
                        (zip_with fdiv (gather (data mask) (data fc1))
                           (gather (data mask) (data c2))))
                   = masked_quotient field kernel).
  { unfold masked_quotient, fc1. cbn [nrows ncols data nans np_mul_scalar np_ones].
    f_equal. rewrite map_repeat.
    rewrite masked_data_closed_form by (rewrite ?repeat_length; lia).
    reflexivity. }
  unfold Store._masked_convolution.
  (* mask = np.isfinite(field) *)
  apply wp_bind, (wp_read_float _ field); [exact Hf|].
  apply wp_bind, wp_alloc. intros l1 Hl1. fold mask.
  set (h1 := <[l1 := Store.CBool mask]> h).
  assert (Hs1 : h ⊆ h1) by (apply insert_subseteq; exact Hl1).
  (* field = field.copy() *)
  apply wp_bind, (wp_read_float _ field); [heap_lookup|].
  apply wp_bind, wp_alloc. intros l2 Hl2.
  set (h2 := <[l2 := Store.CFloat (np_copy field)]> h1).
  assert (Hs2 : h ⊆ h2) by (etrans; [exact Hs1 | apply insert_subseteq; exact Hl2]).
  assert (l2 <> l1 /\ l1 <> l2) as [H21 H12] by (eapply fresh_ne; [exact Hl2 | heap_lookup]).
  (* field[~mask] = 0.0 *)
  apply wp_bind, (wp_read_bool _ mask); [heap_lookup|].
  apply wp_bind, wp_alloc. intros l3 Hl3.
  set (h3 := <[l3 := Store.CBool (np_invert mask)]> h2).
  assert (Hs3 : h ⊆ h3) by (etrans; [exact Hs2 | apply insert_subseteq; exact Hl3]).
  assert (l3 <> l1 /\ l1 <> l3) as [H31 H13] by (eapply fresh_ne; [exact Hl3 | heap_lookup]).
  assert (l3 <> l2 /\ l2 <> l3) as [H32 H23] by (eapply fresh_ne; [exact Hl3 | heap_lookup]).
  apply wp_bind, (wp_read_float _ (np_copy field)); [heap_lookup|].
  apply wp_bind, (wp_read_bool _ (np_invert mask)); [heap_lookup|].
  eapply wp_bind, wp_lift.
  { unfold setitem_mask_scalar. rewrite same_shape_refl by reflexivity.
    cbn [np_copy np_invert mask np_isfinite nrows ncols data].
    rewrite zero_fill_data. fold (zero_fill field). reflexivity. }
  apply wp_bind, wp_write.
  set (h4 := <[l2 := Store.CFloat (zero_fill field)]> h3).
  assert (Hs4 : h ⊆ h4).
  { apply insert_subseteq_r; [|exact Hs3].
    eapply lookup_weaken_None; [exact Hl2 | exact Hs1]. }
  (* field_c = np.ones(field.shape) * np.nan *)
  apply wp_bind, (wp_read_float _ (zero_fill field)); [heap_lookup|].
  apply wp_bind, wp_alloc. intros l5 Hl5.
  cbn [zero_fill nrows ncols].
  set (h5 := <[l5 := Store.CFloat (np_ones (nrows field) (ncols field))]> h4).
  assert (Hs5 : h ⊆ h5) by (etrans; [exact Hs4 | apply insert_subseteq; exact Hl5]).
  assert (l5 <> l1 /\ l1 <> l5) as [H51 H15] by (eapply fresh_ne; [exact Hl5 | heap_lookup]).
  assert (l5 <> l2 /\ l2 <> l5) as [H52 H25] by (eapply fresh_ne; [exact Hl5 | heap_lookup]).
  apply wp_bind, (wp_read_float _ (np_ones (nrows field) (ncols field))); [heap_lookup|].
  apply wp_bind, wp_alloc. intros l6 Hl6.
  set (h6 := <[l6 := Store.CFloat nans]> h5).
  assert (Hs6 : h ⊆ h6) by (etrans; [exact Hs5 | apply insert_subseteq; exact Hl6]).
  assert (l6 <> l1 /\ l1 <> l6) as [H61 H16] by (eapply fresh_ne; [exact Hl6 | heap_lookup]).
  assert (l6 <> l2 /\ l2 <> l6) as [H62 H26] by (eapply fresh_ne; [exact Hl6 | heap_lookup]).
  assert (Hl6h : h !! l6 = None) by (eapply lookup_weaken_None; [exact Hl6 | exact Hs5]).
  (* field_c[mask] = convolve(field, kernel, mode="same")[mask] *)
  eapply wp_bind, (wp_convolve_getitem _ _ _ (zero_fill field) kernel mask);
    [heap_lookup | heap_lookup | heap_lookup | reflexivity | reflexivity
    | exact Hkr | exact Hkc |].
  intros l7 Hl7.
  set (h7 := <[l7 := Store.CFloat (convolve_same (zero_fill field) kernel)]> h6).
  assert (Hs7 : h ⊆ h7) by (etrans; [exact Hs6 | apply insert_subseteq; exact Hl7]).
  assert (l7 <> l1 /\ l1 <> l7) as [H71 H17] by (eapply fresh_ne; [exact Hl7 | heap_lookup]).
  assert (l7 <> l6 /\ l6 <> l7) as [H76 H67] by (eapply fresh_ne; [exact Hl7 | heap_lookup]).
  eapply wp_bind, (wp_setitem _ _ nans mask);
    [heap_lookup | heap_lookup | reflexivity | reflexivity
    | exact Hg1 |].
  set (h8 := <[l6 := Store.CFloat fc1]> h7).
  assert (Hs8 : h ⊆ h8) by (apply insert_subseteq_r; [exact Hl6h | exact Hs7]).
  (* field_c[mask] /= convolve(mask.astype(float), kernel, mode="same")[mask] *)
  apply wp_bind, (wp_read_float _ fc1); [heap_lookup|].
  apply wp_bind, (wp_read_bool _ mask); [heap_lookup|].
  eapply wp_bind, wp_lift; [apply getitem_mask_ok; reflexivity|].
  apply wp_bind, wp_alloc. intros l9 Hl9.
  replace (astype_float mask) with (finite_mask field)
    by (symmetry; apply astype_float_isfinite).
  set (h9 := <[l9 := Store.CFloat (finite_mask field)]> h8).
  assert (Hs9 : h ⊆ h9) by (etrans; [exact Hs8 | apply insert_subseteq; exact Hl9]).
  assert (l9 <> l1 /\ l1 <> l9) as [H91 H19] by (eapply fresh_ne; [exact Hl9 | heap_lookup]).
  assert (l9 <> l6 /\ l6 <> l9) as [H96 H69] by (eapply fresh_ne; [exact Hl9 | heap_lookup]).
  eapply wp_bind, (wp_convolve_getitem _ _ _ (finite_mask field) kernel mask);
    [heap_lookup | heap_lookup | heap_lookup | reflexivity | reflexivity
    | exact Hkr | exact Hkc |].
  intros l10 Hl10.
  set (h10 := <[l10 := Store.CFloat (convolve_same (finite_mask field) kernel)]> h9).
  assert (Hs10 : h ⊆ h10) by (etrans; [exact Hs9 | apply insert_subseteq; exact Hl10]).
  assert (l10 <> l1 /\ l1 <> l10) as [H101 H110] by (eapply fresh_ne; [exact Hl10 | heap_lookup]).
  assert (l10 <> l6 /\ l6 <> l10) as [H106 H610] by (eapply fresh_ne; [exact Hl10 | heap_lookup]).
  eapply wp_bind, wp_lift; [exact Hdiv|].
  eapply wp_bind, (wp_setitem _ _ fc1 mask);
    [heap_lookup | heap_lookup | reflexivity | reflexivity | exact Hq |].
  apply wp_ret. split; [|split].
  - intros l c Hl. eapply lookup_weaken; [exact Hl|].
    apply insert_subseteq_r; [exact Hl6h | exact Hs10].
  - exact Hl6h.
  - rewrite lookup_insert_eq, Hfinal. reflexivity.
Qed.

End StoreProps.

(** A caller's store: the field at location 0, the kernel at location 1. *)
Definition caller_store : gmap Store.loc (Store.cell (F:=float)) :=
  <[0 := Store.CFloat gappy]> (<[1 := Store.CFloat cross3]> ∅).

Example masked_convolution_store_run :
  exists lout h',
    Store._masked_convolution 0 1 caller_store = Ok (lout, h') /\
    h' !! 0 = Some (Store.CFloat gappy) /\
    h' !! lout = Some (Store.CFloat (Array2 2 2 [2; PrimFloat.nan; 2; 2]%float)).
Proof. eexists _, _. split; [vm_compute; reflexivity|]. split; vm_compute; reflexivity. Qed.

Lemma masked_convolution_frame_witness :
  caller_store !! 0 = Some (Store.CFloat gappy) /\
  caller_store !! 1 = Some (Store.CFloat cross3) /\
  wf gappy /\ 0 < nrows cross3 /\ 0 < ncols cross3 /\
  exists lout h' out,
    Store._masked_convolution 0 1 caller_store = Ok (lout, h') /\
    h' !! 0 = Some (Store.CFloat gappy) /\
    h' !! 1 = Some (Store.CFloat cross3) /\
    (forall l c, caller_store !! l = Some c -> h' !! l = Some c) /\
    caller_store !! lout = None /\
    h' !! lout = Some (Store.CFloat out) /\
    _masked_convolution gappy cross3 = Ok out.
Proof.
  split; [reflexivity|]. split; [reflexivity|]. split; [reflexivity|].
  split; [cbn; lia|]. split; [cbn; lia|].
  apply (masked_convolution_frame caller_store 0 1 gappy cross3);
    [reflexivity | reflexivity | reflexivity | cbn; lia | cbn; lia].
Defined.

(** ** The entry point and the kernel fitter *)

(** C1, on the code.  In the namespace of the module the first line of
    [forecast] raises NameError, whatever the arguments; and in any
    namespace, a call that does not raise returns [None], never an
    array. *)
Theorem forecast_returns_no_array :
  (forall shape num_timesteps ari_order add_perturbations num_ens_members
          kernel_type interp_window_radius num_workers,
     forecast linda_globals shape num_timesteps ari_order add_perturbations
       num_ens_members kernel_type interp_window_radius num_workers
     = Raise (NameError "num_features")) /\
  (forall globals shape num_timesteps ari_order add_perturbations num_ens_members
          kernel_type interp_window_radius num_workers v,
     forecast globals shape num_timesteps ari_order add_perturbations
       num_ens_members kernel_type interp_window_radius num_workers
     = Ok v -> v = PyNone).
Proof.
  split; [reflexivity|].
  intros globals shape nt ao ap ne kt iw nw v. unfold forecast.
  repeat match goal with
    | |- context [mbind _ ?m] =>
        destruct m; cbn [mbind result_bind]; try discriminate
    end.
  cbn [mret result_ret]. intros [= <-]. reflexivity.
Qed.

Section FitterProps.
Variable minimize_scalar_bounded :
  (xreal -> result objective_value) -> xreal * xreal -> result xreal.
Variable minimize_trust_constr :
  (list xreal -> result objective_value) -> list xreal ->
  list (xreal * xreal) ->
  list (list xreal) * list xreal * list xreal * bool ->
  result (list xreal).
Variable minimize_lbfgsb :
  (list xreal -> result objective_value) -> list xreal ->
  list (xreal * xreal) -> result (list xreal).
Variable least_squares_trf :
  (list xreal -> result objective_value) -> list xreal ->
  list xreal * list xreal -> result (list xreal).

(** C5, on the code.  For the isotropic family the fitter hands the
    fitted scalar to [_compute_kernel_anisotropic], which cannot index
    it: whatever the fields and whatever the optimiser returns, the
    call raises and no kernel is returned. *)
Theorem optimize_convol_params_isotropic_raises
  (field_src field_dst weights : array2 xreal) (mask : array2 bool)
  (cutoff : xreal) (method : method) :
  exists e,
    _optimize_convol_params minimize_scalar_bounded minimize_lbfgsb
      least_squares_trf field_src field_dst weights mask isotropic cutoff method
    = Raise e.
Proof.
  unfold _optimize_convol_params.
  destruct (np_map2 _ mask weights) as [mask'|e]; cbn [mbind result_bind]; [|eauto].
  match goal with |- context [minimize_scalar_bounded ?f ?b] =>
    destruct (minimize_scalar_bounded f b) as [sigma|e] end;
    cbn [mbind result_bind mret result_ret _compute_kernel_anisotropic]; eauto.
Qed.

(** The sibling path: for the anisotropic family the fitter returns the
    kernel that [_compute_kernel_anisotropic] builds from the converted
    winning parameters. *)
Lemma optimize_convol_params_anisotropic
  (field_src field_dst weights : array2 xreal) (mask : array2 bool)
  (cutoff : xreal) (K : array2 xreal) :
  _optimize_convol_params minimize_scalar_bounded minimize_lbfgsb
    least_squares_trf field_src field_dst weights mask anisotropic cutoff trf
  = Ok K ->
  exists x q,
    _get_anisotropic_kernel_params x = Ok q /\
    _compute_kernel_anisotropic q cutoff = Ok K.
Proof.
  unfold _optimize_convol_params.
  destruct (np_map2 _ mask weights) as [mask'|e]; cbn [mbind result_bind]; [|discriminate].
  match goal with |- context [least_squares_trf ?f ?x0 ?b] =>
    destruct (least_squares_trf f x0 b) as [x|e] end;
    cbn [mbind result_bind]; [|discriminate].
  destruct (_get_anisotropic_kernel_params x) as [q|e] eqn:Hq;
    cbn [mbind result_bind]; [|discriminate].
  intros HK. exists x, q. split; [exact Hq | exact HK].
Qed.

End FitterProps.

(** ** The idealised arithmetic on finite values *)

Section XrealLemmas.
Local Open Scope R_scope.

Lemma Rltb_true (a b : R) : a < b -> Rltb a b = true.
Proof. intros Hab. unfold Rltb. destruct (Rlt_dec a b); [reflexivity | contradiction]. Qed.

Lemma Rltb_false (a b : R) : b <= a -> Rltb a b = false.
Proof. intros Hab. unfold Rltb. destruct (Rlt_dec a b); [lra | reflexivity]. Qed.

Lemma Reqb_true (a b : R) : a = b -> Reqb a b = true.
Proof. intros Hab. unfold Reqb. destruct (Req_dec_T a b); [reflexivity | contradiction]. Qed.

Lemma Reqb_false (a b : R) : a <> b -> Reqb a b = false.
Proof. intros Hab. unfold Reqb. destruct (Req_dec_T a b); [contradiction | reflexivity]. Qed.

Lemma xdiv_fin (a b : R) : b <> 0 -> xdiv (Fin a) (Fin b) = Fin (a / b).
Proof. intros Hb. unfold xdiv. rewrite Reqb_false by exact Hb. reflexivity. Qed.

Lemma inf_of_sign_pos (r : R) : 0 < r -> inf_of_sign r = PInf.
Proof. intros Hr. unfold inf_of_sign. rewrite Rltb_true by exact Hr. reflexivity. Qed.

Lemma inf_of_sign_neg (r : R) : r < 0 -> inf_of_sign r = NInf.
Proof.
  intros Hr. unfold inf_of_sign.
  rewrite Rltb_false by lra. rewrite Rltb_true by exact Hr. reflexivity.
Qed.

(** [arctan(n / d)] in the program's arithmetic, also when [d] is zero:
    an angle whose sine and cosine are in the ratio [n : d]. *)
Lemma arctan_div_spec (n d : R) :
  n <> 0 \/ d <> 0 ->
  exists alpha, xarctan (xdiv (Fin n) (Fin d)) = Fin alpha /\
                sin alpha * d = cos alpha * n.
Proof.
  intros Hnd. destruct (Req_dec_T d 0) as [Hd|Hd].
  - subst d. assert (Hn : n <> 0) by (destruct Hnd; [assumption | contradiction]).
    unfold xdiv. rewrite Reqb_true by reflexivity.
    destruct (Rlt_dec 0 n) as [Hpos|Hneg].
    + rewrite inf_of_sign_pos by exact Hpos. exists (PI / 2). split; [reflexivity|].
      rewrite cos_PI2. ring.
    + rewrite inf_of_sign_neg by lra. exists (- (PI / 2)). split; [reflexivity|].
      rewrite cos_neg, cos_PI2. ring.
  - rewrite xdiv_fin by exact Hd. exists (atan (n / d)). split; [reflexivity|].
    pose proof (tan_atan (n / d)) as Ht. unfold tan in Ht.
    assert (Hc : cos (atan (n / d)) <> 0).
    { pose proof (atan_bound (n / d)) as [Hlo Hhi].
      apply Rgt_not_eq, cos_gt_0; lra. }
    apply (f_equal (fun v => v * cos (atan (n / d)) * d)) in Ht.
    field_simplify in Ht; [|exact Hd|exact Hc]. lra.
Qed.

End XrealLemmas.

(** ** The bounding box of the rotated ellipse *)

Section EllipseBbox.
Local Open Scope R_scope.

Definition phi_rad (p : R) : R := p / 180 * PI.

(** The window in which the function takes its direct formula. *)
Definition near_vertical (phi_r : R) : Prop :=
  Rabs (phi_r - PI / 2) <= 1 / 1000000 \/
  Rabs (phi_r - 3 * PI / 2) <= 1 / 1000000.

(** Half of the extent, along the first axis, of the ellipse with
    semi-axes [a] and [b] rotated by [phi_r]. *)
Definition ellipse_extent (a b phi_r : R) : R :=
  R_sqrt.sqrt ((a * cos phi_r) * (a * cos phi_r) + (b * sin phi_r) * (b * sin phi_r)).

Definition swap_axes (b : xreal * xreal * xreal * xreal)
  : xreal * xreal * xreal * xreal :=
  let '(y1, x1, y2, x2) := b in (x1, y1, x2, y2).

Lemma sqrt_square_abs (x y : R) : 0 <= y -> x * x = y -> Rabs x = R_sqrt.sqrt y.
Proof.
  intros Hy Hxy. rewrite <- Hxy. fold (Rsqr x). rewrite sqrt_Rsqr_abs. reflexivity.
Qed.

Lemma general_branch_true (phi_r : R) :
  ~ near_vertical phi_r ->
  xgtb (xabs (Fin phi_r - Fin PI / Fin 2)%xr) (Fin (1 / 1000000)) &&
  xgtb (xabs (Fin phi_r - Fin 3 * Fin PI / Fin 2)%xr) (Fin (1 / 1000000)) = true.
Proof.
  intros Hnv. unfold near_vertical in Hnv.
  cbn [xmul]. rewrite !xdiv_fin by lra. cbn [xsub xneg xadd xabs xmul xgtb].
  replace (phi_r + - (PI / 2)) with (phi_r - PI / 2) by ring.
  replace (phi_r + - (3 * PI / 2)) with (phi_r - 3 * PI / 2) by ring.
  rewrite !Rltb_true; [reflexivity | |];
    apply Rnot_le_lt; intros Hle; apply Hnv; [right | left]; exact Hle.
Qed.

Lemma general_branch_false (phi_r : R) :
  near_vertical phi_r ->
  xgtb (xabs (Fin phi_r - Fin PI / Fin 2)%xr) (Fin (1 / 1000000)) &&
  xgtb (xabs (Fin phi_r - Fin 3 * Fin PI / Fin 2)%xr) (Fin (1 / 1000000)) = false.
Proof.
  intros Hnv. unfold near_vertical in Hnv.
  cbn [xmul]. rewrite !xdiv_fin by lra. cbn [xsub xneg xadd xabs xmul xgtb].
  replace (phi_r + - (PI / 2)) with (phi_r - PI / 2) by ring.
  replace (phi_r + - (3 * PI / 2)) with (phi_r - 3 * PI / 2) by ring.
  destruct Hnv as [Hle|Hle].
  - rewrite (Rltb_false _ _ Hle). reflexivity.
  - rewrite (Rltb_false _ _ Hle). apply andb_false_r.
Qed.

Lemma phi_r_fin (p : R) : (Fin p / Fin 180 * Fin PI)%xr = Fin (phi_rad p).
Proof. rewrite xdiv_fin by lra. reflexivity. Qed.

(** The two extents of the general branch. *)
Lemma general_extent_w (r1 r2 phi_r : R) :
  r1 <> 0 -> r2 <> 0 ->
  exists w,
    (Fin r1 * xcos (xarctan (- Fin r2 * xsin (Fin phi_r) / (Fin r1 * xcos (Fin phi_r))))
       * xcos (Fin phi_r)
     - Fin r2 * xsin (xarctan (- Fin r2 * xsin (Fin phi_r) / (Fin r1 * xcos (Fin phi_r))))
       * xsin (Fin phi_r))%xr = Fin w /\
    Rabs w = ellipse_extent r1 r2 phi_r.
Proof.
  intros H1 H2. cbn [xsin xcos xneg xmul].
  destruct (arctan_div_spec (- r2 * sin phi_r) (r1 * cos phi_r)) as (alpha & Ha & Hrel).
  { destruct (cos_sin_0_var phi_r) as [Hc|Hs].
    - right. apply Rmult_integral_contrapositive_currified; assumption.
    - left. apply Rmult_integral_contrapositive_currified; [lra | assumption]. }
  rewrite Ha. cbn [xsin xcos xmul xsub xneg xadd].
  eexists. split; [reflexivity|].
  apply sqrt_square_abs; [nra|].
  pose proof (sin2_cos2 alpha) as Hsc. unfold Rsqr in Hsc.
  set (S := sin alpha) in *. set (C := cos alpha) in *.
  set (X := r1 * cos phi_r) in *. set (Y := r2 * sin phi_r) in *.
  assert (Hrel' : S * X = - (C * Y)) by (unfold Y; lra).
  assert (Hsq : (S * X) * (S * X) = (C * Y) * (C * Y)) by (rewrite Hrel'; ring).
  replace (r1 * C * cos phi_r + - (r2 * S * sin phi_r)) with (C * X - S * Y)
    by (unfold X, Y; ring).
  replace ((C * X - S * Y) * (C * X - S * Y))
    with (C * C * (X * X) - 2 * (C * Y) * (S * X) + S * S * (Y * Y)) by ring.
  rewrite Hrel'. nra.
Qed.

Lemma general_extent_h (r1 r2 phi_r : R) :
  r1 <> 0 -> r2 <> 0 ->
  exists h,
    (Fin r1 * xcos (xarctan (Fin r2 * xcos (Fin phi_r) / (Fin r1 * xsin (Fin phi_r))))
       * xsin (Fin phi_r)
     + Fin r2 * xsin (xarctan (Fin r2 * xcos (Fin phi_r) / (Fin r1 * xsin (Fin phi_r))))
       * xcos (Fin phi_r))%xr = Fin h /\
    Rabs h = ellipse_extent r2 r1 phi_r.
Proof.
  intros H1 H2. cbn [xsin xcos xneg xmul].
  destruct (arctan_div_spec (r2 * cos phi_r) (r1 * sin phi_r)) as (alpha & Ha & Hrel).
  { destruct (cos_sin_0_var phi_r) as [Hc|Hs].
    - left. apply Rmult_integral_contrapositive_currified; assumption.
    - right. apply Rmult_integral_contrapositive_currified; assumption. }
  rewrite Ha. cbn [xsin xcos xmul xsub xneg xadd].
  eexists. split; [reflexivity|].
  apply sqrt_square_abs; [nra|].
  pose proof (sin2_cos2 alpha) as Hsc. unfold Rsqr in Hsc.
  set (S := sin alpha) in *. set (C := cos alpha) in *.
  set (D := r1 * sin phi_r) in *. set (N := r2 * cos phi_r) in *.
  assert (Hsq : (S * D) * (S * D) = (C * N) * (C * N)) by (rewrite Hrel; ring).
  replace (r1 * C * sin phi_r + r2 * S * cos phi_r) with (C * D + S * N)
    by (unfold D, N; ring).
  replace ((C * D + S * N) * (C * D + S * N))
    with (C * C * (D * D) + 2 * (C * N) * (S * D) + S * S * (N * N)) by ring.
  rewrite Hrel. nra.
Qed.

Lemma near_vertical_dec (phi_r : R) : {near_vertical phi_r} + {~ near_vertical phi_r}.
Proof.
  unfold near_vertical.
  destruct (Rle_dec (Rabs (phi_r - PI / 2)) (1 / 1000000)); [left; left; assumption|].
  destruct (Rle_dec (Rabs (phi_r - 3 * PI / 2)) (1 / 1000000)); [left; right; assumption|].
  right. intros [Hl|Hr]; contradiction.
Qed.

(** The box the function returns, in closed form: outside the
    near-vertical window, and at an exactly vertical angle. *)
Lemma ellipse_bbox_extents (p s1 s2 c : R) :
  s1 <> 0 -> s2 <> 0 -> c <> 0 ->
  ~ near_vertical (phi_rad p) \/ cos (phi_rad p) = 0 ->
  _compute_ellipse_bbox (Fin p) (Fin s1) (Fin s2) (Fin c)
  = (Fin (- ellipse_extent (c * s2) (c * s1) (phi_rad p)),
     Fin (- ellipse_extent (c * s1) (c * s2) (phi_rad p)),
     Fin (ellipse_extent (c * s2) (c * s1) (phi_rad p)),
     Fin (ellipse_extent (c * s1) (c * s2) (phi_rad p))).
Proof.
  intros H1 H2 Hc Hphi.
  assert (Hr1 : c * s1 <> 0) by (apply Rmult_integral_contrapositive_currified; assumption).
  assert (Hr2 : c * s2 <> 0) by (apply Rmult_integral_contrapositive_currified; assumption).
  unfold _compute_ellipse_bbox. rewrite phi_r_fin.
  destruct (near_vertical_dec (phi_rad p)) as [Hnear|Hfar].
  - assert (Hcos : cos (phi_rad p) = 0) by (destruct Hphi; [contradiction | assumption]).
    rewrite general_branch_false by exact Hnear.
    cbn [xmul xabs xneg].
    pose proof (sin2_cos2 (phi_rad p)) as Hsc. unfold Rsqr in Hsc.
    rewrite Hcos in Hsc.
    assert (Hw : Rabs (s2 * c) = ellipse_extent (c * s1) (c * s2) (phi_rad p)).
    { unfold ellipse_extent. apply sqrt_square_abs; [nra|]. rewrite Hcos. nra. }
    assert (Hh : Rabs (s1 * c) = ellipse_extent (c * s2) (c * s1) (phi_rad p)).
    { unfold ellipse_extent. apply sqrt_square_abs; [nra|]. rewrite Hcos. nra. }
    rewrite Hw, Hh. reflexivity.
  - rewrite general_branch_true by exact Hfar.
    destruct (general_extent_w (c * s1) (c * s2) (phi_rad p) Hr1 Hr2) as (w & Hw & Haw).
    destruct (general_extent_h (c * s1) (c * s2) (phi_rad p) Hr1 Hr2) as (h & Hh & Hah).
    cbn [xsin xcos xneg xmul] in Hw, Hh |- *.
    rewrite Hw, Hh. cbn [xabs xneg]. rewrite Haw, Hah. reflexivity.
Qed.

Lemma ellipse_bbox_near_vertical (p s1 s2 c : R) :
  near_vertical (phi_rad p) ->
  _compute_ellipse_bbox (Fin p) (Fin s1) (Fin s2) (Fin c)
  = (Fin (- Rabs (s1 * c)), Fin (- Rabs (s2 * c)),
     Fin (Rabs (s1 * c)), Fin (Rabs (s2 * c))).
Proof.
  intros Hnear. unfold _compute_ellipse_bbox. rewrite phi_r_fin.
  rewrite general_branch_false by exact Hnear. reflexivity.
Qed.

Lemma phi_rad_rotate (p : R) : phi_rad (p + 90) = phi_rad p + PI / 2.
Proof. unfold phi_rad. field. Qed.




Lemma not_near_vertical_0 : ~ near_vertical (phi_rad 0).
Proof.
  unfold near_vertical, phi_rad. pose proof PI2_3_2 as Hpi.
  replace (0 / 180 * PI - PI / 2) with (- (PI / 2)) by field.
  replace (0 / 180 * PI - 3 * PI / 2) with (- (3 * PI / 2)) by field.
  rewrite !Rabs_Ropp, !Rabs_pos_eq by lra. lra.
Qed.




(** In exact arithmetic the condition on the window cannot be dropped.
    At [phi] one hundred thousandth of a degree past 90 the function
    takes its direct formula for [phi] and the general one for
    [phi + 90], and with scales 1 and 2 the two boxes are close but not
    equal. *)
Lemma ellipse_bbox_not_symmetric :
  let b := _compute_ellipse_bbox (Fin (90 + 1 / 100000)) (Fin 1) (Fin 2) (Fin 1) in
  let b' := _compute_ellipse_bbox (Fin (90 + 1 / 100000 + 90)) (Fin 2) (Fin 1) (Fin 1) in
  b' <> b /\ b' <> swap_axes b.
Proof.
  pose proof PI_RGT_0 as Hpi0. pose proof PI_4 as Hpi4. pose proof PI2_3_2 as Hpi3.
  set (delta := PI / 18000000).
  assert (Hphi : phi_rad (90 + 1 / 100000) = PI / 2 + delta)
    by (unfold phi_rad, delta; field).
  assert (Hphi' : phi_rad (90 + 1 / 100000 + 90) = delta + PI)
    by (rewrite phi_rad_rotate, Hphi; field).
  assert (Hd : 0 < delta < 1 / 1000000) by (unfold delta; split; lra).
  assert (Hnear : near_vertical (phi_rad (90 + 1 / 100000))).
  { left. rewrite Hphi. replace (PI / 2 + delta - PI / 2) with delta by ring.
    rewrite Rabs_pos_eq; lra. }
  assert (Hfar : ~ near_vertical (phi_rad (90 + 1 / 100000 + 90))).
  { rewrite Hphi'. unfold near_vertical.
    replace (delta + PI - PI / 2) with (PI / 2 + delta) by field.
    replace (delta + PI - 3 * PI / 2) with (- (PI / 2 - delta)) by field.
    rewrite Rabs_Ropp, !Rabs_pos_eq by lra. lra. }
  assert (Hsin : sin (delta + PI) <> 0).
  { rewrite neg_sin. pose proof (sin_gt_0 delta) as Hs. lra. }
  assert (Hcos : cos (delta + PI) <> 0).
  { rewrite neg_cos. pose proof (cos_gt_0 delta) as Hc. lra. }
  cbv zeta.
  rewrite (ellipse_bbox_near_vertical _ _ _ _ Hnear).
  rewrite (ellipse_bbox_extents (90 + 1 / 100000 + 90) 2 1 1) by (lra || (left; exact Hfar)).
  rewrite Hphi'. unfold swap_axes.
  replace (Rabs (1 * 1)) with 1 by (rewrite Rabs_pos_eq; lra).
  replace (Rabs (2 * 1)) with 2 by (rewrite Rabs_pos_eq; lra).
  pose proof (sin2_cos2 (delta + PI)) as Hsc. unfold Rsqr in Hsc.
  assert (Hsq : ellipse_extent (1 * 2) (1 * 1) (delta + PI)
                * ellipse_extent (1 * 2) (1 * 1) (delta + PI)
                = 4 * (cos (delta + PI) * cos (delta + PI))
                  + sin (delta + PI) * sin (delta + PI)).
  { unfold ellipse_extent. rewrite sqrt_sqrt by nra. ring. }
  split; intros Heq; injection Heq as _ _ _ Hw; rewrite Hw in Hsq.
  - apply Hsin. nra.
  - apply Hcos. nra.
Qed.

End EllipseBbox.

(** ** The kernels: odd supports and unit mass *)

Section KernelProps.
Local Open Scope R_scope.

Definition fin (v : xreal) : Prop := exists r, v = Fin r.
Definition nonneg_fin (v : xreal) : Prop := exists r, v = Fin r /\ 0 <= r.
Definition pos_fin (v : xreal) : Prop := exists r, v = Fin r /\ 0 < r.

Lemma Forall_zip_with_2 {A B C} (P : A -> Prop) (Q : B -> Prop) (T : C -> Prop)
  (f : A -> B -> C) (a : list A) (b : list B) :
  (forall x y, P x -> Q y -> T (f x y)) ->
  Forall P a -> Forall Q b -> Forall T (zip_with f a b).
Proof.
  intros Hf Ha. revert b. induction Ha as [|x a Hx Ha IH]; intros b Hb; [constructor|].
  destruct Hb as [|y b Hy Hb]; simpl; [constructor|].
  constructor; [apply Hf; assumption | apply IH; assumption].
Qed.

Lemma Forall_map_1 {A B} (P : A -> Prop) (Q : B -> Prop) (f : A -> B) (a : list A) :
  (forall x, P x -> Q (f x)) -> Forall P a -> Forall Q (map f a).
Proof.
  intros Hf Ha. induction Ha as [|x a Hx Ha IH]; simpl; constructor; auto.
Qed.

Lemma Forall_concat_1 {A} (P : A -> Prop) (ls : list (list A)) :
  Forall (Forall P) ls -> Forall P (concat ls).
Proof.
  intros Hls. induction Hls as [|l ls Hl Hls IH]; simpl; [constructor|].
  apply Forall_app. split; assumption.
Qed.

Lemma Forall_repeat_1 {A} (P : A -> Prop) (x : A) (n : nat) :
  P x -> Forall P (repeat x n).
Proof. intros Hx. induction n; simpl; constructor; assumption. Qed.

(** Sums and normalisation of lists of finite values *)

Lemma pos_fin_reals (l : list xreal) :
  Forall pos_fin l -> exists rs, l = map Fin rs /\ Forall (fun r => 0 < r) rs.
Proof.
  intros Hl. induction Hl as [|v l (r & -> & Hr) Hl (rs & -> & Hrs)].
  - exists []. split; [reflexivity | constructor].
  - exists (r :: rs). split; [reflexivity | constructor; assumption].
Qed.

Lemma fold_xadd_fin (rs : list R) (a : R) :
  fold_left xadd (map Fin rs) (Fin a) = Fin (fold_left Rplus rs a).
Proof.
  revert a. induction rs as [|r rs IH]; intros a; simpl; [reflexivity|]. apply IH.
Qed.

Lemma fold_Rplus_pos (rs : list R) (a : R) :
  Forall (fun r => 0 < r) rs -> 0 <= a -> rs <> [] -> 0 < fold_left Rplus rs a.
Proof.
  intros Hrs. revert a. induction Hrs as [|r rs Hr Hrs IH]; intros a Ha Hne;
    [contradiction|]. simpl.
  destruct rs as [|r' rs']; [simpl; lra|].
  apply IH; [lra | discriminate].
Qed.

Lemma fold_Rplus_scale (rs : list R) (a k : R) :
  fold_left Rplus (map (fun r => r / k) rs) (a / k) = fold_left Rplus rs a / k.
Proof.
  revert a. induction rs as [|r rs IH]; intros a; simpl; [reflexivity|].
  replace (a / k + r / k) with ((a + r) / k) by (unfold Rdiv; ring). apply IH.
Qed.

(** Dividing positive finite values by their sum leaves values of sum 1. *)
Lemma normalise_unit_mass (l : list xreal) :
  Forall pos_fin l -> l <> [] -> fsum (normalise l) = Fin 1.
Proof.
  intros Hl Hne. destruct (pos_fin_reals l Hl) as (rs & -> & Hrs).
  assert (Hrs_ne : rs <> []) by (intros ->; apply Hne; reflexivity).
  unfold normalise, fsum. cbn [fadd fzero xreal_ops].
  rewrite fold_xadd_fin.
  pose proof (fold_Rplus_pos rs 0 Hrs (Rle_refl 0) Hrs_ne) as Hpos.
  set (S := fold_left Rplus rs 0) in *.
  rewrite map_map.
  rewrite (map_ext (fun r => (Fin r / Fin S)%xr) (fun r => Fin (r / S)))
    by (intros r; apply xdiv_fin; lra).
  rewrite <- (map_map (fun r => r / S) Fin), fold_xadd_fin.
  replace 0 with (0 / S) at 1 by (unfold Rdiv; ring).
  rewrite fold_Rplus_scale. fold S. f_equal. field. lra.
Qed.

Lemma normalise_length (l : list xreal) : length (normalise l) = length l.
Proof. unfold normalise. apply length_map. Qed.

(** The axis of a symmetric support *)

Lemma Int_part_nonneg (h : R) : 0 <= h -> (0 <= Int_part h)%Z.
Proof.
  intros Hh. destruct (base_Int_part h) as [_ Hlo].
  apply le_IZR. apply Rnot_lt_le. intros Hneg.
  assert (Hle : IZR (Int_part h) <= -1).
  { apply IZR_le. apply lt_IZR in Hneg. lia. }
  lra.
Qed.

Lemma truncate_nonneg (h : R) : 0 <= h -> truncate h = Int_part h.
Proof. intros Hh. unfold truncate. rewrite Rltb_false by exact Hh. reflexivity. Qed.

Lemma truncate_opp (h : R) : 0 <= h -> truncate (- h) = (- Int_part h)%Z.
Proof.
  intros Hh. unfold truncate. destruct (Rlt_dec (- h) 0) as [Hlt|Hge].
  - rewrite Rltb_true by exact Hlt. rewrite Ropp_involutive. reflexivity.
  - rewrite Rltb_false by lra. assert (h = 0) by lra. subst h.
    rewrite Ropp_0. rewrite <- (Int_part_spec 0 0) by lra. reflexivity.
Qed.

Lemma arange_length (a b : Z) : length (arange a b) = Z.to_nat (b - a).
Proof. unfold arange. rewrite length_map, length_seq. reflexivity. Qed.

Definition axis (n : Z) : list xreal :=
  map (fun z => Fin (IZR z)) (arange (- n) (n + 1)).

Lemma axis_length (n : Z) : (0 <= n)%Z -> length (axis n) = (2 * Z.to_nat n + 1)%nat.
Proof. intros Hn. unfold axis. rewrite length_map, arange_length. lia. Qed.

Lemma axis_fin (n : Z) : Forall fin (axis n).
Proof.
  unfold axis. apply Forall_map_1 with (P := fun _ => True).
  - intros z _. exists (IZR z). reflexivity.
  - apply Forall_forall. intros; exact I.
Qed.

(** From [-h] to [h] the first [arange] already has odd length: the
    enlargement of the builders never runs. *)
Lemma odd_axis_symmetric (lo hi : R) :
  0 <= hi -> lo = - hi ->
  odd_axis (Fin lo) (Fin hi) = Ok (axis (Int_part hi)).
Proof.
  intros Hhi ->. unfold odd_axis. cbn [py_int mbind result_bind].
  rewrite truncate_opp, truncate_nonneg by exact Hhi.
  pose proof (Int_part_nonneg hi Hhi) as Hn.
  assert (Hlen : length (arange (- Int_part hi) (Int_part hi + 1))
                 = (2 * Z.to_nat (Int_part hi) + 1)%nat)
    by (rewrite arange_length; lia).
  rewrite Hlen.
  replace (Nat.even (2 * Z.to_nat (Int_part hi) + 1)) with false.
  - reflexivity.
  - symmetry. rewrite Nat.even_add, Nat.even_mul. reflexivity.
Qed.

Lemma odd_2n1 (n : nat) : Nat.odd (2 * n + 1) = true.
Proof. rewrite Nat.odd_add, Nat.odd_mul. reflexivity. Qed.

(** The grids of [np.meshgrid] *)

Lemma concat_const_length {A B} (x : list A) (y : list B) :
  length (concat (map (fun _ => x) y)) = (length y * length x)%nat.
Proof. induction y as [|b y IH]; simpl; [reflexivity|]. rewrite length_app, IH. reflexivity. Qed.

Lemma concat_repeat_length {A} (y : list A) (n : nat) :
  length (concat (map (fun yi => repeat yi n) y)) = (length y * n)%nat.
Proof.
  induction y as [|b y IH]; simpl; [reflexivity|].
  rewrite length_app, repeat_length, IH. reflexivity.
Qed.

Lemma meshgrid_X_fin (P : xreal -> Prop) (x y : list xreal) :
  Forall P x -> Forall P (data (fst (meshgrid x y))).
Proof.
  intros Hx. cbn [meshgrid fst data]. apply Forall_concat_1.
  apply Forall_map_1 with (P := fun _ => True); [intros; exact Hx|].
  apply Forall_forall. intros; exact I.
Qed.

Lemma meshgrid_Y_fin (P : xreal -> Prop) (x y : list xreal) :
  Forall P y -> Forall P (data (snd (meshgrid x y))).
Proof.
  intros Hy. cbn [meshgrid snd data]. apply Forall_concat_1.
  induction Hy as [|v y Hv Hy IH]; simpl; constructor;
    [apply Forall_repeat_1; exact Hv | exact IH].
Qed.

(** The box is always symmetric about the origin, with finite extents. *)
Lemma ellipse_bbox_shape (p s1 s2 c : R) :
  s1 <> 0 -> s2 <> 0 -> c <> 0 ->
  exists W H, 0 <= W /\ 0 <= H /\
    _compute_ellipse_bbox (Fin p) (Fin s1) (Fin s2) (Fin c)
    = (Fin (- H), Fin (- W), Fin H, Fin W).
Proof.
  intros H1 H2 Hc. destruct (near_vertical_dec (phi_rad p)) as [Hnear|Hfar].
  - exists (Rabs (s2 * c)), (Rabs (s1 * c)).
    split; [apply Rabs_pos|]. split; [apply Rabs_pos|].
    apply ellipse_bbox_near_vertical. exact Hnear.
  - exists (ellipse_extent (c * s1) (c * s2) (phi_rad p)),
           (ellipse_extent (c * s2) (c * s1) (phi_rad p)).
    split; [apply sqrt_pos|]. split; [apply sqrt_pos|].
    apply ellipse_bbox_extents; auto.
Qed.

Lemma fin_square (w : xreal) : fin w -> nonneg_fin (w * w)%xr.
Proof. intros [r ->]. exists (r * r). split; [reflexivity | nra]. Qed.

Lemma fin_rotate (a b : R) (u v : xreal) : fin u -> fin v -> fin (Fin a * u + Fin b * v)%xr.
Proof. intros [x ->] [y ->]. eexists. reflexivity. Qed.

Lemma anisotropic_entry_pos (u v : xreal) (a1 a2 e : R) :
  nonneg_fin u -> nonneg_fin v -> 0 < a1 -> 0 < a2 -> 0 <= e ->
  pos_fin (xexp (- ((u / Fin a1 + v / Fin a2) ** Fin e)))%xr.
Proof.
  intros (x & -> & Hx) (y & -> & Hy) H1 H2 He.
  rewrite !xdiv_fin by lra. cbn [xadd].
  assert (Hb : 0 <= x / a1 + y / a2).
  { apply Rplus_le_le_0_compat; apply Rmult_le_pos; try assumption;
      left; apply Rinv_0_lt_compat; assumption. }
  set (b := x / a1 + y / a2) in *. unfold xpow.
  destruct (Req_dec_T e 0) as [He0|He0].
  - rewrite Reqb_true by exact He0. eexists. split; [reflexivity | apply exp_pos].
  - rewrite Reqb_false by exact He0. unfold Rpow_real.
    destruct (Rlt_dec 0 b) as [Hpos|Hnpos].
    + rewrite Rltb_true by exact Hpos. eexists. split; [reflexivity | apply exp_pos].
    + rewrite Rltb_false by lra. rewrite Reqb_true by lra.
      rewrite Rltb_true by lra. eexists. split; [reflexivity | apply exp_pos].
Qed.

Lemma isotropic_entry_pos (u v : xreal) :
  fin u -> fin v -> pos_fin (xexp (Fin (- (1 / 2)) * (u * u + v * v)))%xr.
Proof. intros [x ->] [y ->]. eexists. split; [reflexivity | apply exp_pos]. Qed.

Lemma fin_div (s : R) (u : xreal) : s <> 0 -> fin u -> fin (u / Fin s)%xr.
Proof. intros Hs [x ->]. rewrite xdiv_fin by exact Hs. eexists. reflexivity. Qed.

Lemma length_pos_nonempty {A} (l : list A) : (0 < length l)%nat -> l <> [].
Proof. intros Hl ->. simpl in Hl. lia. Qed.

Lemma anisotropic_kernel_normalised (p s1 s2 e c : R) (rest : list xreal) :
  s1 <> 0 -> s2 <> 0 -> 0 <= e -> 0 < c ->
  exists K,
    _compute_kernel_anisotropic
      (PySeq (Fin p :: Fin s1 :: Fin s2 :: Fin e :: rest)) (Fin c) = Ok K /\
    wf K /\ Nat.odd (nrows K) = true /\ Nat.odd (ncols K) = true /\
    fsum (data K) = Fin 1.
Proof.
  intros H1 H2 He Hc.
  unfold _compute_kernel_anisotropic. cbn [firstn xabs nth_error].
  destruct (ellipse_bbox_shape p (Rabs s1) (Rabs s2) c) as (W & H & HW & HH & Hbb);
    [apply Rabs_no_R0; exact H1 | apply Rabs_no_R0; exact H2 | lra |].
  rewrite Hbb, phi_r_fin.
  rewrite !odd_axis_symmetric by (assumption || reflexivity).
  cbn [mbind result_bind mret result_ret].
  pose proof (Int_part_nonneg W HW) as HnW. pose proof (Int_part_nonneg H HH) as HnH.
  set (x := axis (Int_part W)). set (y := axis (Int_part H)).
  assert (Hlx : length x = (2 * Z.to_nat (Int_part W) + 1)%nat) by (apply axis_length; exact HnW).
  assert (Hly : length y = (2 * Z.to_nat (Int_part H) + 1)%nat) by (apply axis_length; exact HnH).
  pose proof (meshgrid_X_fin fin x y (axis_fin _)) as HX.
  pose proof (meshgrid_Y_fin fin x y (axis_fin _)) as HY.
  cbn [meshgrid fst snd data nrows ncols xsin xcos xneg] in HX, HY |- *.
  set (Xd := concat (map (fun _ => x) y)) in *.
  set (Yd := concat (map (fun yi => repeat yi (length x)) y)) in *.
  assert (HlX : length Xd = (length y * length x)%nat) by apply concat_const_length.
  assert (HlY : length Yd = (length y * length x)%nat) by apply concat_repeat_length.
  eexists. split; [reflexivity|]. cbn [nrows ncols data].
  match goal with |- context [normalise ?r] => set (result := r) end.
  assert (Hlen : length result = (length y * length x)%nat).
  { unfold result. rewrite length_zip_with, !length_map, !length_zip_with. lia. }
  assert (Hpos : Forall pos_fin result).
  { unfold result.
    apply Forall_zip_with_2 with (P := nonneg_fin) (Q := nonneg_fin).
    - intros u v Hu Hv. apply anisotropic_entry_pos; try assumption;
        apply Rabs_pos_lt; assumption.
    - apply Forall_map_1 with (P := fin); [apply fin_square|].
      apply Forall_zip_with_2 with (P := fin) (Q := fin); try assumption.
      intros u v Hu Hv. apply fin_rotate; assumption.
    - apply Forall_map_1 with (P := fin); [apply fin_square|].
      apply Forall_zip_with_2 with (P := fin) (Q := fin); try assumption.
      intros u v Hu Hv. apply fin_rotate; assumption. }
  split; [unfold wf; cbn [nrows ncols data]; rewrite normalise_length; exact Hlen|].
  split; [rewrite Hly; apply odd_2n1|]. split; [rewrite Hlx; apply odd_2n1|].
  apply normalise_unit_mass; [exact Hpos|].
  apply length_pos_nonempty. rewrite Hlen, Hlx, Hly. lia.
Qed.

Lemma isotropic_kernel_normalised (s c : R) (rest : list xreal) :
  0 < s -> 0 < c ->
  exists K,
    _compute_kernel_isotropic (PySeq (Fin s :: rest)) (Fin c) = Ok K /\
    wf K /\ Nat.odd (nrows K) = true /\ Nat.odd (ncols K) = true /\
    fsum (data K) = Fin 1.
Proof.
  intros Hs Hc.
  unfold _compute_kernel_isotropic. cbn [xneg xmul].
  assert (Hsc : 0 <= s * c) by nra.
  rewrite !odd_axis_symmetric by (assumption || ring).
  cbn [mbind result_bind mret result_ret].
  pose proof (Int_part_nonneg (s * c) Hsc) as Hn.
  set (x := map (fun u => (u / Fin s)%xr) (axis (Int_part (s * c)))).
  assert (Hlx : length x = (2 * Z.to_nat (Int_part (s * c)) + 1)%nat)
    by (unfold x; rewrite length_map; apply axis_length; exact Hn).
  assert (Hfx : Forall fin x).
  { unfold x. apply Forall_map_1 with (P := fin); [|apply axis_fin].
    intros u Hu. apply fin_div; [lra | exact Hu]. }
  pose proof (meshgrid_X_fin fin x x Hfx) as HX.
  pose proof (meshgrid_Y_fin fin x x Hfx) as HY.
  cbn [meshgrid fst snd data nrows ncols] in HX, HY |- *.
  set (Xd := concat (map (fun _ => x) x)) in *.
  set (Yd := concat (map (fun yi => repeat yi (length x)) x)) in *.
  assert (HlX : length Xd = (length x * length x)%nat) by apply concat_const_length.
  assert (HlY : length Yd = (length x * length x)%nat) by apply concat_repeat_length.
  eexists. split; [reflexivity|]. cbn [nrows ncols data].
  match goal with |- context [normalise ?r] => set (result := r) end.
  assert (Hlen : length result = (length x * length x)%nat).
  { unfold result. rewrite length_map, length_zip_with. lia. }
  assert (Hpos : Forall pos_fin result).
  { unfold result.
    apply Forall_forall. intros v Hv.
    apply list_elem_of_In, in_map_iff in Hv. destruct Hv as (r & <- & Hr).
    assert (Hr' : Forall (fun w => exists a b, fin a /\ fin b /\ w = (a * a + b * b)%xr)
                    (zip_with (fun u v => (u * u + v * v)%xr) Xd Yd)).
    { apply Forall_zip_with_2 with (P := fin) (Q := fin); try assumption.
      intros a b Ha Hb. exists a, b. auto. }
    rewrite List.Forall_forall in Hr'. destruct (Hr' r Hr) as (a & b & Ha & Hb & ->).
    apply isotropic_entry_pos; assumption. }
  split; [unfold wf; cbn [nrows ncols data]; rewrite normalise_length; exact Hlen|].
  split; [rewrite Hlx; apply odd_2n1|]. split; [rewrite Hlx; apply odd_2n1|].
  apply normalise_unit_mass; [exact Hpos|].
  apply length_pos_nonempty. rewrite Hlen, Hlx. lia.
Qed.

(** C2.  For a finite angle, non-zero finite scales, a finite
    non-negative shape exponent and a positive cutoff, the anisotropic
    builder returns a kernel; for a positive finite scale and a
    positive cutoff, so does the isotropic builder.  In both cases the
    two dimensions of the kernel are odd and, in exact arithmetic, its
    entries sum to 1. *)
Theorem kernels_normalised_odd (p s1 s2 e sigma c : R) (rest rest' : list xreal) :
  s1 <> 0 -> s2 <> 0 -> 0 <= e -> 0 < sigma -> 0 < c ->
  (exists K,
     _compute_kernel_anisotropic
       (PySeq (Fin p :: Fin s1 :: Fin s2 :: Fin e :: rest)) (Fin c) = Ok K /\
     wf K /\ Nat.odd (nrows K) = true /\ Nat.odd (ncols K) = true /\
     fsum (data K) = Fin 1) /\
  (exists K,
     _compute_kernel_isotropic (PySeq (Fin sigma :: rest')) (Fin c) = Ok K /\
     wf K /\ Nat.odd (nrows K) = true /\ Nat.odd (ncols K) = true /\
     fsum (data K) = Fin 1).
Proof.
  intros H1 H2 He Hs Hc. split.
  - apply anisotropic_kernel_normalised; assumption.
  - apply isotropic_kernel_normalised; assumption.
Qed.

(** The default cutoff, the starting point of the anisotropic search
    and a unit isotropic scale. *)
Lemma kernels_normalised_odd_witness :
  1 <> 0 /\ 1 <> 0 /\ 0 <= 1 /\ 0 < 1 /\ 0 < 6 /\
  (exists K,
     _compute_kernel_anisotropic
       (PySeq (Fin 45 :: Fin 1 :: Fin 1 :: Fin 1 :: [])) (Fin 6) = Ok K /\
     wf K /\ Nat.odd (nrows K) = true /\ Nat.odd (ncols K) = true /\
     fsum (data K) = Fin 1) /\
  (exists K,
     _compute_kernel_isotropic (PySeq (Fin 1 :: [])) (Fin 6) = Ok K /\
     wf K /\ Nat.odd (nrows K) = true /\ Nat.odd (ncols K) = true /\
     fsum (data K) = Fin 1).
Proof.
  split; [lra|]. split; [lra|]. split; [lra|]. split; [lra|]. split; [lra|].
  apply (kernels_normalised_odd 45 1 1 1 1 6 [] []); lra.
Defined.

End KernelProps.

(** ** The window weights *)

Section WindowWeights.
Local Open Scope R_scope.

Lemma Int_part_2 : Int_part 2 = 2%Z.
Proof. symmetry. apply Int_part_spec. lra. Qed.

Lemma Rpower_2 (x : R) : 0 < x -> Rpower x 2 = x * x.
Proof.
  intros Hx. replace 2 with (INR 2) by (simpl; lra).
  rewrite Rpower_pow by exact Hx. simpl. ring.
Qed.

(** [r ** 2] on a non-zero finite value *)
Lemma xpow_square (r : R) : r <> 0 -> (Fin r ** Fin 2)%xr = Fin (r * r).
Proof.
  intros Hr. unfold xpow. rewrite Reqb_false by lra. unfold Rpow_real.
  destruct (Rlt_dec 0 r) as [Hpos|Hneg].
  - rewrite Rltb_true by exact Hpos. rewrite Rpower_2 by exact Hpos. reflexivity.
  - rewrite Rltb_false by lra. rewrite Reqb_false by exact Hr.
    unfold is_integer. rewrite Int_part_2. rewrite Reqb_true by reflexivity.
    cbn [Z.odd]. rewrite Rpower_2 by lra. f_equal. ring.
Qed.





Lemma nth_zip_with_gen {A B C} (f : A -> B -> C) (a : list A) (b : list B)
  (k : nat) (da : A) (db : B) (dc : C) :
  (k < length a)%nat -> (k < length b)%nat ->
  nth k (zip_with f a b) dc = f (nth k a da) (nth k b db).
Proof.
  revert b k. induction a as [|x a IH]; intros [|y b] [|k]; simpl; try lia; auto.
  intros Ha Hb. apply IH; lia.
Qed.




Lemma grid_points_length (n : nat) : length (grid_points n) = n.
Proof. unfold grid_points. rewrite length_map, length_seq. reflexivity. Qed.



















End WindowWeights.

(** ** The window weights: how many radii are needed *)

Section WindowWeightRadii.

Lemma window_weight_loop_enough (grid_x grid_y : array2 xreal)
  (r1 r2 : list xreal) (coords : list (xreal * xreal)) (i : nat) :
  length r1 = length r2 -> i + length coords <= length r1 ->
  exists ws,
    window_weight_loop grid_x grid_y r1 r2 i coords = Ok ws /\
    length ws = length coords /\
    Forall (fun w => nrows w = nrows grid_x /\ ncols w = ncols grid_x) ws.
Proof.
  intros H12. revert i. induction coords as [|c rest IH]; intros i Hi.
  - exists []. repeat split. constructor.
  - cbn [length] in Hi. cbn [window_weight_loop].
    destruct (nth_error r1 i) as [a|] eqn:E1;
      [|apply nth_error_None in E1; lia].
    destruct (nth_error r2 i) as [b|] eqn:E2;
      [|apply nth_error_None in E2; lia].
    destruct (IH (S i)) as (ws & -> & Hl & Hs); [lia|].
    eexists. split; [reflexivity|]. split; [cbn; lia|].
    constructor; [split; reflexivity | exact Hs].
Qed.

Lemma window_weight_loop_short (grid_x grid_y : array2 xreal)
  (r1 r2 : list xreal) (coords : list (xreal * xreal)) (i : nat) :
  length r1 = length r2 -> i <= length r1 -> length r1 < i + length coords ->
  window_weight_loop grid_x grid_y r1 r2 i coords = Raise IndexError.
Proof.
  intros H12. revert i. induction coords as [|c rest IH]; intros i Hi Hlt.
  - cbn [length] in Hlt. lia.
  - cbn [length] in Hlt. cbn [window_weight_loop].
    destruct (nth_error r1 i) as [a|] eqn:E1.
    + assert (i < length r1) by (apply nth_error_Some; congruence).
      destruct (nth_error r2 i) as [b|] eqn:E2;
        [|apply nth_error_None in E2; lia].
      rewrite IH by lia. reflexivity.
    + reflexivity.
Qed.

(** [_compute_window_weights] and the number of radii.  Without a
    feature the call raises IndexError (the assignment [w[0, :]] into
    an array with no first row).  With several features it reads one
    radius per feature: it returns one weight array per feature, each
    of the shape of the grid, when there are at least as many radii as
    features (the radii beyond are not read), and raises IndexError
    when there are fewer.  The values of the coordinates and radii
    play no part in this. *)
Theorem window_weights_radii (coords : list (xreal * xreal)) (H W : nat)
  (window_radii : list xreal) :
  (coords = [] ->
   _compute_window_weights coords H W window_radii = Raise IndexError) /\
  (1 < length coords -> length coords <= length window_radii ->
   exists ws,
     _compute_window_weights coords H W window_radii = Ok ws /\
     length ws = length coords /\
     Forall (fun w => nrows w = H /\ ncols w = W) ws) /\
  (1 < length coords -> length window_radii < length coords ->
   _compute_window_weights coords H W window_radii = Raise IndexError).
Proof.
  split; [intros ->; reflexivity|].
  unfold _compute_window_weights. cbn [meshgrid]. rewrite length_map.
  split; intros Hlen Hr;
    (replace (1 <? length coords) with true by (symmetry; apply Nat.ltb_lt; exact Hlen)).
  - match goal with |- context [window_weight_loop ?gx ?gy ?a ?b 0 ?c] =>
      destruct (window_weight_loop_enough gx gy a b c 0) as (ws & Hw & Hl & Hs)
    end.
    + rewrite !length_map. reflexivity.
    + rewrite !length_map. cbn. lia.
    + exists ws. split; [exact Hw|]. split; [rewrite Hl, length_map; reflexivity|].
      cbn [nrows ncols] in Hs. rewrite !grid_points_length in Hs. exact Hs.
  - apply window_weight_loop_short; rewrite !length_map; cbn; lia.
Qed.

(** Two features with a single radius, and with three. *)
Lemma window_weights_radii_witness :
  (1 < length [(Fin 4, Fin 4); (Fin 12, Fin 12)] /\
   length [(Fin 4, Fin 4); (Fin 12, Fin 12)] <= length [Fin 25; Fin 25; Fin 25] /\
   exists ws,
     _compute_window_weights [(Fin 4, Fin 4); (Fin 12, Fin 12)] 16 16
       [Fin 25; Fin 25; Fin 25] = Ok ws /\
     length ws = length [(Fin 4, Fin 4); (Fin 12, Fin 12)] /\
     Forall (fun w => nrows w = 16 /\ ncols w = 16) ws) /\
  (1 < length [(Fin 4, Fin 4); (Fin 12, Fin 12)] /\
   length [Fin 25] < length [(Fin 4, Fin 4); (Fin 12, Fin 12)] /\
   _compute_window_weights [(Fin 4, Fin 4); (Fin 12, Fin 12)] 16 16 [Fin 25]
   = Raise IndexError).
Proof.
  split.
  - split; [cbn; lia|]. split; [cbn; lia|].
    apply (window_weights_radii [(Fin 4, Fin 4); (Fin 12, Fin 12)] 16 16
             [Fin 25; Fin 25; Fin 25]); cbn; lia.
  - split; [cbn; lia|]. split; [cbn; lia|].
    apply (window_weights_radii [(Fin 4, Fin 4); (Fin 12, Fin 12)] 16 16
             [Fin 25]); cbn; lia.
Defined.

End WindowWeightRadii.

(** ** The autoregressive step *)

Section IterateArModelProps.
Context {F : Type} `{FloatOps F}.

(** The value the loop leaves in column [j], from index [i] on with
    [s] accumulated so far. *)
Fixpoint ar_sum (input_fields : array2 F) (j : nat) (psi : list F) (i : nat) (s : F) : F :=
  match psi with
  | [] => s
  | psi_i :: rest =>
      ar_sum input_fields j rest (S i)
        (fadd s (fmul psi_i (get input_fields (nrows input_fields - S i) j)))
  end.

Lemma row_from_end_ok (a : array2 F) (i : nat) :
  wf a -> i < nrows a ->
  exists row, row_from_end a i = Ok row /\ length row = ncols a /\
    forall j, j < ncols a -> nth j row fnan = get a (nrows a - S i) j.
Proof.
  intros Hwf Hi. unfold row_from_end.
  replace (i + 1 <=? nrows a) with true by (symmetry; apply Nat.leb_le; lia).
  eexists. split; [reflexivity|].
  assert (Hle : (nrows a - (i + 1)) * ncols a + ncols a <= length (data a)).
  { rewrite Hwf. replace (nrows a) with ((nrows a - (i + 1)) + S i) at 2 by lia. nia. }
  split.
  - rewrite length_firstn, length_skipn. lia.
  - intros j Hj. unfold get.
    rewrite nth_firstn. replace (j <? ncols a) with true by (symmetry; apply Nat.ltb_lt; lia).
    rewrite nth_skipn. f_equal. replace (i + 1) with (S i) by lia. lia.
Qed.

Lemma iterate_ar_loop_array (a : array2 F) (psi : list F) (i : nat) (l : list F) :
  wf a -> i + length psi <= nrows a -> length l = ncols a ->
  exists l', iterate_ar_loop a psi i (AccArray l) = Ok (AccArray l') /\
    length l' = ncols a /\
    forall j, j < ncols a -> nth j l' fnan = ar_sum a j psi i (nth j l fnan).
Proof.
  intros Hwf. revert i l. induction psi as [|c rest IH]; intros i l Hi Hl.
  - exists l. split; [reflexivity|]. split; [exact Hl|]. reflexivity.
  - cbn [length] in Hi. cbn [iterate_ar_loop].
    destruct (row_from_end_ok a i Hwf) as (row & -> & Hrl & Hrow); [lia|].
    cbn [mbind result_bind].
    destruct (IH (S i) (zip_with fadd l (map (fun v => fmul c v) row)))
      as (l' & Hrun & Hl' & Hval); [lia| |].
    { rewrite length_zip_with, length_map. lia. }
    exists l'. split; [exact Hrun|]. split; [exact Hl'|].
    intros j Hj. rewrite (Hval j Hj). cbn [ar_sum]. f_equal.
    rewrite (nth_zip_with_gen fadd _ _ j fnan fnan fnan) by (rewrite ?length_map; lia).
    f_equal. rewrite <- (Hrow j Hj).
    rewrite (nth_indep _ fnan (fmul c fnan)) by (rewrite length_map; lia).
    apply map_nth.
Qed.

(** One step of the autoregressive model.  For a stack of [k] fields
    and between one and [k] coefficients the call returns a stack of
    the same shape: every field moves one place towards the start (the
    oldest is dropped), and the last field is the combination
    [((0.0 + psi[0] * f[k-1]) + psi[1] * f[k-2]) + ...] of the most
    recent input fields, entry by entry. *)
Theorem iterate_ar_model_spec (input_fields : array2 F) (psi : list F) :
  wf input_fields -> 1 <= length psi -> length psi <= nrows input_fields ->
  exists out,
    _iterate_ar_model input_fields psi = Ok out /\
    nrows out = nrows input_fields /\ ncols out = ncols input_fields /\ wf out /\
    (forall i j, i + 1 < nrows input_fields -> j < ncols input_fields ->
       get out i j = get input_fields (i + 1) j) /\
    (forall j, j < ncols input_fields ->
       get out (nrows input_fields - 1) j = ar_sum input_fields j psi 0 fzero).
Proof.
  intros Hwf Hp Hk. unfold _iterate_ar_model.
  destruct psi as [|c rest]; [cbn in Hp; lia|]. cbn [length] in Hk.
  cbn [iterate_ar_loop].
  destruct (row_from_end_ok input_fields 0 Hwf) as (row & -> & Hrl & Hrow); [lia|].
  cbn [mbind result_bind].
  destruct (iterate_ar_loop_array input_fields rest 1
              (map (fun v => fadd fzero v) (map (fun v => fmul c v) row)) Hwf)
    as (l' & -> & Hl' & Hval); [lia | rewrite !length_map; exact Hrl |].
  cbn [mbind result_bind mret result_ret].
  assert (Hskip : length (skipn (ncols input_fields) (data input_fields))
                  = (nrows input_fields - 1) * ncols input_fields).
  { rewrite length_skipn, Hwf. nia. }
  eexists. split; [reflexivity|]. cbn [nrows ncols data].
  split; [lia|]. split; [reflexivity|]. split; [|split].
  - unfold wf. cbn [nrows ncols data]. rewrite length_app, Hskip, Hl'. nia.
  - intros i j Hi Hj. unfold get. cbn [ncols data].
    rewrite app_nth1 by (rewrite Hskip; nia).
    rewrite nth_skipn. f_equal. lia.
  - intros j Hj. unfold get at 1. cbn [ncols data].
    rewrite app_nth2 by (rewrite Hskip; nia).
    rewrite Hskip. replace ((nrows input_fields - 1) * ncols input_fields + j
                            - (nrows input_fields - 1) * ncols input_fields) with j by lia.
    rewrite (Hval j Hj). cbn [ar_sum]. f_equal.
    rewrite (nth_indep _ fnan (fadd fzero (fmul c fnan))) by (rewrite !length_map; lia).
    rewrite (map_nth (fun v => fadd fzero v)). f_equal.
    rewrite <- (Hrow j Hj). apply map_nth.
Qed.

Lemma iterate_ar_loop_short (a : array2 F) (psi : list F) (i : nat) (acc : accumulator) :
  i <= nrows a -> nrows a < i + length psi ->
  iterate_ar_loop a psi i acc = Raise IndexError.
Proof.
  revert i acc. induction psi as [|c rest IH]; intros i acc Hi Hlt.
  - cbn [length] in Hlt. lia.
  - cbn [length] in Hlt. cbn [iterate_ar_loop]. unfold row_from_end.
    destruct (i + 1 <=? nrows a) eqn:E.
    + apply Nat.leb_le in E. cbn [mbind result_bind]. apply IH; lia.
    + reflexivity.
Qed.

(** The two ways the step fails.  Without a coefficient the
    accumulator is still the float [0.0] when it is indexed: TypeError.
    With more coefficients than fields the index [-(i + 1)] runs off the
    start of the stack: IndexError. *)
Theorem iterate_ar_model_errors (input_fields : array2 F) (psi : list F) :
  (psi = [] -> _iterate_ar_model input_fields psi = Raise TypeError) /\
  (nrows input_fields < length psi ->
   _iterate_ar_model input_fields psi = Raise IndexError).
Proof.
  split.
  - intros ->. reflexivity.
  - intros Hlt. unfold _iterate_ar_model.
    rewrite iterate_ar_loop_short by lia. reflexivity.
Qed.

End IterateArModelProps.

(** Two fields of two cells, and an AR(2) step on binary64 data. *)
Definition two_fields : array2 float := Array2 2 2 [1; 2; 3; 4]%float.

Example iterate_ar_model_run :
  _iterate_ar_model two_fields [0.5; 0.25]%float
  = Ok (Array2 2 2 [3; 4; 1.75; 2.5]%float).
Proof. vm_compute. reflexivity. Qed.

Lemma iterate_ar_model_spec_witness :
  wf two_fields /\ 1 <= length [0.5; 0.25]%float /\
  length [0.5; 0.25]%float <= nrows two_fields /\
  exists out,
    _iterate_ar_model two_fields [0.5; 0.25]%float = Ok out /\
    nrows out = nrows two_fields /\ ncols out = ncols two_fields /\ wf out /\
    (forall i j, i + 1 < nrows two_fields -> j < ncols two_fields ->
       get out i j = get two_fields (i + 1) j) /\
    (forall j, j < ncols two_fields ->
       get out (nrows two_fields - 1) j = ar_sum two_fields j [0.5; 0.25]%float 0 fzero).
Proof.
  split; [reflexivity|]. split; [cbn; lia|]. split; [cbn; lia|].
  apply (iterate_ar_model_spec two_fields [0.5; 0.25]%float);
    [reflexivity | cbn; lia | cbn; lia].
Defined.

Lemma iterate_ar_model_errors_witness :
  nrows two_fields < length [0.5; 0.25; 0.125]%float /\
  _iterate_ar_model two_fields [0.5; 0.25; 0.125]%float = Raise IndexError.
Proof.
  split; [cbn; lia|].
  apply (iterate_ar_model_errors two_fields [0.5; 0.25; 0.125]%float). cbn; lia.
Defined.

(** ** The masked convolution is a weighted mean *)

Section MaskedConvolutionRange.
Local Open Scope R_scope.

(** Two sums over the same terms, one of numerators and one of
    non-negative denominators, with every ratio between [a] and [b]. *)
Lemma fold_ratio_bounds {T} (a b : R) (n d : T -> xreal) (L : list T) (n0 d0 : R) :
  (forall t, In t L ->
     exists nr dr, n t = Fin nr /\ d t = Fin dr /\ 0 <= dr /\ a * dr <= nr <= b * dr) ->
  exists N D,
    fold_left xadd (map n L) (Fin n0) = Fin N /\
    fold_left xadd (map d L) (Fin d0) = Fin D /\
    a * (D - d0) <= N - n0 <= b * (D - d0) /\
    d0 <= D /\
    (forall t dr, In t L -> d t = Fin dr -> d0 + dr <= D).
Proof.
  revert n0 d0. induction L as [|t L IH]; intros n0 d0 Hterm.
  - exists n0, d0. repeat split; try lra. intros t dr [].
  - destruct (Hterm t (or_introl eq_refl)) as (nr & dr & Hn & Hd & Hdr & Hb).
    destruct (IH (n0 + nr) (d0 + dr)) as (N & D & HN & HD & Hbd & Hle & Hall).
    { intros t' Ht'. apply Hterm. right. exact Ht'. }
    exists N, D. cbn [map fold_left]. rewrite Hn, Hd. cbn [xadd].
    split; [exact HN|]. split; [exact HD|]. split; [lra|]. split; [lra|].
    intros t' dr' [<- | Ht'] Hd'.
    + rewrite Hd in Hd'. injection Hd' as <-. lra.
    + specialize (Hall t' dr' Ht' Hd'). lra.
Qed.

Lemma nth_map_default {A B} (f : A -> B) (l : list A) (k : nat) (d : A) (d' : B) :
  (k < length l)%nat -> nth k (map f l) d' = f (nth k l d).
Proof.
  intros Hk. rewrite (nth_indep _ d' (f d)) by (rewrite length_map; exact Hk).
  apply map_nth.
Qed.

Lemma padded_in_range {A} `{FloatOps A} (x : array2 A) (i j : nat) :
  (i < nrows x)%nat -> (j < ncols x)%nat ->
  padded x (Z.of_nat i) (Z.of_nat j) = nth (i * ncols x + j) (data x) fzero.
Proof.
  intros Hi Hj. unfold padded.
  replace ((0 <=? Z.of_nat i) && (Z.of_nat i <? Z.of_nat (nrows x)) &&
           (0 <=? Z.of_nat j) && (Z.of_nat j <? Z.of_nat (ncols x)))%Z with true.
  - rewrite !Nat2Z.id. reflexivity.
  - symmetry. rewrite !andb_true_iff.
    repeat split; first [apply Z.leb_le | apply Z.ltb_lt]; lia.
Qed.

(** An entry of the zero-filled field and of the 0/1 mask, at any
    position, inside the field or in the zero padding. *)
Lemma padded_field_pair (a b : R) (field : array2 xreal) (X Y : Z) :
  wf field ->
  Forall (fun v => forall r, v = Fin r -> a <= r <= b) (data field) ->
  exists z m,
    padded (zero_fill field) X Y = Fin z /\
    padded (finite_mask field) X Y = Fin m /\
    0 <= m /\ a * m <= z <= b * m.
Proof.
  intros Hwf Hab. unfold padded. cbn [zero_fill finite_mask nrows ncols data].
  destruct ((0 <=? X) && (X <? Z.of_nat (nrows field)) &&
            (0 <=? Y) && (Y <? Z.of_nat (ncols field)))%Z eqn:E.
  - rewrite !andb_true_iff in E. destruct E as [[[E1 E2] E3] E4].
    apply Z.leb_le in E1, E3. apply Z.ltb_lt in E2, E4.
    set (k := (Z.to_nat X * ncols field + Z.to_nat Y)%nat).
    assert (Hk : (k < length (data field))%nat).
    { rewrite Hwf. apply position_in_range; lia. }
    rewrite !(nth_map_default _ _ k NaN) by exact Hk.
    pose proof (proj1 (List.Forall_forall _ _) Hab _ (nth_In _ NaN Hk)) as Hv.
    destruct (nth k (data field) NaN) as [r| | |]; cbn.
    + exists r, 1. specialize (Hv r eq_refl). repeat split; lra.
    + exists 0, 0. repeat split; lra.
    + exists 0, 0. repeat split; lra.
    + exists 0, 0. repeat split; lra.
  - exists 0, 0. repeat split; lra.
Qed.

Lemma padded_kernel_pos (kernel : array2 xreal) (p q : nat) :
  wf kernel -> Forall pos_fin (data kernel) ->
  (p < nrows kernel)%nat -> (q < ncols kernel)%nat ->
  exists k, padded kernel (Z.of_nat p) (Z.of_nat q) = Fin k /\ 0 < k.
Proof.
  intros Hwf Hpos Hp Hq. rewrite padded_in_range by assumption.
  assert (Hk : (p * ncols kernel + q < length (data kernel))%nat).
  { rewrite Hwf. apply position_in_range; assumption. }
  exact (proj1 (List.Forall_forall _ _) Hpos _ (nth_In _ _ Hk)).
Qed.

Lemma kernel_centre (n : nat) :
  (0 < n)%nat ->
  exists c, ((Z.of_nat n - 1) / 2)%Z = Z.of_nat c /\ (c < n)%nat.
Proof.
  intros Hn. exists (Z.to_nat ((Z.of_nat n - 1) / 2)).
  assert (0 <= (Z.of_nat n - 1) / 2 < Z.of_nat n)%Z.
  { split; [apply Z.div_pos; lia|]. apply Z.div_lt_upper_bound; lia. }
  split; lia.
Qed.

(** [_masked_convolution] never leaves the range of the data.  With a
    kernel of positive finite entries, every finite entry of the field
    becomes a finite value between the smallest and the largest finite
    entry of the field (so a field that is constant where it is finite
    is returned unchanged there, gaps and borders included), and every
    non-finite entry becomes NaN. *)
Theorem masked_convolution_range (field kernel : array2 xreal) (a b : R) :
  wf field -> wf kernel ->
  (0 < nrows kernel)%nat -> (0 < ncols kernel)%nat ->
  Forall pos_fin (data kernel) ->
  Forall (fun v => forall r, v = Fin r -> a <= r <= b) (data field) ->
  exists out,
    _masked_convolution field kernel = Ok out /\
    forall i j, (i < nrows field)%nat -> (j < ncols field)%nat ->
      match get field i j with
      | Fin _ => exists v, get out i j = Fin v /\ a <= v <= b
      | _ => get out i j = NaN
      end.
Proof.
  intros Hwf Hwk Hkr Hkc Hpos Hab.
  exists (masked_quotient field kernel).
  split; [apply masked_convolution_closed_form; assumption|].
  intros i j Hi Hj.
  rewrite (get_masked_quotient field kernel i j Hwf Hi Hj).
  destruct (get field i j) as [r| | |] eqn:Ef; try reflexivity.
  cbn [fisfinite xreal_ops xisfinite].
  rewrite !get_convolve by (cbn [zero_fill finite_mask nrows ncols]; assumption).
  unfold conv_at, fsum. cbn [fadd fmul fzero xreal_ops].
  destruct (kernel_centre _ Hkr) as (cr & Hcr & Hcr').
  destruct (kernel_centre _ Hkc) as (cc & Hcc & Hcc').
  rewrite Hcr, Hcc.
  set (L := list_prod (seq 0 (nrows kernel)) (seq 0 (ncols kernel))).
  set (num := fun pq : nat * nat =>
                let (p, q) := pq in
                (padded (zero_fill field) (Z.of_nat i + Z.of_nat cr - Z.of_nat p)
                   (Z.of_nat j + Z.of_nat cc - Z.of_nat q)
                 * padded kernel (Z.of_nat p) (Z.of_nat q))%xr).
  set (den := fun pq : nat * nat =>
                let (p, q) := pq in
                (padded (finite_mask field) (Z.of_nat i + Z.of_nat cr - Z.of_nat p)
                   (Z.of_nat j + Z.of_nat cc - Z.of_nat q)
                 * padded kernel (Z.of_nat p) (Z.of_nat q))%xr).
  destruct (fold_ratio_bounds a b num den (rev L) 0 0)
    as (N & D & -> & -> & Hb & _ & Hall).
  { intros [p q] Hin. apply (proj2 (in_rev L (p, q))) in Hin.
    apply in_prod_iff in Hin. destruct Hin as [Hp Hq].
    apply in_seq in Hp, Hq.
    destruct (padded_kernel_pos kernel p q Hwk Hpos) as (k & Hk & Hk0); [lia | lia |].
    destruct (padded_field_pair a b field
                (Z.of_nat i + Z.of_nat cr - Z.of_nat p)
                (Z.of_nat j + Z.of_nat cc - Z.of_nat q) Hwf Hab)
      as (z & m & Hz & Hm & Hm0 & Hzm).
    exists (z * k), (m * k). unfold num, den. rewrite Hz, Hm, Hk. cbn [xmul].
    repeat split; nra. }
  (* the term of the kernel's centre is the entry itself *)
  assert (HD : 0 < D).
  { destruct (padded_kernel_pos kernel cr cc Hwk Hpos Hcr' Hcc') as (k & Hk & Hk0).
    assert (Hc : den (cr, cc) = Fin (1 * k)).
    { unfold den.
      replace (Z.of_nat i + Z.of_nat cr - Z.of_nat cr)%Z with (Z.of_nat i) by lia.
      replace (Z.of_nat j + Z.of_nat cc - Z.of_nat cc)%Z with (Z.of_nat j) by lia.
      rewrite Hk, padded_in_range by (cbn [finite_mask nrows ncols]; assumption).
      cbn [finite_mask nrows ncols data].
      assert (Hk' : (i * ncols field + j < length (data field))%nat).
      { rewrite Hwf. apply position_in_range; assumption. }
      rewrite (nth_map_default _ _ _ NaN) by exact Hk'.
      unfold get in Ef. cbn [fnan xreal_ops] in Ef.
      rewrite Ef. reflexivity. }
    assert (Hin : In (cr, cc) (rev L)).
    { apply (proj1 (in_rev L (cr, cc))), in_prod_iff. split; apply in_seq; lia. }
    specialize (Hall (cr, cc) (1 * k) Hin Hc). lra. }
  rewrite xdiv_fin by lra.
  exists (N / D). split; [reflexivity|].
  replace (D - 0) with D in Hb by lra. replace (N - 0) with N in Hb by lra.
  destruct Hb as [Hlo Hhi].
  split.
  - apply Rmult_le_reg_r with D; [exact HD|].
    replace (N / D * D) with N by (field; lra). lra.
  - apply Rmult_le_reg_r with D; [exact HD|].
    replace (N / D * D) with N by (field; lra). lra.
Qed.

(** A field with a gap, constant where it is finite. *)
Definition gap_field : array2 xreal := Array2 1 3 [Fin 5; NaN; Fin 5].
Definition unit_kernel : array2 xreal := Array2 1 3 [Fin 1; Fin 2; Fin 1].

Lemma masked_convolution_range_witness :
  wf gap_field /\ wf unit_kernel /\
  (0 < nrows unit_kernel)%nat /\ (0 < ncols unit_kernel)%nat /\
  Forall pos_fin (data unit_kernel) /\
  Forall (fun v => forall r, v = Fin r -> 5 <= r <= 5) (data gap_field) /\
  exists out,
    _masked_convolution gap_field unit_kernel = Ok out /\
    forall i j, (i < nrows gap_field)%nat -> (j < ncols gap_field)%nat ->
      match get gap_field i j with
      | Fin _ => exists v, get out i j = Fin v /\ 5 <= v <= 5
      | _ => get out i j = NaN
      end.
Proof.
  assert (Hk : Forall pos_fin (data unit_kernel)).
  { repeat constructor; eexists; (split; [reflexivity | lra]). }
  assert (Hf : Forall (fun v => forall r, v = Fin r -> 5 <= r <= 5) (data gap_field)).
  { cbn [gap_field data].
    constructor; [intros r Hr; injection Hr as <-; lra|].
    constructor; [intros r Hr; discriminate Hr|].
    constructor; [intros r Hr; injection Hr as <-; lra|]. constructor. }
  split; [reflexivity|]. split; [reflexivity|].
  split; [cbn; lia|]. split; [cbn; lia|].
  split; [exact Hk|]. split; [exact Hf|].
  apply (masked_convolution_range gap_field unit_kernel 5 5);
    [reflexivity | reflexivity | cbn; lia | cbn; lia | exact Hk | exact Hf].
Defined.

End MaskedConvolutionRange.

(** ** The bounding box encloses the ellipse *)

Section EllipseEnclosed.
Local Open Scope R_scope.

(** The point at parameter [t] of the ellipse with semi-axes [r1] and
    [r2] whose first axis makes the angle [phi_r] with the x axis. *)
Definition ellipse_point (r1 r2 phi_r t : R) : R * R :=
  (r1 * cos t * cos phi_r - r2 * sin t * sin phi_r,
   r1 * cos t * sin phi_r + r2 * sin t * cos phi_r).

Lemma Rabs_le_between (x b : R) : Rabs x <= b -> - b <= x <= b.
Proof. intros Hx. unfold Rabs in Hx. destruct (Rcase_abs x); lra. Qed.

Lemma amplitude_bound (X Y t : R) :
  Rabs (cos t * X - sin t * Y) <= R_sqrt.sqrt (X * X + Y * Y).
Proof.
  pose proof (sin2_cos2 t) as Hsc. unfold Rsqr in Hsc.
  rewrite <- sqrt_Rsqr_abs. apply sqrt_le_1_alt. unfold Rsqr.
  pose proof (Rle_0_sqr (sin t * X + cos t * Y)) as Hsq. unfold Rsqr in Hsq.
  replace (X * X + Y * Y) with ((sin t * sin t + cos t * cos t) * (X * X + Y * Y))
    by (rewrite Hsc; ring).
  nra.
Qed.

Lemma amplitude_attained (X Y : R) :
  X <> 0 \/ Y <> 0 ->
  exists t, cos t * X - sin t * Y = R_sqrt.sqrt (X * X + Y * Y).
Proof.
  intros Hxy.
  destruct (arctan_div_spec (- Y) X) as (alpha & _ & Hrel).
  { destruct Hxy as [Hx | Hy]; [right; exact Hx | left; lra]. }
  pose proof (sin2_cos2 alpha) as Hsc. unfold Rsqr in Hsc.
  assert (Habs : Rabs (cos alpha * X - sin alpha * Y) = R_sqrt.sqrt (X * X + Y * Y)).
  { apply sqrt_square_abs; [nra|].
    set (S := sin alpha) in *. set (C := cos alpha) in *.
    assert (Hrel' : S * X = - (C * Y)) by lra.
    assert (Hsq : (S * X) * (S * X) = (C * Y) * (C * Y)) by (rewrite Hrel'; ring).
    replace ((C * X - S * Y) * (C * X - S * Y))
      with (C * C * (X * X) - 2 * (C * Y) * (S * X) + S * S * (Y * Y)) by ring.
    rewrite Hrel'. nra. }
  destruct (Rle_dec 0 (cos alpha * X - sin alpha * Y)) as [Hpos | Hneg].
  - exists alpha. rewrite <- Habs. symmetry. apply Rabs_pos_eq. exact Hpos.
  - exists (alpha + PI). rewrite neg_cos, neg_sin, <- Habs.
    rewrite Rabs_left by lra. ring.
Qed.

Lemma ellipse_point_bounds (r1 r2 phi_r t : R) :
  Rabs (fst (ellipse_point r1 r2 phi_r t)) <= ellipse_extent r1 r2 phi_r /\
  Rabs (snd (ellipse_point r1 r2 phi_r t)) <= ellipse_extent r2 r1 phi_r.
Proof.
  unfold ellipse_point, ellipse_extent. cbn [fst snd]. split.
  - replace (r1 * cos t * cos phi_r - r2 * sin t * sin phi_r)
      with (cos t * (r1 * cos phi_r) - sin t * (r2 * sin phi_r)) by ring.
    apply amplitude_bound.
  - replace (r1 * cos t * sin phi_r + r2 * sin t * cos phi_r)
      with (cos t * (r1 * sin phi_r) - sin t * (- (r2 * cos phi_r))) by ring.
    replace (r2 * cos phi_r * (r2 * cos phi_r) + r1 * sin phi_r * (r1 * sin phi_r))
      with (r1 * sin phi_r * (r1 * sin phi_r) + - (r2 * cos phi_r) * - (r2 * cos phi_r))
      by ring.
    apply amplitude_bound.
Qed.

Lemma ellipse_point_touches (r1 r2 phi_r : R) :
  r1 <> 0 -> r2 <> 0 ->
  (exists t, fst (ellipse_point r1 r2 phi_r t) = ellipse_extent r1 r2 phi_r) /\
  (exists t, snd (ellipse_point r1 r2 phi_r t) = ellipse_extent r2 r1 phi_r).
Proof.
  intros H1 H2. unfold ellipse_point, ellipse_extent. cbn [fst snd].
  assert (Hcs : r1 * cos phi_r <> 0 \/ r2 * sin phi_r <> 0).
  { destruct (cos_sin_0_var phi_r) as [Hc|Hs].
    - left. apply Rmult_integral_contrapositive_currified; assumption.
    - right. apply Rmult_integral_contrapositive_currified; assumption. }
  assert (Hsc : r1 * sin phi_r <> 0 \/ - (r2 * cos phi_r) <> 0).
  { destruct (cos_sin_0_var phi_r) as [Hc|Hs].
    - right. apply Ropp_neq_0_compat.
      apply Rmult_integral_contrapositive_currified; assumption.
    - left. apply Rmult_integral_contrapositive_currified; assumption. }
  split.
  - destruct (amplitude_attained _ _ Hcs) as (t & Ht). exists t.
    rewrite <- Ht. ring.
  - destruct (amplitude_attained _ _ Hsc) as (t & Ht). exists t.
    replace (r2 * cos phi_r * (r2 * cos phi_r) + r1 * sin phi_r * (r1 * sin phi_r))
      with (r1 * sin phi_r * (r1 * sin phi_r) + - (r2 * cos phi_r) * - (r2 * cos phi_r))
      by ring.
    rewrite <- Ht. ring.
Qed.

(** Outside the window of 1e-6 radians around the vertical (and at the
    vertical itself), [_compute_ellipse_bbox] returns the exact bounding
    box of the ellipse with semi-axes [cutoff * sigma1] and
    [cutoff * sigma2] rotated by [phi] degrees: the box is centred at
    the origin, every point of the ellipse lies inside it, and the
    ellipse touches its right and its upper side. *)
Theorem ellipse_bbox_encloses (p s1 s2 c : R) :
  s1 <> 0 -> s2 <> 0 -> c <> 0 ->
  ~ near_vertical (phi_rad p) \/ cos (phi_rad p) = 0 ->
  exists W H,
    _compute_ellipse_bbox (Fin p) (Fin s1) (Fin s2) (Fin c)
    = (Fin (- H), Fin (- W), Fin H, Fin W) /\
    (forall t, let (x, y) := ellipse_point (c * s1) (c * s2) (phi_rad p) t in
               - W <= x <= W /\ - H <= y <= H) /\
    (exists t, fst (ellipse_point (c * s1) (c * s2) (phi_rad p) t) = W) /\
    (exists t, snd (ellipse_point (c * s1) (c * s2) (phi_rad p) t) = H).
Proof.
  intros H1 H2 Hc Hphi.
  exists (ellipse_extent (c * s1) (c * s2) (phi_rad p)),
         (ellipse_extent (c * s2) (c * s1) (phi_rad p)).
  split; [apply ellipse_bbox_extents; assumption|].
  assert (Hr1 : c * s1 <> 0) by (apply Rmult_integral_contrapositive_currified; assumption).
  assert (Hr2 : c * s2 <> 0) by (apply Rmult_integral_contrapositive_currified; assumption).
  split; [|apply ellipse_point_touches; assumption].
  intros t.
  pose proof (ellipse_point_bounds (c * s1) (c * s2) (phi_rad p) t) as [Hx Hy].
  destruct (ellipse_point (c * s1) (c * s2) (phi_rad p) t) as [x y].
  cbn [fst snd] in Hx, Hy.
  apply Rabs_le_between in Hx. apply Rabs_le_between in Hy.
  split; assumption.
Qed.

Lemma ellipse_bbox_encloses_witness :
  1 <> 0 /\ 2 <> 0 /\ 6 <> 0 /\
  (~ near_vertical (phi_rad 0) \/ cos (phi_rad 0) = 0) /\
  exists W H,
    _compute_ellipse_bbox (Fin 0) (Fin 1) (Fin 2) (Fin 6)
    = (Fin (- H), Fin (- W), Fin H, Fin W) /\
    (forall t, let (x, y) := ellipse_point (6 * 1) (6 * 2) (phi_rad 0) t in
               - W <= x <= W /\ - H <= y <= H) /\
    (exists t, fst (ellipse_point (6 * 1) (6 * 2) (phi_rad 0) t) = W) /\
    (exists t, snd (ellipse_point (6 * 1) (6 * 2) (phi_rad 0) t) = H).
Proof.
  split; [lra|]. split; [lra|]. split; [lra|].
  split; [left; exact not_near_vertical_0|].
  apply (ellipse_bbox_encloses 0 1 2 6); [lra | lra | lra |].
  left. exact not_near_vertical_0.
Defined.

End EllipseEnclosed.

(** ** The polar form of the fitted parameters *)

Section PolarParams.
Local Open Scope R_scope.

(** The angle [atan (b / a)] and the radius [sqrt (a^2 + b^2)]. *)
Lemma atan_polar (a b : R) :
  a <> 0 ->
  let alpha := atan (b / a) in
  let r := R_sqrt.sqrt (a * a + b * b) in
  - (PI / 2) < alpha < PI / 2 /\
  r * cos alpha = Rabs a /\ r * sin alpha = Rabs a * (b / a).
Proof.
  intros Ha alpha r.
  pose proof (atan_bound (b / a)) as [Hlo Hhi]. fold alpha in Hlo, Hhi.
  assert (Hc : 0 < cos alpha) by (apply cos_gt_0; lra).
  pose proof (tan_atan (b / a)) as Ht. fold alpha in Ht. unfold tan in Ht.
  assert (Hs : sin alpha = b / a * cos alpha).
  { rewrite <- Ht. field. lra. }
  pose proof (sin2_cos2 alpha) as Hsc. unfold Rsqr in Hsc.
  assert (Hr : 0 <= r) by apply sqrt_pos.
  assert (Hrr : r * r = a * a + b * b) by (apply sqrt_sqrt; nra).
  assert (Hrc : r * cos alpha = Rabs a).
  { rewrite <- (sqrt_Rsqr_abs a).
    rewrite <- (sqrt_Rsqr (r * cos alpha)) by nra.
    f_equal. unfold Rsqr.
    replace (r * cos alpha * (r * cos alpha)) with (r * r * (cos alpha * cos alpha)) by ring.
    rewrite Hrr.
    assert (Hsa : sin alpha * a = b * cos alpha) by (rewrite Hs; field; exact Ha).
    assert (Hsq : (sin alpha * a) * (sin alpha * a) = (b * cos alpha) * (b * cos alpha))
      by (rewrite Hsa; reflexivity).
    nra. }
  split; [lra|]. split; [exact Hrc|].
  rewrite Hs, <- Hrc. ring.
Qed.

(** [_get_anisotropic_kernel_params] returns the polar coordinates of
    the point [(p[0], p[1])].  For finite [p[0]], [p[1]] that are not
    both zero and a finite [p[2]], the angle (in radians, in
    [(-pi, pi]]) and the radius [sigma1 > 0] give the point back:
    [sigma1 * cos theta = p[0]] and [sigma1 * sin theta = p[1]]; the
    second scale is [sigma1 * p[2]], and [p[3]] is passed on as it is. *)
Theorem get_anisotropic_kernel_params_polar (p0 p1 p2 : R) (p3 : xreal)
  (rest : list xreal) :
  p0 <> 0 \/ p1 <> 0 ->
  exists theta sigma1,
    _get_anisotropic_kernel_params (Fin p0 :: Fin p1 :: Fin p2 :: p3 :: rest)
    = Ok (PySeq [Fin theta; Fin sigma1; Fin (sigma1 * p2); p3]) /\
    0 < sigma1 /\ - PI < theta <= PI /\
    sigma1 * cos theta = p0 /\ sigma1 * sin theta = p1.
Proof.
  intros Hp. pose proof PI_RGT_0 as Hpi.
  set (r := R_sqrt.sqrt (p0 * p0 + p1 * p1)).
  assert (Hr : 0 < r).
  { apply sqrt_lt_R0. destruct Hp; nra. }
  assert (Hsig : xsqrt (Fin p0 * Fin p0 + Fin p1 * Fin p1)%xr = Fin r).
  { cbn [xmul xadd xsqrt]. rewrite Rltb_false by nra. reflexivity. }
  unfold _get_anisotropic_kernel_params. rewrite Hsig. cbn [xmul xarctan2].
  destruct (Rlt_dec 0 p0) as [Hpos | Hnpos].
  - (* right half-plane *)
    rewrite Rltb_true by exact Hpos.
    destruct (atan_polar p0 p1) as (Hb & Hc & Hs); [lra|]. fold r in Hc, Hs.
    rewrite Rabs_pos_eq in Hc, Hs by lra.
    exists (atan (p1 / p0)), r. split; [reflexivity|].
    split; [exact Hr|]. split; [lra|]. split; [exact Hc|].
    rewrite Hs. field. lra.
  - rewrite Rltb_false by lra.
    destruct (Rlt_dec p0 0) as [Hneg | Hnneg].
    + (* left half-plane *)
      rewrite Rltb_true by exact Hneg.
      destruct (atan_polar p0 p1) as (Hb & Hc & Hs); [lra|]. fold r in Hc, Hs.
      rewrite Rabs_left in Hc, Hs by lra.
      destruct (Rlt_dec p1 0) as [H1neg | H1nneg].
      * rewrite Rltb_true by exact H1neg.
        exists (atan (p1 / p0) - PI), r. split; [reflexivity|].
        split; [exact Hr|].
        assert (H0 : 0 < atan (p1 / p0)).
        { rewrite <- atan_0. apply atan_increasing.
          apply Rmult_lt_reg_r with (- p0); [lra|].
          replace (p1 / p0 * - p0) with (- p1) by (field; lra). lra. }
        split; [lra|].
        replace (atan (p1 / p0) - PI) with (atan (p1 / p0) + PI - 2 * PI) by ring.
        unfold Rminus.
        rewrite <- (cos_period _ 1), <- (sin_period _ 1).
        replace (atan (p1 / p0) + PI + - (2 * PI) + 2 * INR 1 * PI)
          with (atan (p1 / p0) + PI) by (cbn [INR]; ring).
        rewrite neg_cos, neg_sin. split; [lra|].
        replace (r * - sin (atan (p1 / p0))) with (- (r * sin (atan (p1 / p0)))) by ring.
        rewrite Hs. field. lra.
      * rewrite Rltb_false by lra.
        exists (atan (p1 / p0) + PI), r. split; [reflexivity|].
        split; [exact Hr|].
        assert (H0 : atan (p1 / p0) <= 0).
        { destruct (Req_dec_T p1 0) as [-> | Hne].
          - unfold Rdiv. rewrite Rmult_0_l, atan_0. lra.
          - left. rewrite <- atan_0. apply atan_increasing.
            apply Rmult_lt_reg_r with (- p0); [lra|].
            replace (p1 / p0 * - p0) with (- p1) by (field; lra). lra. }
        split; [lra|].
        rewrite neg_cos, neg_sin. split; [lra|].
        replace (r * - sin (atan (p1 / p0))) with (- (r * sin (atan (p1 / p0)))) by ring.
        rewrite Hs. field. lra.
    + (* on the vertical axis *)
      assert (Hz : p0 = 0) by lra. subst p0.
      assert (H1 : p1 <> 0) by (destruct Hp; [contradiction | assumption]).
      rewrite Rltb_false by lra.
      assert (Hrabs : r = Rabs p1).
      { unfold r. replace (0 * 0 + p1 * p1) with (Rsqr p1) by (unfold Rsqr; ring).
        apply sqrt_Rsqr_abs. }
      destruct (Rlt_dec 0 p1) as [H1pos | H1npos].
      * rewrite Rltb_true by exact H1pos.
        exists (PI / 2), r. split; [reflexivity|]. split; [exact Hr|].
        split; [lra|]. rewrite cos_PI2, sin_PI2, Hrabs, Rabs_pos_eq by lra.
        split; ring.
      * rewrite Rltb_false, Rltb_true by lra.
        exists (- (PI / 2)), r. split; [reflexivity|]. split; [exact Hr|].
        split; [lra|]. rewrite cos_neg, sin_neg, cos_PI2, sin_PI2, Hrabs, Rabs_left by lra.
        split; ring.
Qed.

Lemma get_anisotropic_kernel_params_polar_witness :
  (1 <> 0 \/ 1 <> 0) /\
  exists theta sigma1,
    _get_anisotropic_kernel_params (Fin 1 :: Fin 1 :: Fin 1 :: Fin 1 :: [])
    = Ok (PySeq [Fin theta; Fin sigma1; Fin (sigma1 * 1); Fin 1]) /\
    0 < sigma1 /\ - PI < theta <= PI /\
    sigma1 * cos theta = 1 /\ sigma1 * sin theta = 1.
Proof.
  split; [left; lra|].
  apply (get_anisotropic_kernel_params_polar 1 1 1 (Fin 1) []). left. lra.
Defined.

End PolarParams.

(** ** The autoregressive fits: what the optimisers are asked *)

Section ArFits.
Local Open Scope R_scope.

Lemma xpow_two (r : R) : (Fin r ** Fin 2)%xr = Fin (r * r).
Proof.
  destruct (Req_dec_T r 0) as [-> | Hr]; [|apply xpow_square; exact Hr].
  unfold xpow, Rpow_real.
  rewrite (Reqb_false 2 0), (Rltb_false 0 0), (Reqb_true 0 0), (Rltb_true 0 2)
    by lra.
  f_equal. ring.
Qed.

Lemma zip_with_map_same {T A B C} (f : A -> B -> C) (g : T -> A) (h : T -> B)
  (l : list T) :
  zip_with f (map g l) (map h l) = map (fun t => f (g t) (h t)) l.
Proof. induction l as [|t l IH]; [reflexivity|]. cbn. rewrite IH. reflexivity. Qed.

Lemma fold_Rplus_factor {T} (k : R) (g : T -> R) (l : list T) (a : R) :
  fold_left Rplus (map (fun t => k * g t) l) (k * a)
  = k * fold_left Rplus (map g l) a.
Proof.
  revert a. induction l as [|t l IH]; intros a; [reflexivity|].
  cbn [map fold_left]. rewrite <- IH. f_equal. ring.
Qed.

(** A ar1_cell of the grid: whether the target is observed there, its
    weight and the value of the source field. *)
Definition ar1_cell : Type := bool * R * R.

Definition ar1_weight (x : ar1_cell) : xreal := let '(b, w, r) := x in Fin w.
Definition ar1_source (x : ar1_cell) : xreal := let '(b, w, r) := x in Fin r.
(** The target of exact AR(1) data with coefficient [c]; NaN where it
    is not observed. *)
Definition ar1_target (c : R) (x : ar1_cell) : xreal :=
  let '(b, w, r) := x in if (b : bool) then Fin (c * r) else NaN.
(** The weighted energy of the source on the observed cells. *)
Definition source_energy (cells : list ar1_cell) : R :=
  fold_left Rplus
    (map (fun x : ar1_cell => let '(b, w, r) := x in if (b : bool) then w * (r * r) else 0) cells)
    0.

Variable minimize_scalar_bounded :
  (xreal -> result objective_value) -> xreal * xreal -> result xreal.

(** What [_optimize_ar1_params] asks of the optimiser.  The call is a
    bounded scalar minimisation over [[-0.98, 0.98]].  When the target
    is [c] times the most recent source field wherever it is observed
    (NaN elsewhere) and the weights and the source are finite, the
    objective at a finite [p] is [(c - p)^2 * S] in exact arithmetic,
    [S] being the weighted energy of the source on the observed cells:
    cells without a target do not count, the objective is zero at
    [p = c], and when [S > 0] it is positive at every other [p]. *)
Theorem optimize_ar1_params_exact_data (n m : nat) (cells : list ar1_cell) (c : R)
  (older : list (array2 xreal)) :
  length cells = (n * m)%nat ->
  exists objf,
    _optimize_ar1_params minimize_scalar_bounded
      (Array2 n m (map ar1_source cells) :: older)
      (Array2 n m (map (ar1_target c) cells))
      (Array2 n m (map ar1_weight cells))
    = minimize_scalar_bounded objf (Fin (- (98 / 100)), Fin (98 / 100)) /\
    (forall p, objf (Fin p) = Ok (Scalar (Fin ((c - p) * (c - p) * source_energy cells)))) /\
    objf (Fin c) = Ok (Scalar (Fin 0)) /\
    (0 < source_energy cells ->
     forall p, p <> c -> exists v, objf (Fin p) = Ok (Scalar (Fin v)) /\ 0 < v).
Proof.
  intros Hlen.
  set (objf := fun p : xreal =>
                 weighted_sse (Array2 n m (map ar1_weight cells))
                   (Array2 n m (map (ar1_target c) cells))
                   (np_scale p (Array2 n m (map ar1_source cells)))).
  assert (Hform : forall p,
            objf (Fin p) = Ok (Scalar (Fin ((c - p) * (c - p) * source_energy cells)))).
  { intros p. unfold objf, weighted_sse, np_scale.
    rewrite np_map2_same_shape by reflexivity.
    cbn [mbind result_bind nrows ncols data].
    rewrite np_map2_same_shape by reflexivity.
    cbn [mbind result_bind mret result_ret nrows ncols data].
    do 2 f_equal. unfold np_nansum, fsum. cbn [data fadd fzero xreal_ops].
    rewrite (map_map ar1_source), zip_with_map_same, map_map, zip_with_map_same, map_map.
    rewrite (map_ext _ (fun x : ar1_cell =>
               Fin ((c - p) * (c - p) *
                    (let '(b, w, r) := x in if (b : bool) then w * (r * r) else 0)))).
    - rewrite <- (map_map _ Fin), fold_xadd_fin. f_equal.
      unfold source_energy.
      rewrite <- (fold_Rplus_factor ((c - p) * (c - p))). f_equal. ring.
    - intros [[b w] r]. unfold ar1_weight, ar1_target, ar1_source.
      destruct b.
      + cbn [xmul xsub xneg xadd]. rewrite xpow_two. cbn [xmul xisnan].
        f_equal. ring.
      + cbn. rewrite Reqb_false by lra. cbn. f_equal. ring. }
  exists objf. split; [reflexivity|]. split; [exact Hform|]. split.
  - rewrite Hform. do 3 f_equal. ring.
  - intros HS p Hp. eexists. split; [apply Hform|].
    assert (0 < (c - p) * (c - p)) by nra. nra.
Qed.

Variable minimize_trust_constr :
  (list xreal -> result objective_value) -> list xreal ->
  list (xreal * xreal) ->
  list (list xreal) * list xreal * list xreal * bool ->
  result (list xreal).

(** The order of the extended reals; nothing compares with NaN. *)
Definition xle (x y : xreal) : Prop :=
  match x, y with
  | NaN, _ | _, NaN => False
  | NInf, _ | _, PInf => True
  | Fin a, Fin b => a <= b
  | _, _ => False
  end.

(** The points that satisfy the bounds [(lo, hi)] on each coordinate and
    the linear constraint [lb <= A x <= ub] of
    [LinearConstraint(A, lb, ub)]. *)
Definition feasible (bounds : list (xreal * xreal))
  (constraints : list (list xreal) * list xreal * list xreal * bool)
  (x : list xreal) : Prop :=
  let '(A, lb, ub, _) := constraints in
  Forall2 (fun (b : xreal * xreal) xi => xle (fst b) xi /\ xle xi (snd b)) bounds x /\
  Forall2 (fun row (lu : xreal * xreal) =>
             xle (fst lu) (fsum (zip_with xmul row x)) /\
             xle (fsum (zip_with xmul row x)) (snd lu))
    A (zip lb ub).

(** What [_optimize_ar2_params] asks of the optimiser, whatever the
    fields: a minimisation from the starting point [(0.8, 0.0)], which
    satisfies the bounds and the linear constraint passed with it, and
    every point [(p0, p1)] that satisfies them is a pair of finite
    numbers in the stationarity triangle of the AR(2) model,
    [p0 + p1 < 1], [p1 - p0 < 1], [-1 < p1 < 1]. *)
Theorem optimize_ar2_params_feasible_set (field_src : list (array2 xreal))
  (field_dst weights : array2 xreal) :
  exists objf bounds constraints,
    _optimize_ar2_params minimize_trust_constr field_src field_dst weights
    = minimize_trust_constr objf [Fin (8 / 10); Fin 0] bounds constraints /\
    feasible bounds constraints [Fin (8 / 10); Fin 0] /\
    forall x, feasible bounds constraints x ->
      exists p0 p1, x = [Fin p0; Fin p1] /\
        p0 + p1 < 1 /\ p1 - p0 < 1 /\ -1 < p1 < 1.
Proof.
  do 3 eexists. split; [reflexivity|]. split.
  - unfold feasible. split.
    + repeat constructor; cbn; lra.
    + repeat constructor; cbn; lra.
  - intros x [Hb Hc].
    inversion Hb as [|b0 x0 bs xs [Hlo0 Hhi0] Hb' E1 E2]; subst.
    inversion Hb' as [|b1 x1 bs' xs' [Hlo1 Hhi1] Hb'' E1 E2]; subst.
    inversion Hb''; subst.
    cbn [fst snd] in Hlo0, Hhi0, Hlo1, Hhi1.
    destruct x0 as [p0| | |]; try contradiction.
    destruct x1 as [p1| | |]; try contradiction.
    cbn [xle] in Hlo0, Hhi0, Hlo1, Hhi1.
    cbn [zip zip_with] in Hc.
    inversion Hc as [|r0 lu0 rs lus [_ Hu0] Hc' E1 E2]; subst.
    inversion Hc' as [|r1 lu1 rs' lus' [_ Hu1] Hc'' E1 E2]; subst.
    cbn in Hu0, Hu1.
    exists p0, p1. split; [reflexivity|]. lra.
Qed.

(** A ar1_cell of the grid for the AR(2) fit: whether the target is
    observed, the weight, and the source fields at lag 1 and lag 2. *)
Definition ar2_cell : Type := bool * R * R * R.

Definition ar2_weight (x : ar2_cell) : xreal := let '(b, w, s1, s2) := x in Fin w.
Definition ar2_lag1 (x : ar2_cell) : xreal := let '(b, w, s1, s2) := x in Fin s1.
Definition ar2_lag2 (x : ar2_cell) : xreal := let '(b, w, s1, s2) := x in Fin s2.
Definition ar2_target (a1 a2 : R) (x : ar2_cell) : xreal :=
  let '(b, w, s1, s2) := x in if (b : bool) then Fin (a1 * s1 + a2 * s2) else NaN.
Definition ar2_misfit (d1 d2 : R) (cells : list ar2_cell) : R :=
  fold_left Rplus
    (map (fun x : ar2_cell =>
            let '(b, w, s1, s2) := x in
            if (b : bool) then w * ((d1 * s1 + d2 * s2) * (d1 * s1 + d2 * s2)) else 0)
       cells) 0.

Lemma fold_Rplus_nonneg (rs : list R) (a : R) :
  Forall (fun r => 0 <= r) rs -> 0 <= a -> 0 <= fold_left Rplus rs a.
Proof.
  intros Hrs. revert a. induction Hrs as [|r rs Hr _ IH]; intros a Ha; [exact Ha|].
  cbn [fold_left]. apply IH. lra.
Qed.

(** The objective of the AR(2) fit on exact data.  [field_src[1]] is
    the field at lag 1 and [field_src[0]] the field at lag 2.  When the
    target is [a1 * lag1 + a2 * lag2] wherever it is observed (NaN
    elsewhere) and the weights are finite and non-negative, the
    objective at a finite [(p0, p1)] is, in exact arithmetic, the
    weighted sum over the observed cells of
    [((a1 - p0) * lag1 + (a2 - p1) * lag2)^2]: it is never negative,
    and it is zero at [(p0, p1) = (a1, a2)]. *)
Theorem optimize_ar2_params_exact_data (n m : nat) (cells : list ar2_cell) (a1 a2 : R) :
  length cells = (n * m)%nat ->
  Forall (fun x : ar2_cell => let '(b, w, s1, s2) := x in 0 <= w) cells ->
  exists objf x0 bounds constraints,
    _optimize_ar2_params minimize_trust_constr
      [Array2 n m (map ar2_lag2 cells); Array2 n m (map ar2_lag1 cells)]
      (Array2 n m (map (ar2_target a1 a2) cells))
      (Array2 n m (map ar2_weight cells))
    = minimize_trust_constr objf x0 bounds constraints /\
    (forall p0 p1,
       objf [Fin p0; Fin p1] = Ok (Scalar (Fin (ar2_misfit (a1 - p0) (a2 - p1) cells))) /\
       0 <= ar2_misfit (a1 - p0) (a2 - p1) cells) /\
    objf [Fin a1; Fin a2] = Ok (Scalar (Fin 0)).
Proof.
  intros Hlen Hw.
  set (objf := fun p : list xreal =>
         match p, nth_error [Array2 n m (map ar2_lag2 cells);
                             Array2 n m (map ar2_lag1 cells)] 1,
               nth_error [Array2 n m (map ar2_lag2 cells);
                          Array2 n m (map ar2_lag1 cells)] 0 with
         | p0 :: p1 :: _, Some src1, Some src0 =>
             field_ar ← np_map2 xadd (np_scale p0 src1) (np_scale p1 src0);
             weighted_sse (Array2 n m (map ar2_weight cells))
               (Array2 n m (map (ar2_target a1 a2) cells)) field_ar
         | _, _, _ => Raise IndexError
         end).
  assert (Hform : forall p0 p1,
            objf [Fin p0; Fin p1]
            = Ok (Scalar (Fin (ar2_misfit (a1 - p0) (a2 - p1) cells)))).
  { intros p0 p1. unfold objf. cbn [nth_error].
    unfold weighted_sse, np_scale.
    rewrite np_map2_same_shape by reflexivity.
    cbn [mbind result_bind nrows ncols data].
    rewrite np_map2_same_shape by reflexivity.
    cbn [mbind result_bind nrows ncols data].
    rewrite np_map2_same_shape by reflexivity.
    cbn [mbind result_bind mret result_ret nrows ncols data].
    do 2 f_equal. unfold np_nansum, fsum. cbn [data fadd fzero xreal_ops].
    rewrite (map_map ar2_lag1), (map_map ar2_lag2).
    rewrite !zip_with_map_same, map_map, zip_with_map_same, map_map.
    unfold ar2_misfit.
    rewrite <- fold_xadd_fin, map_map. f_equal. apply map_ext.
    intros [[[b w] s1] s2].
    unfold ar2_weight, ar2_target, ar2_lag1, ar2_lag2.
    destruct b.
    - cbn [xmul xsub xneg xadd]. rewrite xpow_two. cbn [xmul xisnan].
      f_equal. ring.
    - cbn. rewrite Reqb_false by lra. cbn. reflexivity. }
  exists objf. do 3 eexists. split; [reflexivity|]. split.
  - intros p0 p1. split; [apply Hform|].
    unfold ar2_misfit. apply fold_Rplus_nonneg; [|lra].
    apply Forall_map_1 with (P := fun x : ar2_cell => let '(b, w, s1, s2) := x in 0 <= w);
      [|exact Hw].
    intros [[[b w] s1] s2] Hx. destruct b; [|lra].
    apply Rmult_le_pos; [exact Hx|]. apply Rle_0_sqr.
  - rewrite Hform. do 3 f_equal. unfold ar2_misfit.
    rewrite (map_ext _ (fun _ => 0)).
    + clear. induction cells as [|x l IH]; [reflexivity|].
      cbn [map fold_left]. rewrite Rplus_0_r. exact IH.
    + intros [[[b w] s1] s2]. destruct b; [ring | reflexivity].
Qed.

End ArFits.

(** An observed and an unobserved cell, and optimisers that answer
    without looking at the objective. *)
Section ArFitsExamples.
Local Open Scope R_scope.

Definition ar1_example : list ar1_cell := [(true, 1, 2); (false, 1, 3)].
Definition ar2_example : list ar2_cell := [(true, 1, 2, 1); (false, 1, 3, 1)].

Definition answer_half (objf : xreal -> result objective_value)
  (bounds : xreal * xreal) : result xreal := Ok (Fin (1 / 2)).

Definition answer_start (objf : list xreal -> result objective_value)
  (x0 : list xreal) (bounds : list (xreal * xreal))
  (constraints : list (list xreal) * list xreal * list xreal * bool)
  : result (list xreal) := Ok x0.

Lemma optimize_ar1_params_exact_data_witness :
  length ar1_example = (1 * 2)%nat /\
  exists objf,
    _optimize_ar1_params answer_half
      (Array2 1 2 (map ar1_source ar1_example) :: [])
      (Array2 1 2 (map (ar1_target (1 / 2)) ar1_example))
      (Array2 1 2 (map ar1_weight ar1_example))
    = answer_half objf (Fin (- (98 / 100)), Fin (98 / 100)) /\
    (forall p, objf (Fin p)
               = Ok (Scalar (Fin ((1 / 2 - p) * (1 / 2 - p) * source_energy ar1_example)))) /\
    objf (Fin (1 / 2)) = Ok (Scalar (Fin 0)) /\
    (0 < source_energy ar1_example ->
     forall p, p <> 1 / 2 -> exists v, objf (Fin p) = Ok (Scalar (Fin v)) /\ 0 < v).
Proof.
  split; [reflexivity|].
  apply (optimize_ar1_params_exact_data answer_half 1 2
           ar1_example (1 / 2) []).
  reflexivity.
Defined.

Lemma optimize_ar2_params_exact_data_witness :
  length ar2_example = (1 * 2)%nat /\
  Forall (fun x : ar2_cell => let '(b, w, s1, s2) := x in 0 <= w) ar2_example /\
  exists objf x0 bounds constraints,
    _optimize_ar2_params answer_start
      [Array2 1 2 (map ar2_lag2 ar2_example); Array2 1 2 (map ar2_lag1 ar2_example)]
      (Array2 1 2 (map (ar2_target (1 / 2) (1 / 4)) ar2_example))
      (Array2 1 2 (map ar2_weight ar2_example))
    = answer_start objf x0 bounds constraints /\
    (forall p0 p1,
       objf [Fin p0; Fin p1]
       = Ok (Scalar (Fin (ar2_misfit (1 / 2 - p0) (1 / 4 - p1) ar2_example))) /\
       0 <= ar2_misfit (1 / 2 - p0) (1 / 4 - p1) ar2_example) /\
    objf [Fin (1 / 2); Fin (1 / 4)] = Ok (Scalar (Fin 0)).
Proof.
  assert (Hw : Forall (fun x : ar2_cell => let '(b, w, s1, s2) := x in 0 <= w) ar2_example).
  { constructor; [lra|]. constructor; [lra|]. constructor. }
  split; [reflexivity|]. split; [exact Hw|].
  apply (optimize_ar2_params_exact_data answer_start 1 2 ar2_example
           (1 / 2) (1 / 4)); [reflexivity | exact Hw].
Defined.

End ArFitsExamples.

(** ** The kernel fit: its mask, its objective and its result *)

Section ConvolFit.
Local Open Scope R_scope.

Variable minimize_scalar_bounded :
  (xreal -> result objective_value) -> xreal * xreal -> result xreal.
Variable minimize_lbfgsb :
  (list xreal -> result objective_value) -> list xreal ->
  list (xreal * xreal) -> result (list xreal).
Variable least_squares_trf :
  (list xreal -> result objective_value) -> list xreal ->
  list xreal * list xreal -> result (list xreal).

(** The fitter for the anisotropic family, in terms of the two. *)
Lemma optimize_convol_params_anisotropic_unfold
  (field_src field_dst weights : array2 xreal) (mask : array2 bool)
  (cutoff : xreal) (method : method) :
  _optimize_convol_params minimize_scalar_bounded minimize_lbfgsb least_squares_trf
    field_src field_dst weights mask anisotropic cutoff method
  = (mask' ← convol_mask mask weights;
     x ← match method with
         | lbfgsb =>
             minimize_lbfgsb
               (fun p => convol_objf field_src field_dst weights mask' anisotropic
                           cutoff method (PySeq p))
               [Fin 1; Fin 1; Fin 1; Fin 1]
               [(Fin (-10), Fin 10); (Fin (-10), Fin 10);
                (Fin (1 / 4), Fin 4); (Fin (1 / 10), Fin 5)]
         | trf =>
             least_squares_trf
               (fun p => convol_objf field_src field_dst weights mask' anisotropic
                           cutoff method (PySeq p))
               [Fin 1; Fin 1; Fin 1; Fin 1]
               ([Fin (-10); Fin (-10); Fin (1 / 4); Fin (1 / 10)],
                [Fin 10; Fin 10; Fin 4; Fin 5])
         | other_method => Raise (UnboundLocalError "p_opt")
         end;
     q ← _get_anisotropic_kernel_params x;
     _compute_kernel_anisotropic q cutoff).
Proof.
  unfold _optimize_convol_params, convol_mask.
  destruct (np_map2 _ mask weights) as [mask'|e]; [|reflexivity].
  cbn [mbind result_bind]. unfold convol_objf.
  destruct method; try reflexivity.
  - match goal with |- context [minimize_lbfgsb ?f ?a ?b] =>
      destruct (minimize_lbfgsb f a b) end; reflexivity.
  - match goal with |- context [least_squares_trf ?f ?a ?b] =>
      destruct (least_squares_trf f a b) end; reflexivity.
Qed.

Lemma xarctan2_fin (b a : R) : exists theta, xarctan2 (Fin b) (Fin a) = Fin theta.
Proof.
  unfold xarctan2.
  destruct (Rltb 0 a), (Rltb a 0), (Rltb b 0), (Rltb 0 b); eexists; reflexivity.
Qed.

(** The kernel of a fitted parameter vector. *)
Lemma fitted_kernel_normalised (x0 x1 x2 x3 c : R) (rest : list xreal) :
  x0 <> 0 \/ x1 <> 0 -> x2 <> 0 -> 0 <= x3 -> 0 < c ->
  exists K,
    (q ← _get_anisotropic_kernel_params (Fin x0 :: Fin x1 :: Fin x2 :: Fin x3 :: rest);
     _compute_kernel_anisotropic q (Fin c)) = Ok K /\
    wf K /\ Nat.odd (nrows K) = true /\ Nat.odd (ncols K) = true /\
    fsum (data K) = Fin 1.
Proof.
  intros H01 H2 H3 Hc.
  assert (Hr : 0 < R_sqrt.sqrt (x0 * x0 + x1 * x1)).
  { apply sqrt_lt_R0. destruct H01; nra. }
  unfold _get_anisotropic_kernel_params.
  destruct (xarctan2_fin x1 x0) as (theta & ->).
  cbn [xmul xadd xsqrt]. rewrite Rltb_false by nra.
  cbn [xmul mbind result_bind mret result_ret].
  apply anisotropic_kernel_normalised; try assumption; [lra|].
  apply Rmult_integral_contrapositive_currified; [lra | exact H2].
Qed.

(** The anisotropic fit returns a kernel.  When the optimiser of the
    chosen method returns a vector of four finite numbers whose first
    two are not both zero, whose third is not zero and whose fourth is
    not negative (the bounds the fitter passes ask for more), and the
    cutoff is positive, [_optimize_convol_params] returns the
    anisotropic kernel of the polar form of that vector: its
    dimensions are odd and, in exact arithmetic, its entries sum to
    one.  With a method that is neither ["lbfgsb"] nor ["trf"] no
    optimiser is called and the function fails on the unbound name
    [p_opt]. *)
Theorem optimize_convol_params_anisotropic_fit
  (field_src field_dst weights : array2 xreal) (mask mask' : array2 bool)
  (c x0 x1 x2 x3 : R) (rest : list xreal) :
  convol_mask mask weights = Ok mask' ->
  0 < c -> x0 <> 0 \/ x1 <> 0 -> x2 <> 0 -> 0 <= x3 ->
  (least_squares_trf
     (fun p => convol_objf field_src field_dst weights mask' anisotropic (Fin c) trf
                 (PySeq p))
     [Fin 1; Fin 1; Fin 1; Fin 1]
     ([Fin (-10); Fin (-10); Fin (1 / 4); Fin (1 / 10)], [Fin 10; Fin 10; Fin 4; Fin 5])
   = Ok (Fin x0 :: Fin x1 :: Fin x2 :: Fin x3 :: rest) ->
   exists K,
     _optimize_convol_params minimize_scalar_bounded minimize_lbfgsb least_squares_trf
       field_src field_dst weights mask anisotropic (Fin c) trf = Ok K /\
     wf K /\ Nat.odd (nrows K) = true /\ Nat.odd (ncols K) = true /\
     fsum (data K) = Fin 1) /\
  (minimize_lbfgsb
     (fun p => convol_objf field_src field_dst weights mask' anisotropic (Fin c) lbfgsb
                 (PySeq p))
     [Fin 1; Fin 1; Fin 1; Fin 1]
     [(Fin (-10), Fin 10); (Fin (-10), Fin 10); (Fin (1 / 4), Fin 4); (Fin (1 / 10), Fin 5)]
   = Ok (Fin x0 :: Fin x1 :: Fin x2 :: Fin x3 :: rest) ->
   exists K,
     _optimize_convol_params minimize_scalar_bounded minimize_lbfgsb least_squares_trf
       field_src field_dst weights mask anisotropic (Fin c) lbfgsb = Ok K /\
     wf K /\ Nat.odd (nrows K) = true /\ Nat.odd (ncols K) = true /\
     fsum (data K) = Fin 1) /\
  _optimize_convol_params minimize_scalar_bounded minimize_lbfgsb least_squares_trf
    field_src field_dst weights mask anisotropic (Fin c) other_method
  = Raise (UnboundLocalError "p_opt").
Proof.
  intros Hmask Hc H01 H2 H3.
  rewrite !optimize_convol_params_anisotropic_unfold, Hmask.
  cbn [mbind result_bind].
  split; [|split; [|reflexivity]]; intros ->; cbn [result_bind];
    apply fitted_kernel_normalised; assumption.
Qed.

Lemma selected_weights_positive (m : list bool) (ws : list xreal) :
  Forall fin ws ->
  Forall pos_fin
    (gather (zip_with (fun (b : bool) w => b && xgtb w (Fin (1 / 1000))) m ws) ws).
Proof.
  intros Hws. revert m. induction Hws as [|w ws [r ->] _ IH]; intros m.
  - destruct m; constructor.
  - destruct m as [|b m]; [constructor|]. cbn [zip_with gather].
    destruct b; cbn [andb]; [|apply IH].
    cbn [xgtb]. unfold Rltb at 1.
    destruct (Rlt_dec (1 / 1000) r) as [Hr|_]; [|apply IH].
    constructor; [|apply IH]. exists r. split; [reflexivity | lra].
Qed.

Lemma sqrt_weight_square (w : R) (r : xreal) :
  0 < w -> ((xsqrt (Fin w) * r) ** Fin 2)%xr = (Fin w * r ** Fin 2)%xr.
Proof.
  intros Hw. cbn [xsqrt]. rewrite Rltb_false by lra.
  assert (Hs : 0 < R_sqrt.sqrt w) by (apply sqrt_lt_R0; exact Hw).
  destruct r as [a| | |].
  - cbn [xmul]. rewrite !xpow_two. cbn [xmul]. f_equal.
    replace (R_sqrt.sqrt w * a * (R_sqrt.sqrt w * a))
      with (R_sqrt.sqrt w * R_sqrt.sqrt w * (a * a)) by ring.
    rewrite sqrt_sqrt by lra. reflexivity.
  - cbn [xmul]. rewrite inf_of_sign_pos by exact Hs.
    unfold xpow. rewrite (Reqb_false 2 0), (Rltb_true 0 2) by lra.
    cbn [xmul]. rewrite inf_of_sign_pos by exact Hw. reflexivity.
  - cbn [xmul]. rewrite inf_of_sign_neg by lra.
    unfold xpow. rewrite (Reqb_false 2 0), (Rltb_true 0 2), Int_part_2 by lra.
    rewrite andb_false_r. cbn [xmul]. rewrite inf_of_sign_pos by exact Hw. reflexivity.
  - cbn [xmul]. unfold xpow. rewrite (Reqb_false 2 0) by lra. reflexivity.
Qed.

Lemma residuals_square (w rr : list xreal) :
  Forall pos_fin w ->
  map (fun r => (r ** Fin 2)%xr) (zip_with (fun wi r => (xsqrt wi * r)%xr) w rr)
  = zip_with (fun wi r => (wi * r ** Fin 2)%xr) w rr.
Proof.
  intros Hw. revert rr. induction Hw as [|wi w (a & -> & Ha) _ IH]; intros rr.
  - reflexivity.
  - destruct rr as [|r rr]; [reflexivity|]. cbn [zip_with map].
    rewrite IH, sqrt_weight_square by exact Ha. reflexivity.
Qed.

(** The two methods fit the same cost.  For the anisotropic family the
    objective returns a residual vector for ["trf"] and a scalar for
    every other method.  With finite weights, whenever one of the two
    returns so does the other, and the scalar is the sum of the squares
    of the residuals (what a least-squares solver minimises, up to the
    factor 1/2); when one raises, the other raises the same exception.
    The refined mask keeps only cells whose weight exceeds 1e-3, so the
    square roots are taken of positive numbers. *)
Theorem convol_objective_consistent
  (field_src field_dst weights : array2 xreal) (mask mask' : array2 bool)
  (cutoff : xreal) (p : pyparams) :
  convol_mask mask weights = Ok mask' ->
  Forall fin (data weights) ->
  match convol_objf field_src field_dst weights mask' anisotropic cutoff trf p,
        convol_objf field_src field_dst weights mask' anisotropic cutoff lbfgsb p with
  | Ok (Residuals rs), Ok (Scalar v) => v = fsum (map (fun r => (r ** Fin 2)%xr) rs)
  | Raise e, Raise e' => e = e'
  | _, _ => False
  end.
Proof.
  intros Hmask Hfin. unfold convol_mask, np_map2 in Hmask.
  destruct (broadcast_axis (nrows mask) (nrows weights)) as [r|]; [|discriminate].
  destruct (broadcast_axis (ncols mask) (ncols weights)) as [c|]; [|discriminate].
  injection Hmask as <-.
  unfold convol_objf.
  destruct p as [s|l]; [reflexivity|].
  destruct (_get_anisotropic_kernel_params l) as [q|e];
    cbn [mbind result_bind]; [|reflexivity].
  destruct (_compute_kernel_anisotropic q cutoff) as [k|e];
    cbn [mbind result_bind]; [|reflexivity].
  destruct (_masked_convolution field_src k) as [fc|e];
    cbn [mbind result_bind]; [|reflexivity].
  unfold select, getitem_mask.
  destruct (same_shape weights _) eqn:Hs; cbn [mbind result_bind]; [|reflexivity].
  destruct (same_shape field_dst _); cbn [mbind result_bind]; [|reflexivity].
  destruct (same_shape fc _); cbn [mbind result_bind mret result_ret]; [|reflexivity].
  (* the weights have the shape of the refined mask: they were not broadcast *)
  unfold same_shape in Hs. cbn [nrows ncols] in Hs.
  apply andb_true_iff in Hs. destruct Hs as [Hr Hc].
  assert (Hbw : np_broadcast_to weights r c = data weights)
    by (unfold np_broadcast_to; rewrite Hr, Hc; reflexivity).
  cbn [data]. rewrite !Hbw.
  rewrite residuals_square; [reflexivity|].
  apply selected_weights_positive. exact Hfin.
Qed.

End ConvolFit.

(** A one-cell field, and optimisers that return their starting point. *)
Section ConvolFitExamples.
Local Open Scope R_scope.

Definition one_cell : array2 xreal := Array2 1 1 [Fin 1].
Definition one_cell_mask : array2 bool := Array2 1 1 [true].
Definition one_cell_refined : array2 bool :=
  Array2 1 1 [true && xgtb (Fin 1) (Fin (1 / 1000))].

Definition lbfgsb_start (objf : list xreal -> result objective_value)
  (x0 : list xreal) (bounds : list (xreal * xreal)) : result (list xreal) := Ok x0.
Definition trf_start (objf : list xreal -> result objective_value)
  (x0 : list xreal) (bounds : list xreal * list xreal) : result (list xreal) := Ok x0.

Lemma optimize_convol_params_anisotropic_fit_witness :
  convol_mask one_cell_mask one_cell = Ok one_cell_refined /\
  0 < 6 /\ (1 <> 0 \/ 1 <> 0) /\ 1 <> 0 /\ 0 <= 1 /\
  (trf_start
     (fun p => convol_objf one_cell one_cell one_cell one_cell_refined anisotropic (Fin 6)
                 trf (PySeq p))
     [Fin 1; Fin 1; Fin 1; Fin 1]
     ([Fin (-10); Fin (-10); Fin (1 / 4); Fin (1 / 10)], [Fin 10; Fin 10; Fin 4; Fin 5])
   = Ok (Fin 1 :: Fin 1 :: Fin 1 :: Fin 1 :: []) ->
   exists K,
     _optimize_convol_params answer_half lbfgsb_start trf_start
       one_cell one_cell one_cell one_cell_mask anisotropic (Fin 6) trf = Ok K /\
     wf K /\ Nat.odd (nrows K) = true /\ Nat.odd (ncols K) = true /\
     fsum (data K) = Fin 1) /\
  (lbfgsb_start
     (fun p => convol_objf one_cell one_cell one_cell one_cell_refined anisotropic (Fin 6)
                 lbfgsb (PySeq p))
     [Fin 1; Fin 1; Fin 1; Fin 1]
     [(Fin (-10), Fin 10); (Fin (-10), Fin 10); (Fin (1 / 4), Fin 4); (Fin (1 / 10), Fin 5)]
   = Ok (Fin 1 :: Fin 1 :: Fin 1 :: Fin 1 :: []) ->
   exists K,
     _optimize_convol_params answer_half lbfgsb_start trf_start
       one_cell one_cell one_cell one_cell_mask anisotropic (Fin 6) lbfgsb = Ok K /\
     wf K /\ Nat.odd (nrows K) = true /\ Nat.odd (ncols K) = true /\
     fsum (data K) = Fin 1) /\
  _optimize_convol_params answer_half lbfgsb_start trf_start
    one_cell one_cell one_cell one_cell_mask anisotropic (Fin 6) other_method
  = Raise (UnboundLocalError "p_opt").
Proof.
  split; [reflexivity|]. split; [lra|]. split; [left; lra|]. split; [lra|]. split; [lra|].
  apply (optimize_convol_params_anisotropic_fit answer_half lbfgsb_start trf_start
           one_cell one_cell one_cell one_cell_mask one_cell_refined 6 1 1 1 1 []);
    [reflexivity | lra | left; lra | lra | lra].
Defined.

Lemma one_cell_fin : Forall fin (data one_cell).
Proof. constructor; [eexists; reflexivity | constructor]. Qed.

Lemma convol_objective_consistent_witness :
  convol_mask one_cell_mask one_cell = Ok one_cell_refined /\
  Forall fin (data one_cell) /\
  match convol_objf one_cell one_cell one_cell one_cell_refined anisotropic (Fin 6) trf
          (PySeq [Fin 1; Fin 1; Fin 1; Fin 1]),
        convol_objf one_cell one_cell one_cell one_cell_refined anisotropic (Fin 6) lbfgsb
          (PySeq [Fin 1; Fin 1; Fin 1; Fin 1]) with
  | Ok (Residuals rs), Ok (Scalar v) => v = fsum (map (fun r => (r ** Fin 2)%xr) rs)
  | Raise e, Raise e' => e = e'
  | _, _ => False
  end.
Proof.
  split; [reflexivity|]. split; [exact one_cell_fin|].
  apply (convol_objective_consistent one_cell one_cell one_cell one_cell_mask
           one_cell_refined (Fin 6) (PySeq [Fin 1; Fin 1; Fin 1; Fin 1]));
    [reflexivity | exact one_cell_fin].
Defined.

End ConvolFitExamples.

(** ** The kernels: support and entries *)

Section KernelSupport.
Local Open Scope R_scope.

(** An entry of a kernel: a positive number, at most one. *)
Definition unit_fraction (v : xreal) : Prop := exists r, v = Fin r /\ 0 < r <= 1.

Lemma fold_Rplus_ge_init (rs : list R) (a : R) :
  Forall (fun r => 0 < r) rs -> a <= fold_left Rplus rs a.
Proof.
  intros Hrs. revert a. induction Hrs as [|x rs Hx _ IH]; intros a; cbn [fold_left]; [lra|].
  specialize (IH (a + x)). lra.
Qed.

Lemma fold_Rplus_ge_member (rs : list R) (a r : R) :
  Forall (fun r => 0 < r) rs -> In r rs -> a + r <= fold_left Rplus rs a.
Proof.
  intros Hrs. revert a. induction Hrs as [|r' rs Hr' Hrs IH]; intros a Hin; [destruct Hin|].
  cbn [fold_left]. destruct Hin as [-> | Hin].
  - apply fold_Rplus_ge_init. exact Hrs.
  - specialize (IH (a + r') Hin). lra.
Qed.

Lemma normalise_entries (l : list xreal) :
  Forall pos_fin l -> Forall unit_fraction (normalise l).
Proof.
  intros Hl. destruct (pos_fin_reals l Hl) as (rs & -> & Hrs).
  unfold normalise, fsum. cbn [fadd fzero xreal_ops].
  rewrite fold_xadd_fin, map_map.
  apply List.Forall_forall. intros v Hv. apply in_map_iff in Hv.
  destruct Hv as (r & <- & Hr).
  pose proof (fold_Rplus_ge_member rs 0 r Hrs Hr) as HS.
  pose proof (proj1 (List.Forall_forall _ _) Hrs r Hr) as Hr0.
  set (S := fold_left Rplus rs 0) in *.
  rewrite xdiv_fin by lra. exists (r / S). split; [reflexivity|].
  split.
  - apply Rdiv_lt_0_compat; lra.
  - apply Rmult_le_reg_r with S; [lra|].
    replace (r / S * S) with r by (field; lra). lra.
Qed.

Lemma anisotropic_kernel_support (p s1 s2 e c : R) (rest : list xreal) :
  s1 <> 0 -> s2 <> 0 -> 0 <= e -> 0 < c ->
  exists K W H,
    _compute_ellipse_bbox (Fin p) (Fin (Rabs s1)) (Fin (Rabs s2)) (Fin c)
    = (Fin (- H), Fin (- W), Fin H, Fin W) /\
    0 <= W /\ 0 <= H /\
    _compute_kernel_anisotropic
      (PySeq (Fin p :: Fin s1 :: Fin s2 :: Fin e :: rest)) (Fin c) = Ok K /\
    wf K /\
    nrows K = (2 * Z.to_nat (Int_part H) + 1)%nat /\
    ncols K = (2 * Z.to_nat (Int_part W) + 1)%nat /\
    Forall unit_fraction (data K).
Proof.
  intros H1 H2 He Hc.
  unfold _compute_kernel_anisotropic. cbn [firstn xabs nth_error].
  destruct (ellipse_bbox_shape p (Rabs s1) (Rabs s2) c) as (W & H & HW & HH & Hbb);
    [apply Rabs_no_R0; exact H1 | apply Rabs_no_R0; exact H2 | lra |].
  rewrite Hbb, phi_r_fin.
  rewrite !odd_axis_symmetric by (assumption || reflexivity).
  cbn [mbind result_bind mret result_ret].
  pose proof (Int_part_nonneg W HW) as HnW. pose proof (Int_part_nonneg H HH) as HnH.
  set (x := axis (Int_part W)). set (y := axis (Int_part H)).
  assert (Hlx : length x = (2 * Z.to_nat (Int_part W) + 1)%nat) by (apply axis_length; exact HnW).
  assert (Hly : length y = (2 * Z.to_nat (Int_part H) + 1)%nat) by (apply axis_length; exact HnH).
  pose proof (meshgrid_X_fin fin x y (axis_fin _)) as HX.
  pose proof (meshgrid_Y_fin fin x y (axis_fin _)) as HY.
  cbn [meshgrid fst snd data nrows ncols xsin xcos xneg] in HX, HY |- *.
  set (Xd := concat (map (fun _ => x) y)) in *.
  set (Yd := concat (map (fun yi => repeat yi (length x)) y)) in *.
  assert (HlX : length Xd = (length y * length x)%nat) by apply concat_const_length.
  assert (HlY : length Yd = (length y * length x)%nat) by apply concat_repeat_length.
  eexists. exists W, H. split; [reflexivity|]. split; [exact HW|]. split; [exact HH|].
  split; [reflexivity|]. cbn [nrows ncols data].
  match goal with |- context [normalise ?r] => set (result := r) end.
  assert (Hlen : length result = (length y * length x)%nat).
  { unfold result. rewrite length_zip_with, !length_map, !length_zip_with. lia. }
  assert (Hpos : Forall pos_fin result).
  { unfold result.
    apply Forall_zip_with_2 with (P := nonneg_fin) (Q := nonneg_fin).
    - intros u v Hu Hv. apply anisotropic_entry_pos; try assumption;
        apply Rabs_pos_lt; assumption.
    - apply Forall_map_1 with (P := fin); [apply fin_square|].
      apply Forall_zip_with_2 with (P := fin) (Q := fin); try assumption.
      intros u v Hu Hv. apply fin_rotate; assumption.
    - apply Forall_map_1 with (P := fin); [apply fin_square|].
      apply Forall_zip_with_2 with (P := fin) (Q := fin); try assumption.
      intros u v Hu Hv. apply fin_rotate; assumption. }
  split; [unfold wf; cbn [nrows ncols data]; rewrite normalise_length; exact Hlen|].
  split; [exact Hly|]. split; [exact Hlx|].
  apply normalise_entries. exact Hpos.
Qed.

Lemma isotropic_kernel_support (s c : R) (rest : list xreal) :
  0 < s -> 0 < c ->
  exists K,
    _compute_kernel_isotropic (PySeq (Fin s :: rest)) (Fin c) = Ok K /\
    wf K /\
    nrows K = (2 * Z.to_nat (Int_part (s * c)) + 1)%nat /\
    ncols K = (2 * Z.to_nat (Int_part (s * c)) + 1)%nat /\
    Forall unit_fraction (data K).
Proof.
  intros Hs Hc.
  unfold _compute_kernel_isotropic. cbn [xneg xmul].
  assert (Hsc : 0 <= s * c) by nra.
  rewrite !odd_axis_symmetric by (assumption || ring).
  cbn [mbind result_bind mret result_ret].
  pose proof (Int_part_nonneg (s * c) Hsc) as Hn.
  set (x := map (fun u => (u / Fin s)%xr) (axis (Int_part (s * c)))).
  assert (Hlx : length x = (2 * Z.to_nat (Int_part (s * c)) + 1)%nat)
    by (unfold x; rewrite length_map; apply axis_length; exact Hn).
  assert (Hfx : Forall fin x).
  { unfold x. apply Forall_map_1 with (P := fin); [|apply axis_fin].
    intros u Hu. apply fin_div; [lra | exact Hu]. }
  pose proof (meshgrid_X_fin fin x x Hfx) as HX.
  pose proof (meshgrid_Y_fin fin x x Hfx) as HY.
  cbn [meshgrid fst snd data nrows ncols] in HX, HY |- *.
  set (Xd := concat (map (fun _ => x) x)) in *.
  set (Yd := concat (map (fun yi => repeat yi (length x)) x)) in *.
  assert (HlX : length Xd = (length x * length x)%nat) by apply concat_const_length.
  assert (HlY : length Yd = (length x * length x)%nat) by apply concat_repeat_length.
  eexists. split; [reflexivity|]. cbn [nrows ncols data].
  match goal with |- context [normalise ?r] => set (result := r) end.
  assert (Hlen : length result = (length x * length x)%nat).
  { unfold result. rewrite length_map, length_zip_with. lia. }
  assert (Hpos : Forall pos_fin result).
  { unfold result.
    apply Forall_forall. intros v Hv.
    apply list_elem_of_In, in_map_iff in Hv. destruct Hv as (r & <- & Hr).
    assert (Hr' : Forall (fun w => exists a b, fin a /\ fin b /\ w = (a * a + b * b)%xr)
                    (zip_with (fun u v => (u * u + v * v)%xr) Xd Yd)).
    { apply Forall_zip_with_2 with (P := fin) (Q := fin); try assumption.
      intros a b Ha Hb. exists a, b. auto. }
    rewrite List.Forall_forall in Hr'. destruct (Hr' r Hr) as (a & b & Ha & Hb & ->).
    apply isotropic_entry_pos; assumption. }
  split; [unfold wf; cbn [nrows ncols data]; rewrite normalise_length; exact Hlen|].
  split; [exact Hlx|]. split; [exact Hlx|].
  apply normalise_entries. exact Hpos.
Qed.

(** The support and the entries of the kernels.  The anisotropic
    kernel is laid on the integer points of the bounding box of its
    ellipse: with the box [(-H, -W, H, W)] of the scales [|sigma1|],
    [|sigma2|] it has [2 * floor(H) + 1] rows and [2 * floor(W) + 1]
    columns.  The isotropic kernel is a square of side
    [2 * floor(sigma * cutoff) + 1].  In exact arithmetic every entry
    of either kernel is a positive number, at most one. *)
Theorem kernel_support_positive (p s1 s2 e sigma c : R) (rest rest' : list xreal) :
  s1 <> 0 -> s2 <> 0 -> 0 <= e -> 0 < sigma -> 0 < c ->
  (exists K W H,
     _compute_ellipse_bbox (Fin p) (Fin (Rabs s1)) (Fin (Rabs s2)) (Fin c)
     = (Fin (- H), Fin (- W), Fin H, Fin W) /\
     0 <= W /\ 0 <= H /\
     _compute_kernel_anisotropic
       (PySeq (Fin p :: Fin s1 :: Fin s2 :: Fin e :: rest)) (Fin c) = Ok K /\
     wf K /\
     nrows K = (2 * Z.to_nat (Int_part H) + 1)%nat /\
     ncols K = (2 * Z.to_nat (Int_part W) + 1)%nat /\
     Forall unit_fraction (data K)) /\
  (exists K,
     _compute_kernel_isotropic (PySeq (Fin sigma :: rest')) (Fin c) = Ok K /\
     wf K /\
     nrows K = (2 * Z.to_nat (Int_part (sigma * c)) + 1)%nat /\
     ncols K = (2 * Z.to_nat (Int_part (sigma * c)) + 1)%nat /\
     Forall unit_fraction (data K)).
Proof.
  intros H1 H2 He Hs Hc. split.
  - apply anisotropic_kernel_support; assumption.
  - apply isotropic_kernel_support; assumption.
Qed.

Lemma kernel_support_positive_witness :
  1 <> 0 /\ 1 <> 0 /\ 0 <= 1 /\ 0 < 1 /\ 0 < 6 /\
  (exists K W H,
     _compute_ellipse_bbox (Fin 45) (Fin (Rabs 1)) (Fin (Rabs 1)) (Fin 6)
     = (Fin (- H), Fin (- W), Fin H, Fin W) /\
     0 <= W /\ 0 <= H /\
     _compute_kernel_anisotropic
       (PySeq (Fin 45 :: Fin 1 :: Fin 1 :: Fin 1 :: [])) (Fin 6) = Ok K /\
     wf K /\
     nrows K = (2 * Z.to_nat (Int_part H) + 1)%nat /\
     ncols K = (2 * Z.to_nat (Int_part W) + 1)%nat /\
     Forall unit_fraction (data K)) /\
  (exists K,
     _compute_kernel_isotropic (PySeq (Fin 1 :: [])) (Fin 6) = Ok K /\
     wf K /\
     nrows K = (2 * Z.to_nat (Int_part (1 * 6)) + 1)%nat /\
     ncols K = (2 * Z.to_nat (Int_part (1 * 6)) + 1)%nat /\
     Forall unit_fraction (data K)).
Proof.
  split; [lra|]. split; [lra|]. split; [lra|]. split; [lra|]. split; [lra|].
  apply (kernel_support_positive 45 1 1 1 1 6 [] []); lra.
Defined.

End KernelSupport.

(** ** The isotropic kernel at the edges of its domain *)

Section IsotropicEdges.
Local Open Scope R_scope.

Lemma Int_part_small (r : R) : 0 <= r < 1 -> Int_part r = 0%Z.
Proof. intros Hr. symmetry. apply Int_part_spec. simpl. lra. Qed.

Lemma Int_part_ge_1 (r : R) : 1 <= r -> (1 <= Int_part r)%Z.
Proof.
  intros Hr. destruct (base_Int_part r) as [_ Hlo].
  assert (0 < IZR (Int_part r)) by lra.
  apply lt_IZR in H. lia.
Qed.

Lemma axis_0 : axis 0 = [Fin 0].
Proof. reflexivity. Qed.

Lemma arange_empty (a b : Z) : (b <= a)%Z -> arange a b = [].
Proof.
  intros Hab. unfold arange. replace (Z.to_nat (b - a)) with 0%nat by lia. reflexivity.
Qed.

(** [_compute_kernel_isotropic] outside the scales it is meant for.
    A NaN scale raises ValueError and an infinite one OverflowError (at
    the conversion of the box to integers).  A positive scale with
    [sigma * cutoff < 1] gives the 1 x 1 kernel [[1.0]], a zero scale
    the 1 x 1 kernel [[nan]], and a negative scale with
    [sigma * cutoff <= -1] an empty 0 x 0 kernel; none of these
    raises. *)
Theorem isotropic_kernel_edge_cases (c : R) (rest : list xreal) :
  0 < c ->
  _compute_kernel_isotropic (PySeq (NaN :: rest)) (Fin c) = Raise ValueError /\
  _compute_kernel_isotropic (PySeq (PInf :: rest)) (Fin c) = Raise OverflowError /\
  _compute_kernel_isotropic (PySeq (NInf :: rest)) (Fin c) = Raise OverflowError /\
  (forall s, 0 < s -> s * c < 1 ->
     _compute_kernel_isotropic (PySeq (Fin s :: rest)) (Fin c) = Ok (Array2 1 1 [Fin 1])) /\
  _compute_kernel_isotropic (PySeq (Fin 0 :: rest)) (Fin c) = Ok (Array2 1 1 [NaN]) /\
  (forall s, s * c <= -1 ->
     _compute_kernel_isotropic (PySeq (Fin s :: rest)) (Fin c) = Ok (Array2 0 0 [])).
Proof.
  intros Hc. split; [reflexivity|]. split; [|split; [|split; [|split]]].
  - unfold _compute_kernel_isotropic. cbn [xneg xmul].
    rewrite (inf_of_sign_neg (- c)), (inf_of_sign_pos c) by lra. reflexivity.
  - unfold _compute_kernel_isotropic. cbn [xneg xmul].
    rewrite (inf_of_sign_neg (- c)), (inf_of_sign_pos c) by lra. reflexivity.
  - intros s Hs Hsc. unfold _compute_kernel_isotropic. cbn [xneg xmul].
    rewrite !odd_axis_symmetric by (nra || ring).
    rewrite Int_part_small by nra.
    cbn [mbind result_bind mret result_ret].
    rewrite axis_0.
    cbn [map meshgrid length concat repeat app nrows ncols data zip_with].
    rewrite xdiv_fin by lra. cbn [xmul xadd xexp].
    unfold normalise, fsum. cbn [map fold_left fadd fzero xreal_ops xadd].
    replace (- (1 / 2) * (0 / s * (0 / s) + 0 / s * (0 / s))) with 0 by (field; lra).
    rewrite exp_0, xdiv_fin by lra.
    replace (1 / (0 + 1)) with 1 by field. reflexivity.
  - unfold _compute_kernel_isotropic. cbn [xneg xmul].
    rewrite !odd_axis_symmetric by (lra || ring).
    rewrite Int_part_small by lra.
    cbn [mbind result_bind mret result_ret].
    rewrite axis_0.
    cbn [map meshgrid length concat repeat app nrows ncols data zip_with].
    unfold xdiv at 1 2 3 4. rewrite Reqb_true by reflexivity.
    unfold inf_of_sign. rewrite !Rltb_false by lra. reflexivity.
  - intros s Hsc. unfold _compute_kernel_isotropic. cbn [xneg xmul].
    assert (Hn : (1 <= Int_part (- s * c))%Z) by (apply Int_part_ge_1; lra).
    unfold odd_axis. cbn [py_int mbind result_bind]. unfold truncate.
    rewrite (Rltb_false (- s * c) 0), (Rltb_true (s * c) 0) by lra.
    replace (- (s * c)) with (- s * c) by ring.
    set (n := Int_part (- s * c)) in *.
    rewrite (arange_empty n (- n + 1)) by lia. cbn [length Nat.even].
    cbn [mbind result_bind mret result_ret].
    rewrite (arange_empty (n - 1) (- n + 1)) by lia. reflexivity.
Qed.

Lemma isotropic_kernel_edge_cases_witness :
  0 < 6 /\
  _compute_kernel_isotropic (PySeq (NaN :: [])) (Fin 6) = Raise ValueError /\
  _compute_kernel_isotropic (PySeq (PInf :: [])) (Fin 6) = Raise OverflowError /\
  _compute_kernel_isotropic (PySeq (NInf :: [])) (Fin 6) = Raise OverflowError /\
  (forall s, 0 < s -> s * 6 < 1 ->
     _compute_kernel_isotropic (PySeq (Fin s :: [])) (Fin 6) = Ok (Array2 1 1 [Fin 1])) /\
  _compute_kernel_isotropic (PySeq (Fin 0 :: [])) (Fin 6) = Ok (Array2 1 1 [NaN]) /\
  (forall s, s * 6 <= -1 ->
     _compute_kernel_isotropic (PySeq (Fin s :: [])) (Fin 6) = Ok (Array2 0 0 [])).
Proof.
  split; [lra|]. apply (isotropic_kernel_edge_cases 6 []). lra.
Defined.

End IsotropicEdges.

(** ** The angle of a fitted kernel *)

Section FittedAngle.
Local Open Scope R_scope.

Lemma atan_sign (x : R) : (0 <= x -> 0 <= atan x) /\ (x <= 0 -> atan x <= 0).
Proof.
  split; intros Hx.
  - destruct (Req_dec_T x 0) as [-> | Hne]; [rewrite atan_0; lra|].
    left. rewrite <- atan_0. apply atan_increasing. lra.
  - destruct (Req_dec_T x 0) as [-> | Hne]; [rewrite atan_0; lra|].
    left. rewrite <- atan_0. apply atan_increasing. lra.
Qed.

Lemma xarctan2_range (b a : R) :
  exists theta, xarctan2 (Fin b) (Fin a) = Fin theta /\ - PI <= theta <= PI.
Proof.
  pose proof PI_RGT_0 as Hpi. pose proof (atan_bound (b / a)) as [Hlo Hhi].
  unfold xarctan2.
  destruct (Rlt_dec 0 a) as [Ha | Ha].
  - rewrite Rltb_true by exact Ha. eexists. split; [reflexivity | lra].
  - rewrite Rltb_false by lra. destruct (Rlt_dec a 0) as [Ha' | Ha'].
    + rewrite Rltb_true by exact Ha'. destruct (Rlt_dec b 0) as [Hb | Hb].
      * rewrite Rltb_true by exact Hb. eexists. split; [reflexivity|].
        assert (0 <= b / a).
        { apply Rmult_le_reg_r with (- a); [lra|].
          replace (b / a * - a) with (- b) by (field; lra). lra. }
        pose proof (proj1 (atan_sign (b / a)) H). lra.
      * rewrite Rltb_false by lra. eexists. split; [reflexivity|].
        assert (b / a <= 0).
        { apply Rmult_le_reg_r with (- a); [lra|].
          replace (b / a * - a) with (- b) by (field; lra). lra. }
        pose proof (proj2 (atan_sign (b / a)) H). lra.
    + rewrite Rltb_false by lra.
      destruct (Rltb 0 b); [eexists; split; [reflexivity | lra]|].
      destruct (Rltb b 0); eexists; (split; [reflexivity | lra]).
Qed.

(** The angle that the fit hands to the kernel builder.
    [_get_anisotropic_kernel_params] computes [theta] with [arctan2],
    in radians between [-pi] and [pi]; [_compute_kernel_anisotropic]
    and [_compute_ellipse_bbox] take their first parameter in degrees
    and turn it into [phi_r = phi / 180 * pi].  The rotation a kernel
    gets from a fitted vector is therefore [theta * pi / 180]: at most
    [pi^2 / 180 < 0.1] radians in size, whatever the direction of
    [(p[0], p[1])], and the bounding box of such a kernel is always
    computed by the general branch. *)
Theorem fitted_angle_rotation (p0 p1 p2 : R) (p3 : xreal) (rest : list xreal) :
  exists theta sigma1 sigma2,
    _get_anisotropic_kernel_params (Fin p0 :: Fin p1 :: Fin p2 :: p3 :: rest)
    = Ok (PySeq [Fin theta; sigma1; sigma2; p3]) /\
    - PI <= theta <= PI /\
    (Fin theta / Fin 180 * Fin PI)%xr = Fin (phi_rad theta) /\
    Rabs (phi_rad theta) <= PI * PI / 180 /\
    Rabs (phi_rad theta) < 1 / 10 /\
    forall s1 s2 c, s1 <> 0 -> s2 <> 0 -> c <> 0 ->
      _compute_ellipse_bbox (Fin theta) (Fin s1) (Fin s2) (Fin c)
      = (Fin (- ellipse_extent (c * s2) (c * s1) (phi_rad theta)),
         Fin (- ellipse_extent (c * s1) (c * s2) (phi_rad theta)),
         Fin (ellipse_extent (c * s2) (c * s1) (phi_rad theta)),
         Fin (ellipse_extent (c * s1) (c * s2) (phi_rad theta))).
Proof.
  pose proof PI_RGT_0 as Hpi. pose proof PI_4 as Hpi4. pose proof PI2_3_2 as Hpi2.
  destruct (xarctan2_range p1 p0) as (theta & Ht & Hrange).
  exists theta. unfold _get_anisotropic_kernel_params. rewrite Ht.
  do 2 eexists. split; [reflexivity|]. split; [exact Hrange|].
  split; [apply phi_r_fin|].
  assert (Hb : Rabs (phi_rad theta) <= PI * PI / 180).
  { unfold phi_rad. apply Rabs_le. split; nra. }
  assert (Hs : PI * PI / 180 < 1 / 10) by nra.
  split; [exact Hb|]. split; [lra|].
  intros s1 s2 c H1 H2 Hc. apply ellipse_bbox_extents; try assumption.
  left. intros [Hn | Hn]; apply Rabs_le_between in Hn, Hb; lra.
Qed.

End FittedAngle.
